(** * Quote engines of phoenix-sdk-migration: a shallow embedding

    Two Go programs are embedded here:

    - [src/lifinity.go]: a constant-product pool over two [uint64] reserves
      whose invariant [_k] is a [float64];
    - [src/phoenix.go]: a taker walk over a ladder of [float64] price/size
      levels.

    [uint64] values are integers in [0, 2^64) with the wrap-around written
    out.  [float64] values are IEEE 754 binary64 numbers, taken from the
    Standard Library's executable specification [SpecFloat] at precision 53
    and maximal exponent 1024, so every operation rounds to nearest-even
    exactly as the hardware does.  Go may fuse [x*y + z] into one rounding on
    some targets; the embedding rounds after every operation, as the amd64
    compiler does.  Console output ([fmt.Printf]) is not modelled. *)

From Stdlib Require Import ZArith List Bool Lia String.
From Stdlib Require Import Floats.SpecFloat.
Import ListNotations.
Local Open Scope Z_scope.

(** ** Results of fallible calls: a value or Go's [error] string *)

Inductive result (T : Type) : Type :=
| Ok (v : T)
| Err (msg : string).
Arguments Ok {T} v.
Arguments Err {T} msg.

Definition is_ok {T : Type} (r : result T) : bool :=
  match r with Ok _ => true | Err _ => false end.

(** ** binary64 arithmetic *)

Module F64.

Definition prec : Z := 53.
Definition emax : Z := 1024.

Definition float64 : Type := spec_float.

Definition zero : float64 := S754_zero false.
Definition add : float64 -> float64 -> float64 := SFadd prec emax.
Definition sub : float64 -> float64 -> float64 := SFsub prec emax.
Definition mul : float64 -> float64 -> float64 := SFmul prec emax.
Definition div : float64 -> float64 -> float64 := SFdiv prec emax.
Definition abs : float64 -> float64 := SFabs.

(** Go's [x <= y], [x >= y], [x > y]; all false on NaN. *)
Definition leb (x y : float64) : bool := SFleb x y.
Definition geb (x y : float64) : bool := SFleb y x.
Definition gtb (x y : float64) : bool := SFltb y x.

(** [float64(n)] for an integer [n], and integer constants used as floats:
    the nearest binary64, ties to even. *)
Definition of_Z (n : Z) : float64 := binary_normalize prec emax n 0 false.

(** The integer part of a float (fraction discarded, towards zero);
    [None] for NaN and the infinities. *)
Definition trunc (x : float64) : option Z :=
  match x with
  | S754_zero _ => Some 0
  | S754_finite s m e =>
      Some (cond_Zopp s
              (match e with
               | Z0 => Zpos m
               | Zpos _ => Zpos m * 2 ^ e
               | Zneg p => Zpos m / 2 ^ Zpos p
               end))
  | _ => None
  end.

(** A binary64 datum: finite values are in canonical form and in range.
    Every [float64] of the program is one; [spec_float] also holds
    mantissa/exponent pairs that no binary64 number has, and those are what
    a validity hypothesis excludes. *)
Definition valid (x : float64) : bool := valid_binary prec emax x.

(** *** Vocabulary for reasoning about binary64 values *)

Definition is_finite (x : float64) : bool :=
  match x with
  | S754_zero _ | S754_finite _ _ _ => true
  | _ => false
  end.

(** Not below zero: zeros of either sign, positive numbers, plus infinity;
    NaN counts, as it is never the smaller side of a comparison. *)
Definition nonneg (x : float64) : bool :=
  match x with
  | S754_finite s _ _ | S754_infinity s => negb s
  | _ => true
  end.

(** Strictly above zero. *)
Definition is_pos (x : float64) : bool :=
  match x with
  | S754_finite s _ _ | S754_infinity s => negb s
  | _ => false
  end.

Definition sign_is (s : bool) (r : float64) : Prop :=
  match r with
  | S754_zero s' | S754_infinity s' | S754_finite s' _ _ => s' = s
  | S754_nan => True
  end.

(** A finite binary64 value counted in units of 2^-1074, the spacing of the
    subnormal numbers: an integer for every valid datum, and the order of
    these integers is the order of the floats. *)
Definition scaled (x : float64) : Z :=
  match x with
  | S754_finite s m e => cond_Zopp s (Zpos m * 2 ^ (e + 1074))
  | _ => 0
  end.

(** What rounding returns for a rounded mantissa [m2] at exponent [E]:
    a zero, a carry into the next binade, a finite number, or an overflow. *)
Definition round_result (s : bool) (m2 E : Z) : float64 :=
  if m2 =? 0 then S754_zero s
  else if m2 =? 2 ^ 53 then
    if E + 1 <=? emax - prec then S754_finite s (Z.to_pos (2 ^ 52)) (E + 1)
    else S754_infinity s
  else if E <=? emax - prec then S754_finite s (Z.to_pos m2) E
  else S754_infinity s.

Definition round_ok (m2 E : Z) : Prop :=
  0 <= m2 <= 2 ^ 53 /\ -1074 <= E /\ (-1074 < E -> 2 ^ 52 <= m2).

(** [r] is a rounding of the exact value [W * 2^-1074]: zero stays zero;
    otherwise the magnitude is cut to 53 digits, the last one possibly
    incremented, and the sign kept. *)
Definition rounding_of (W : Z) (r : float64) : Prop :=
  if W =? 0 then r = S754_zero false
  else
    let V := Z.abs W in
    let sh := Z.max (Zdigits2 V - 53) 0 in
    exists m2,
      round_ok m2 (sh - 1074) /\
      V / 2 ^ sh <= m2 <= V / 2 ^ sh + 1 /\
      r = round_result (W <? 0) m2 (sh - 1074).

End F64.

Definition float64 : Type := F64.float64.

(** ** uint64 arithmetic *)

Definition two64 : Z := 2 ^ 64.
Definition add64 (x y : Z) : Z := (x + y) mod two64.
Definition sub64 (x y : Z) : Z := (x - y) mod two64.
Definition mul64 (x y : Z) : Z := (x * y) mod two64.
Definition div64 (x y : Z) : Z := x / y.

(** * The constant-product pool ([src/lifinity.go]) *)

Module Lifinity.

Record LifinityLiquidity : Type := {
  A : Z;          (* reserve of the base token, uint64 *)
  B : Z;          (* reserve of the quote token, uint64 *)
  _k : float64    (* constant product *)
}.

Module QuoteParams.
Record t : Type := { InAmount : Z; AToB : bool }.
End QuoteParams.

Module Quote.
Record t : Type := { InAmount : Z; OutAmount : Z; PriceImpactBP : Z }.
End Quote.

Definition LifinityFeeRate : Z := 50.

Definition NewLifinityLiquidity (a b : Z) : LifinityLiquidity :=
  {| A := a; B := b; _k := F64.mul (F64.of_Z a) (F64.of_Z b) |}.

Definition Price (l : LifinityLiquidity) (aToB : bool) : float64 :=
  if aToB then F64.div (F64.of_Z (A l)) (F64.of_Z (B l))
  else F64.div (F64.of_Z (B l)) (F64.of_Z (A l)).

Definition K (l : LifinityLiquidity) : float64 := _k l.

Section Conversion.

(** Go leaves the conversion of a float to an unsigned integer unspecified
    when the truncated value is not representable (NaN, infinities, negative
    values, values of 2^64 and more).  [oor] is what the platform yields
    there; it is reduced to 64 bits. *)
Variable oor : float64 -> Z.

Definition uint64_of_float (x : float64) : Z :=
  match F64.trunc x with
  | Some n => if (0 <=? n) && (n <? two64) then n else oor x mod two64
  | None => oor x mod two64
  end.

(** [GetQuote] returns the quote or the error, and the pool after the call. *)
Definition GetQuote (l : LifinityLiquidity) (params : QuoteParams.t)
  : result Quote.t * LifinityLiquidity :=
  let inAmount := QuoteParams.InAmount params in
  let feeAmount := div64 (mul64 inAmount LifinityFeeRate) 10000 in
  let '(afterA, afterB, outAmount) :=
    if QuoteParams.AToB params then
      let afterA := sub64 (add64 (A l) inAmount) feeAmount in
      let afterB := uint64_of_float (F64.div (K l) (F64.of_Z afterA)) in
      let outAmount := sub64 (sub64 (B l) afterB) 1 in
      (afterA, afterB, outAmount)
    else
      let afterB := sub64 (add64 (B l) inAmount) feeAmount in
      let afterA := uint64_of_float (F64.div (K l) (F64.of_Z afterB)) in
      let outAmount := sub64 (sub64 (A l) afterA) 1 in
      (afterA, afterB, outAmount) in
  if (afterA =? 0) || (afterB =? 0) then
    (Err "afterLiquidity is zero"%string, l)
  else
    let l' := {| A := afterA; B := afterB; _k := _k l |} in
    let beforePrice := Price l' (QuoteParams.AToB params) in
    let afterPrice := F64.div (F64.of_Z afterA) (F64.of_Z afterB) in
    let priceImpactBP :=
      F64.mul (F64.div (F64.abs (F64.sub afterPrice beforePrice)) beforePrice)
              (F64.of_Z 10000) in
    (Ok {| Quote.InAmount := inAmount;
           Quote.OutAmount := outAmount;
           Quote.PriceImpactBP := uint64_of_float priceImpactBP |},
     l').

End Conversion.

(** The reserves a quote writes back, before the zero check: the input side
    first, then the side recomputed from [_k]. *)
Definition feeAmount (inAmount : Z) : Z :=
  div64 (mul64 inAmount LifinityFeeRate) 10000.

Definition reserveIn (l : LifinityLiquidity) (aToB : bool) : Z :=
  if aToB then A l else B l.

Definition reserveOut (l : LifinityLiquidity) (aToB : bool) : Z :=
  if aToB then B l else A l.

Definition afterIn (l : LifinityLiquidity) (params : QuoteParams.t) : Z :=
  sub64 (add64 (reserveIn l (QuoteParams.AToB params))
               (QuoteParams.InAmount params))
        (feeAmount (QuoteParams.InAmount params)).

Definition afterOut (oor : float64 -> Z) (l : LifinityLiquidity)
  (params : QuoteParams.t) : Z :=
  uint64_of_float oor (F64.div (K l) (F64.of_Z (afterIn l params))).

End Lifinity.

(** * The ladder walk ([src/phoenix.go]) *)

Module Phoenix.

Record UiLadderLevel : Type := { Price : float64; Quantity : float64 }.

Record UiLadder : Type := {
  Asks : list UiLadderLevel;
  Bids : list UiLadderLevel
}.

(** Of [Hoenix] only [Data.TakerFeeBps] is read by the quote path. *)
Record HoenixData : Type := { TakerFeeBps : float64 }.
Record Hoenix : Type := { Data : HoenixData }.

Definition FeeScale : Z := 10000.

Inductive Side : Type := Bid | Ask.

Module QuoteParams.
Record t : Type := { InAmount : float64; AToB : bool }.
End QuoteParams.

Module Quote.
Record t : Type := { InAmount : float64; OutAmount : float64 }.
End Quote.

Definition applyTakerFee (amount takerFeeBps : float64) : float64 :=
  F64.div amount
    (F64.add (F64.of_Z 1) (F64.div takerFeeBps (F64.of_Z FeeScale))).

(** The loop of [calculateBaseAmountFromQuoteBudget]: the accumulated base
    amount and the budget left when the loop is left. *)
Fixpoint walkAsks (asks : list UiLadderLevel) (baseAmount quoteBudget : float64)
  : float64 * float64 :=
  match asks with
  | [] => (baseAmount, quoteBudget)
  | level :: rest =>
      if F64.geb (F64.mul (Price level) (Quantity level)) quoteBudget then
        (F64.add baseAmount (F64.div quoteBudget (Price level)), F64.zero)
      else
        let baseAmount := F64.add baseAmount (Quantity level) in
        let quoteBudget :=
          F64.sub quoteBudget (F64.mul (Price level) (Quantity level)) in
        if F64.leb quoteBudget F64.zero then (baseAmount, quoteBudget)
        else walkAsks rest baseAmount quoteBudget
  end.

(** Go's [(float64, error)]: the amount is returned on both paths. *)
Definition calculateBaseAmountFromQuoteBudget
  (asks : list UiLadderLevel) (quoteBudget : float64)
  : float64 * option string :=
  let '(baseAmount, quoteBudget) := walkAsks asks F64.zero quoteBudget in
  if F64.gtb quoteBudget F64.zero then
    (baseAmount, Some "not enough liquidity to fulfill the trade"%string)
  else (baseAmount, None).

(** The loop of [calculateQuoteAmountFromBaseBudget]. *)
Fixpoint walkBids (bids : list UiLadderLevel) (quoteAmount baseBudget : float64)
  : float64 * float64 :=
  match bids with
  | [] => (quoteAmount, baseBudget)
  | level :: rest =>
      if F64.geb (Quantity level) baseBudget then
        (F64.add quoteAmount (F64.mul baseBudget (Price level)), F64.zero)
      else
        let quoteAmount :=
          F64.add quoteAmount (F64.mul (Quantity level) (Price level)) in
        let baseBudget := F64.sub baseBudget (Quantity level) in
        if F64.leb baseBudget F64.zero then (quoteAmount, baseBudget)
        else walkBids rest quoteAmount baseBudget
  end.

Definition calculateQuoteAmountFromBaseBudget
  (bids : list UiLadderLevel) (baseBudget : float64)
  : float64 * option string :=
  let '(quoteAmount, baseBudget) := walkBids bids F64.zero baseBudget in
  if F64.gtb baseBudget F64.zero then
    (quoteAmount, Some "not enough liquidity to fulfill the trade"%string)
  else (quoteAmount, None).

Definition getBaseUnitsOutFromQuoteUnitsIn
  (asks : list UiLadderLevel) (quoteUnitsIn : float64)
  : float64 * option string :=
  if F64.leb quoteUnitsIn F64.zero then
    (F64.zero, Some "quote units must be greater than zero"%string)
  else calculateBaseAmountFromQuoteBudget asks quoteUnitsIn.

Definition getQuoteUnitsOutFromBaseUnitsIn
  (bids : list UiLadderLevel) (baseUnitsIn : float64)
  : float64 * option string :=
  if F64.leb baseUnitsIn F64.zero then
    (F64.zero, Some "base units must be greater than zero"%string)
  else calculateQuoteAmountFromBaseBudget bids baseUnitsIn.

Definition getExpectedOutAmount
  (uiLadder : UiLadder) (side : Side) (takerFeeBps inAmount : float64)
  : float64 * option string :=
  if F64.leb inAmount F64.zero then
    (F64.zero, Some "input amount must be greater than zero"%string)
  else
    let adjustedAmount := applyTakerFee inAmount takerFeeBps in
    match side with
    | Bid => getBaseUnitsOutFromQuoteUnitsIn (Asks uiLadder) adjustedAmount
    | Ask => getQuoteUnitsOutFromBaseUnitsIn (Bids uiLadder) adjustedAmount
    end.

(** One side's loop of [updateLadderLiquidity]: levels are written in place,
    never removed. *)
Fixpoint updateLevels (levels : list UiLadderLevel) (amount : float64)
  : list UiLadderLevel :=
  match levels with
  | [] => []
  | level :: rest =>
      if F64.geb (Quantity level) amount then
        {| Price := Price level;
           Quantity := F64.sub (Quantity level) amount |} :: rest
      else
        {| Price := Price level; Quantity := F64.zero |}
          :: updateLevels rest (F64.sub amount (Quantity level))
  end.

Definition updateLadderLiquidity
  (ladder : UiLadder) (side : Side) (amount : float64) : UiLadder :=
  match side with
  | Bid => {| Asks := Asks ladder; Bids := updateLevels (Bids ladder) amount |}
  | Ask => {| Asks := updateLevels (Asks ladder) amount; Bids := Bids ladder |}
  end.

Definition isEmpty {T : Type} (l : list T) : bool :=
  match l with [] => true | _ => false end.

(** [GetQuote] returns the quote or the error, and the ladder object as the
    call leaves it (on success the returned pointer is that same object). *)
Definition GetQuote (h : Hoenix) (params : QuoteParams.t) (ladder : UiLadder)
  : result Quote.t * UiLadder :=
  let side := if negb (QuoteParams.AToB params) then Ask else Bid in
  let '(expectedOutAmount, err) :=
    getExpectedOutAmount ladder side (TakerFeeBps (Data h))
                         (QuoteParams.InAmount params) in
  match err with
  | Some msg =>
      if String.eqb msg "not enough liquidity to fulfill the trade" then
        (Err "not enough liquidity for the requested amount"%string, ladder)
      else (Err msg, ladder)
  | None =>
      let ladder' :=
        if QuoteParams.AToB params then
          updateLadderLiquidity ladder Ask expectedOutAmount
        else
          updateLadderLiquidity ladder Bid (QuoteParams.InAmount params) in
      if isEmpty (Asks ladder') || isEmpty (Bids ladder') then
        (Err "updated ladder has no more asks or bids"%string, ladder')
      else
        (Ok {| Quote.InAmount := QuoteParams.InAmount params;
               Quote.OutAmount := expectedOutAmount |},
         ladder')
  end.

(** The side a quote walks, and the side it writes. *)
Definition walkedLevels (ladder : UiLadder) (aToB : bool) : list UiLadderLevel :=
  if aToB then Asks ladder else Bids ladder.

Definition oppositeLevels (ladder : UiLadder) (aToB : bool) : list UiLadderLevel :=
  if aToB then Bids ladder else Asks ladder.

Definition level (price quantity : Z) : UiLadderLevel :=
  {| Price := F64.of_Z price; Quantity := F64.of_Z quantity |}.

(** The ladder and engine of [main]. *)
Definition mainLadder : UiLadder :=
  {| Asks := [level 25 10; level 30 5; level 35 2];
     Bids := [level 20 10; level 15 5; level 10 2] |}.

Definition mainHoenix : Hoenix := {| Data := {| TakerFeeBps := F64.of_Z 5 |} |}.

End Phoenix.

(** * Definitions used to state the properties *)

Module Lifinity_spec.
Import Lifinity.

(** A platform answer for unrepresentable conversions, used where a closed
    example needs one; each such example is an instance of a lemma that
    holds for every answer. *)
Definition oorDefault (x : float64) : Z := 0.

(** The price-impact metric as the specification words it: both prices are
    reserve ratios in trade direction, the first one of the reserves as they
    were before the trade, the second one of the updated reserves. *)
Definition spec_priceImpactBP (oor : float64 -> Z)
  (before after : LifinityLiquidity) (aToB : bool) : Z :=
  let beforePrice := Price before aToB in
  let afterPrice := Price after aToB in
  uint64_of_float oor
    (F64.mul (F64.div (F64.abs (F64.sub afterPrice beforePrice)) beforePrice)
             (F64.of_Z 10000)).

(** The effective input as the specification words it. *)
Definition spec_effectiveInput (amount feeRate : Z) : Z :=
  amount * (10000 - feeRate) / 10000.

Definition params (inAmount : Z) (aToB : bool) : QuoteParams.t :=
  {| QuoteParams.InAmount := inAmount; QuoteParams.AToB := aToB |}.

Definition is_uint64 (n : Z) : Prop := 0 <= n < two64.

(** The pool after a sequence of calls, whatever each of them returns. *)
Definition runQuotes (oor : float64 -> Z) (l : LifinityLiquidity)
  (ps : list QuoteParams.t) : LifinityLiquidity :=
  fold_left (fun l p => snd (GetQuote oor l p)) ps l.

(** The input amount less the fee of 50 basis points, the fee truncated. *)
Definition inputLessFee (x : Z) : Z := x - x / 200.

(** The one error of the pool. *)
Definition poolError : string := "afterLiquidity is zero".

End Lifinity_spec.

Module Phoenix_spec.
Import Phoenix.

Definition params (inAmount : float64) (aToB : bool) : QuoteParams.t :=
  {| QuoteParams.InAmount := inAmount; QuoteParams.AToB := aToB |}.

Definition hoenix (takerFeeBps : float64) : Hoenix :=
  {| Data := {| TakerFeeBps := takerFeeBps |} |}.

(** The budget the walk of a quote starts from, and what the loop leaves of
    it. *)
Definition adjustedAmount (h : Hoenix) (p : QuoteParams.t) : float64 :=
  applyTakerFee (QuoteParams.InAmount p) (TakerFeeBps (Data h)).

Definition walk (h : Hoenix) (p : QuoteParams.t) (ladder : UiLadder)
  : float64 * float64 :=
  if QuoteParams.AToB p then walkAsks (Asks ladder) F64.zero (adjustedAmount h p)
  else walkBids (Bids ladder) F64.zero (adjustedAmount h p).

(** The amount the update of a quote takes off the walked side. *)
Definition updateAmount (h : Hoenix) (p : QuoteParams.t) (ladder : UiLadder)
  : float64 :=
  if QuoteParams.AToB p then fst (walk h p ladder) else QuoteParams.InAmount p.

Definition withWalked (ladder : UiLadder) (aToB : bool)
  (levels : list UiLadderLevel) : UiLadder :=
  if aToB then {| Asks := levels; Bids := Bids ladder |}
  else {| Asks := Asks ladder; Bids := levels |}.

(** A side that holds no size at all. *)
Definition isZero (x : float64) : bool :=
  match x with S754_zero _ => true | _ => false end.

Definition noLiquidity (levels : list UiLadderLevel) : bool :=
  forallb (fun l => isZero (Quantity l)) levels.

(** A level datum the walk can rely on: both fields valid binary64 values. *)
Definition levelValid (l : UiLadderLevel) : bool :=
  F64.valid (Price l) && F64.valid (Quantity l).

(** A size as the data model has it: a valid, finite, non-negative value. *)
Definition sizeOk (l : UiLadderLevel) : bool :=
  F64.valid (Quantity l) && F64.is_finite (Quantity l) && F64.nonneg (Quantity l).

(** [after] is the level [before] with a size that is not larger and is
    again a size of the data model. *)
Definition notLarger (before after : UiLadderLevel) : Prop :=
  Price after = Price before /\
  F64.leb (Quantity after) (Quantity before) = true /\
  sizeOk after = true.

(** The size of a side as a float sum, in level order ... *)
Definition totalSize (levels : list UiLadderLevel) : float64 :=
  fold_left F64.add (map Quantity levels) F64.zero.

(** ... and exactly, in units of 2^-1074. *)
Definition exactTotal (levels : list UiLadderLevel) : Z :=
  fold_right Z.add 0 (map (fun l => F64.scaled (Quantity l)) levels).


(** 1, the divisor of a zero fee. *)
Definition one : float64 := S754_finite false (2 ^ 52) (-52).

(** The errors of the two unit checks and of the walk. *)
Definition quoteUnitsError : string := "quote units must be greater than zero".
Definition baseUnitsError : string := "base units must be greater than zero".
Definition walkError : string := "not enough liquidity to fulfill the trade".

(** The ladder after a sequence of calls, whatever each of them returns. *)
Definition runLadderQuotes (h : Hoenix) (ladder : UiLadder)
  (ps : list QuoteParams.t) : UiLadder :=
  fold_left (fun l p => snd (GetQuote h p l)) ps ladder.

(** A level with its size written to zero. *)
Definition emptied (l : UiLadderLevel) : UiLadderLevel :=
  {| Price := Price l; Quantity := F64.zero |}.

(** The notional of a side as a float sum, in level order. *)
Definition totalNotional (levels : list UiLadderLevel) : float64 :=
  fold_left F64.add
    (map (fun l => F64.mul (Quantity l) (Price l)) levels) F64.zero.

(** A price as the data model has it: a valid value that is not negative. *)
Definition priceOk (l : UiLadderLevel) : bool :=
  F64.valid (Price l) && F64.nonneg (Price l).

(** The greedy walk as the specification words it, level by level: a level
    that covers the remaining budget gives [budget / price] (asks) or
    [budget * price] (bids), leaves a budget of zero and ends the walk; any
    other level is consumed entirely and the walk continues.  The result is
    the output and the budget left. *)
Fixpoint greedyAsks (asks : list UiLadderLevel) (out budget : float64)
  : float64 * float64 :=
  match asks with
  | [] => (out, budget)
  | l :: rest =>
      if F64.geb (F64.mul (Price l) (Quantity l)) budget then
        (F64.add out (F64.div budget (Price l)), F64.zero)
      else
        greedyAsks rest (F64.add out (Quantity l))
                   (F64.sub budget (F64.mul (Price l) (Quantity l)))
  end.

Fixpoint greedyBids (bids : list UiLadderLevel) (out budget : float64)
  : float64 * float64 :=
  match bids with
  | [] => (out, budget)
  | l :: rest =>
      if F64.geb (Quantity l) budget then
        (F64.add out (F64.mul budget (Price l)), F64.zero)
      else
        greedyBids rest (F64.add out (F64.mul (Quantity l) (Price l)))
                   (F64.sub budget (Quantity l))
  end.

(** The greedy walk of a quote: over the asks for A to B, over the bids for
    B to A, from an output of zero and the fee-adjusted amount. *)
Definition greedy (h : Hoenix) (p : QuoteParams.t) (ladder : UiLadder)
  : float64 * float64 :=
  if QuoteParams.AToB p then
    greedyAsks (Asks ladder) F64.zero (adjustedAmount h p)
  else greedyBids (Bids ladder) F64.zero (adjustedAmount h p).

(** What a walk function returns for a walk result: the output, and the
    walk's error when budget is left. *)
Definition walkResult (r : float64 * float64) : float64 * option string :=
  (fst r, if F64.gtb (snd r) F64.zero then Some walkError else None).




End Phoenix_spec.

(** * Facts about binary64 arithmetic

    Rounding, as [SpecFloat] computes it, is characterised on integers: the
    digits kept, the exponent chosen, and the value in units of 2^-1074.
    From this follow the closure of valid data under the operations, the
    agreement of comparisons with the order of the scaled integers, and the
    sign and size of rounded sums and differences. *)

Module F64_facts.
Import F64.

(** ** The number of binary digits *)

Lemma digits2_pos_size (p : positive) : digits2_pos p = Pos.size p.
Proof. induction p; cbn; congruence. Qed.

Lemma Zdigits2_log2 (p : positive) : Zdigits2 (Zpos p) = Z.log2 (Zpos p) + 1.
Proof.
  unfold Zdigits2. rewrite digits2_pos_size.
  destruct p; cbn; try reflexivity; rewrite Pos.add_1_r; reflexivity.
Qed.

Lemma Zdigits2_bounds (m : Z) :
  0 < m -> 2 ^ (Zdigits2 m - 1) <= m < 2 ^ Zdigits2 m.
Proof.
  intros Hm. destruct m as [|p|p]; try lia.
  rewrite Zdigits2_log2.
  pose proof (Z.log2_spec (Zpos p) ltac:(lia)) as H.
  replace (Z.log2 (Z.pos p) + 1 - 1) with (Z.log2 (Z.pos p)) by lia.
  replace (Z.log2 (Z.pos p) + 1) with (Z.succ (Z.log2 (Z.pos p))) by lia.
  exact H.
Qed.

Lemma Zdigits2_unique (m d : Z) :
  2 ^ (d - 1) <= m < 2 ^ d -> 0 < d -> Zdigits2 m = d.
Proof.
  intros H Hd.
  assert (0 < m) by (pose proof (Z.pow_pos_nonneg 2 (d - 1)); lia).
  destruct m as [|p|p]; try lia.
  rewrite Zdigits2_log2.
  rewrite (Z.log2_unique (Zpos p) (d - 1)); try lia.
  replace (Z.succ (d - 1)) with d by lia. exact H.
Qed.

Lemma Zdigits2_pos (m : Z) : 0 < m -> 0 < Zdigits2 m.
Proof. destruct m; cbn; lia. Qed.

Lemma Zdigits2_nonneg (m : Z) : 0 <= Zdigits2 m.
Proof. destruct m; cbn; lia. Qed.

Lemma Zdigits2_le (m d : Z) : 0 <= d -> 0 <= m < 2 ^ d -> Zdigits2 m <= d.
Proof.
  intros Hd [H0 H1].
  assert (m = 0 \/ 0 < m) as [->|Hm] by lia; [cbn; lia|].
  pose proof (Zdigits2_bounds m Hm) as [Hl _].
  destruct (Z_le_gt_dec (Zdigits2 m) d) as [|Hgt]; [assumption|exfalso].
  assert (2 ^ d <= 2 ^ (Zdigits2 m - 1)) by (apply Z.pow_le_mono_r; lia).
  lia.
Qed.

Lemma Zdigits2_ge (m d : Z) : 2 ^ (d - 1) <= m -> 0 < d -> d <= Zdigits2 m.
Proof.
  intros H Hd.
  assert (0 < m) by (pose proof (Z.pow_pos_nonneg 2 (d - 1)); lia).
  pose proof (Zdigits2_bounds m ltac:(lia)) as [_ Hu].
  destruct (Z_le_gt_dec d (Zdigits2 m)) as [|Hgt]; [assumption|exfalso].
  assert (2 ^ Zdigits2 m <= 2 ^ (d - 1)) by (apply Z.pow_le_mono_r; lia).
  lia.
Qed.

Lemma Zdigits2_mul_pow2 (m k : Z) :
  0 < m -> 0 <= k -> Zdigits2 (m * 2 ^ k) = Zdigits2 m + k.
Proof.
  intros Hm Hk.
  pose proof (Zdigits2_bounds m Hm) as [Hl Hu].
  pose proof (Zdigits2_pos m Hm).
  apply Zdigits2_unique; [|lia].
  replace (Zdigits2 m + k - 1) with (Zdigits2 m - 1 + k) by lia.
  rewrite !Z.pow_add_r by lia.
  assert (0 < 2 ^ k) by (apply Z.pow_pos_nonneg; lia).
  nia.
Qed.

Lemma Zdigits2_div_pow2 (m k : Z) :
  0 < m -> 0 <= k < Zdigits2 m -> Zdigits2 (m / 2 ^ k) = Zdigits2 m - k.
Proof.
  intros Hm Hk.
  pose proof (Zdigits2_bounds m Hm) as [Hl Hu].
  assert (0 < 2 ^ k) by (apply Z.pow_pos_nonneg; lia).
  apply Zdigits2_unique; [|lia]. split.
  - apply Z.div_le_lower_bound; [lia|].
    rewrite <- Z.pow_add_r by lia.
    replace (k + (Zdigits2 m - k - 1)) with (Zdigits2 m - 1) by lia. assumption.
  - apply Z.div_lt_upper_bound; [lia|].
    rewrite <- Z.pow_add_r by lia.
    replace (k + (Zdigits2 m - k)) with (Zdigits2 m) by lia. assumption.
Qed.

(** ** Shifting a mantissa to the right

    Only the kept digits matter for bounds: after [n] shifts the mantissa is
    the quotient by [2^n], and rounding adds at most one. *)

Lemma shr_1_m (r : shr_record) :
  0 <= shr_m r -> shr_m (shr_1 r) = shr_m r / 2.
Proof.
  destruct r as [m b s]. cbn [shr_m]. intros Hm.
  destruct m as [|p|p]; try lia; cbn [shr_1].
  - reflexivity.
  - destruct p; cbn [shr_m].
    + rewrite Pos2Z.inj_xI. apply Z.div_unique with (r := 1); lia.
    + rewrite Pos2Z.inj_xO. apply Z.div_unique with (r := 0); lia.
    + reflexivity.
Qed.

Lemma iter_shr_m (p : positive) (r : shr_record) :
  0 <= shr_m r -> shr_m (iter_pos shr_1 p r) = shr_m r / 2 ^ Zpos p.
Proof.
  revert r. induction p as [p IH|p IH|]; intros r Hr; cbn [iter_pos].
  - assert (H1 : 0 <= shr_m (shr_1 r)).
    { rewrite shr_1_m by assumption. apply Z.div_pos; lia. }
    assert (H2 : 0 <= shr_m (iter_pos shr_1 p (shr_1 r))).
    { rewrite IH by assumption. apply Z.div_pos; [assumption|].
      apply Z.pow_pos_nonneg; lia. }
    rewrite IH, IH, shr_1_m by assumption.
    rewrite !Z.div_div by (try apply Z.pow_pos_nonneg; lia).
    f_equal. change 2 with (2 ^ 1) at 1.
    rewrite <- !Z.pow_add_r by lia. f_equal. lia.
  - assert (H2 : 0 <= shr_m (iter_pos shr_1 p r)).
    { rewrite IH by assumption. apply Z.div_pos; [assumption|].
      apply Z.pow_pos_nonneg; lia. }
    rewrite IH, IH by assumption.
    rewrite !Z.div_div by (try apply Z.pow_pos_nonneg; lia).
    f_equal. rewrite <- Z.pow_add_r by lia. f_equal. lia.
  - rewrite shr_1_m by assumption. reflexivity.
Qed.

Lemma shr_m_shr (r : shr_record) (e n : Z) :
  0 <= shr_m r -> 0 <= n ->
  shr_m (fst (shr r e n)) = shr_m r / 2 ^ n /\ snd (shr r e n) = e + n.
Proof.
  intros Hr Hn. destruct n as [|p|p]; try lia; cbn [shr fst snd].
  - rewrite Z.div_1_r. split; [reflexivity|lia].
  - split; [apply iter_shr_m; assumption|reflexivity].
Qed.

Lemma shr_m_of_loc (m : Z) (l : location) : shr_m (shr_record_of_loc m l) = m.
Proof. destruct l as [|[]]; reflexivity. Qed.

Lemma round_nearest_even_cases (m : Z) (l : location) :
  round_nearest_even m l = m \/ round_nearest_even m l = m + 1.
Proof.
  destruct l as [|[]]; cbn; auto. destruct (Z.even m); auto.
Qed.

Lemma fexp_eq (e : Z) : fexp prec emax e = Z.max (e - 53) (-1074).
Proof. reflexivity. Qed.

Lemma shr_nonpos (r : shr_record) (e n : Z) : n <= 0 -> shr r e n = (r, e).
Proof. destruct n; try reflexivity. lia. Qed.

Lemma shr_fexp_m (m e : Z) (l : location) :
  0 <= m -> e <= fexp prec emax (Zdigits2 m + e) ->
  shr_m (fst (shr_fexp prec emax m e l))
    = m / 2 ^ (fexp prec emax (Zdigits2 m + e) - e) /\
  snd (shr_fexp prec emax m e l) = fexp prec emax (Zdigits2 m + e).
Proof.
  intros Hm Hn. unfold shr_fexp.
  destruct (shr_m_shr (shr_record_of_loc m l) e
              (fexp prec emax (Zdigits2 m + e) - e)) as [H1 H2].
  - rewrite shr_m_of_loc. assumption.
  - lia.
  - rewrite H1, H2, shr_m_of_loc. split; [reflexivity|lia].
Qed.

Lemma shifted_lt_2p53 (m e : Z) :
  0 <= m -> e <= fexp prec emax (Zdigits2 m + e) ->
  m / 2 ^ (fexp prec emax (Zdigits2 m + e) - e) < 2 ^ 53.
Proof.
  intros Hm Hn. rewrite fexp_eq in *.
  set (n := Z.max (Zdigits2 m + e - 53) (-1074) - e) in *.
  assert (0 <= n) by lia.
  assert (0 < 2 ^ n) by (apply Z.pow_pos_nonneg; lia).
  apply Z.div_lt_upper_bound; [assumption|].
  rewrite <- Z.pow_add_r by lia.
  assert (m = 0 \/ 0 < m) as [->|Hp] by lia.
  - apply Z.pow_pos_nonneg; lia.
  - pose proof (Zdigits2_bounds m Hp) as [_ Hu].
    assert (2 ^ Zdigits2 m <= 2 ^ (n + 53)) by (apply Z.pow_le_mono_r; lia).
    lia.
Qed.

Lemma binary_round_aux_cases (s : bool) (m e : Z) (l : location) :
  0 <= m -> e <= fexp prec emax (Zdigits2 m + e) ->
  binary_round_aux prec emax s m e l =
  round_result s
    (round_nearest_even (m / 2 ^ (fexp prec emax (Zdigits2 m + e) - e))
       (loc_of_shr_record (fst (shr_fexp prec emax m e l))))
    (fexp prec emax (Zdigits2 m + e)).
Proof.
  intros Hm Hn.
  pose proof (shr_fexp_m m e l Hm Hn) as [H1 H2].
  pose proof (shifted_lt_2p53 m e Hm Hn) as Hlt.
  unfold binary_round_aux.
  destruct (shr_fexp prec emax m e l) as [r1 e1]. cbn [fst snd] in *.
  subst e1. rewrite H1.
  set (E := fexp prec emax (Zdigits2 m + e)) in *.
  set (m1 := m / 2 ^ (E - e)) in *.
  assert (Hm1 : 0 <= m1).
  { apply Z.div_pos; [assumption|apply Z.pow_pos_nonneg; lia]. }
  assert (HE : -1074 <= E) by (subst E; rewrite fexp_eq; lia).
  set (m2 := round_nearest_even m1 (loc_of_shr_record r1)).
  assert (Hm2 : m2 = m1 \/ m2 = m1 + 1) by apply round_nearest_even_cases.
  unfold round_result, shr_fexp.
  destruct (Z.eqb_spec m2 0) as [H0|H0].
  - rewrite H0. cbn [Zdigits2].
    rewrite shr_nonpos by (rewrite fexp_eq; lia). reflexivity.
  - destruct (Z.eqb_spec m2 (2 ^ 53)) as [Hc|Hc].
    + rewrite Hc.
      replace (fexp prec emax (Zdigits2 (2 ^ 53) + E) - E) with 1
        by (rewrite fexp_eq; change (Zdigits2 (2 ^ 53)) with 54; lia).
      cbn [shr shr_record_of_loc iter_pos].
      change (shr_m (shr_1 {| shr_m := 2 ^ 53; shr_r := false; shr_s := false |}))
        with (Z.pos (Z.to_pos (2 ^ 52))).
      cbv iota beta. reflexivity.
    + assert (Hr : 0 < m2 < 2 ^ 53) by lia.
      assert (Hd : Zdigits2 m2 <= 53) by (apply Zdigits2_le; lia).
      rewrite shr_nonpos by (rewrite fexp_eq; lia).
      cbn [shr_record_of_loc shr_m].
      destruct m2 as [|p|p]; try lia. reflexivity.
Qed.

Lemma round_ok_of_aux (m e : Z) (l : location) :
  0 <= m -> e <= fexp prec emax (Zdigits2 m + e) ->
  round_ok
    (round_nearest_even (m / 2 ^ (fexp prec emax (Zdigits2 m + e) - e))
       (loc_of_shr_record (fst (shr_fexp prec emax m e l))))
    (fexp prec emax (Zdigits2 m + e)).
Proof.
  intros Hm Hn.
  pose proof (shifted_lt_2p53 m e Hm Hn) as Hlt.
  set (E := fexp prec emax (Zdigits2 m + e)) in *.
  set (m1 := m / 2 ^ (E - e)) in *.
  assert (Hm1 : 0 <= m1).
  { apply Z.div_pos; [assumption|apply Z.pow_pos_nonneg; lia]. }
  destruct (round_nearest_even_cases m1
              (loc_of_shr_record (fst (shr_fexp prec emax m e l)))) as [H|H];
    rewrite H; clear H.
  all: split; [lia|split; [subst E; rewrite fexp_eq; lia|]].
  all: intros HE; subst E; rewrite fexp_eq in *.
  all: assert (0 < m) by
      (destruct m as [|p|p]; [change (Zdigits2 0) with 0 in *|..];
       clear - Hm Hn HE; lia).
  all: assert (Hd : Zdigits2 m1 = 53) by
      (subst m1; rewrite fexp_eq; rewrite Zdigits2_div_pow2 by lia; lia).
  all: assert (0 < m1) by (destruct m1; cbn in Hd; lia).
  all: pose proof (Zdigits2_bounds m1 ltac:(lia)) as [Hl _].
  all: rewrite Hd in Hl; change (53 - 1) with 52 in Hl; lia.
Qed.

Lemma bounded_iff (m : positive) (e : Z) :
  bounded prec emax m e = true <->
  Zpos m < 2 ^ 53 /\ -1074 <= e <= 971 /\ (-1074 < e -> 2 ^ 52 <= Zpos m).
Proof.
  unfold bounded, canonical_mantissa. rewrite andb_true_iff, Z.eqb_eq, Z.leb_le.
  rewrite fexp_eq. change (emax - prec) with 971.
  change (Z.pos (digits2_pos m)) with (Zdigits2 (Zpos m)).
  pose proof (Zdigits2_bounds (Zpos m) ltac:(lia)) as [Hl Hu].
  pose proof (Zdigits2_pos (Zpos m) ltac:(lia)) as Hp.
  split.
  - intros [Hc He].
    assert (Hd : Zdigits2 (Zpos m) <= 53) by lia.
    assert (2 ^ Zdigits2 (Z.pos m) <= 2 ^ 53) by (apply Z.pow_le_mono_r; lia).
    split; [lia|split; [lia|]]. intros Hgt.
    assert (Hd' : Zdigits2 (Zpos m) = 53) by lia.
    rewrite Hd' in Hl. exact Hl.
  - intros (Hlt & He & Hn).
    assert (Hd : Zdigits2 (Zpos m) <= 53) by (apply Zdigits2_le; lia).
    split; [|lia].
    assert (e = -1074 \/ -1074 < e) as [->|Hgt] by lia; [lia|].
    assert (53 <= Zdigits2 (Zpos m)) by (apply Zdigits2_ge; [apply Hn|]; lia).
    lia.
Qed.

Lemma round_result_valid (s : bool) (m2 E : Z) :
  round_ok m2 E -> valid (round_result s m2 E) = true.
Proof.
  intros (Hm & HE & Hn). unfold round_result, valid.
  destruct (Z.eqb_spec m2 0); [reflexivity|].
  destruct (Z.eqb_spec m2 (2 ^ 53)).
  - destruct (Z.leb_spec (E + 1) (emax - prec)); [|reflexivity].
    cbn [valid_binary]. apply bounded_iff.
    change (emax - prec) with 971 in *.
    rewrite Z2Pos.id by (apply Z.pow_pos_nonneg; lia). lia.
  - destruct (Z.leb_spec E (emax - prec)); [|reflexivity].
    cbn [valid_binary]. apply bounded_iff.
    change (emax - prec) with 971 in *.
    rewrite Z2Pos.id by lia. lia.
Qed.

Lemma round_result_scaled (s : bool) (m2 E : Z) :
  round_ok m2 E ->
  if m2 * 2 ^ (E + 1074) <? 2 ^ 2098 then
    is_finite (round_result s m2 E) = true /\
    scaled (round_result s m2 E) = cond_Zopp s (m2 * 2 ^ (E + 1074))
  else round_result s m2 E = S754_infinity s.
Proof.
  intros (Hm & HE & Hn). unfold round_result.
  assert (Hp : 0 < 2 ^ (E + 1074)) by (apply Z.pow_pos_nonneg; lia).
  change (emax - prec) with 971.
  destruct (Z.eqb_spec m2 0) as [->|H0].
  - rewrite Z.mul_0_l. cbn. destruct s; auto.
  - destruct (Z.eqb_spec m2 (2 ^ 53)) as [->|Hc].
    + rewrite <- Z.pow_add_r by lia.
      destruct (Z.leb_spec (E + 1) 971) as [Hle|Hgt].
      * assert (2 ^ (53 + (E + 1074)) < 2 ^ 2098)
          by (apply Z.pow_lt_mono_r; lia).
        destruct (Z.ltb_spec (2 ^ (53 + (E + 1074))) (2 ^ 2098)); [|lia].
        split; [reflexivity|]. cbn [scaled]. f_equal.
        rewrite Z2Pos.id by (apply Z.pow_pos_nonneg; lia).
        rewrite <- Z.pow_add_r by lia. f_equal. lia.
      * assert (2 ^ 2098 <= 2 ^ (53 + (E + 1074)))
          by (apply Z.pow_le_mono_r; lia).
        destruct (Z.ltb_spec (2 ^ (53 + (E + 1074))) (2 ^ 2098)); [lia|].
        reflexivity.
    + destruct (Z.leb_spec E 971) as [Hle|Hgt].
      * assert (2 ^ (E + 1074) <= 2 ^ 2045) by (apply Z.pow_le_mono_r; lia).
        change (2 ^ 2098) with (2 ^ 53 * 2 ^ 2045).
        destruct (Z.ltb_spec (m2 * 2 ^ (E + 1074)) (2 ^ 53 * 2 ^ 2045)); [|nia].
        split; [reflexivity|]. cbn [scaled].
        rewrite Z2Pos.id by lia. reflexivity.
      * assert (2 ^ 2046 <= 2 ^ (E + 1074)) by (apply Z.pow_le_mono_r; lia).
        change (2 ^ 2098) with (2 ^ 52 * 2 ^ 2046).
        destruct (Z.ltb_spec (m2 * 2 ^ (E + 1074)) (2 ^ 52 * 2 ^ 2046)); [|reflexivity].
        specialize (Hn ltac:(lia)). nia.
Qed.

(** ** Comparisons

    On valid finite data [SFcompare] is the comparison of the scaled
    integers. *)

Lemma scaled_pos_compare (m1 m2 : positive) (e1 e2 : Z) :
  bounded prec emax m1 e1 = true -> bounded prec emax m2 e2 = true ->
  match e1 ?= e2 with
  | Lt => Lt
  | Gt => Gt
  | Eq => Pos.compare_cont Eq m1 m2
  end = (Zpos m1 * 2 ^ (e1 + 1074) ?= Zpos m2 * 2 ^ (e2 + 1074)).
Proof.
  intros H1 H2. apply bounded_iff in H1, H2.
  destruct H1 as (Hm1 & He1 & Hn1). destruct H2 as (Hm2 & He2 & Hn2).
  assert (Hp1 : 0 < 2 ^ (e1 + 1074)) by (apply Z.pow_pos_nonneg; lia).
  assert (Hp2 : 0 < 2 ^ (e2 + 1074)) by (apply Z.pow_pos_nonneg; lia).
  destruct (Z.compare_spec e1 e2) as [Heq|Hlt|Hgt].
  - subst e2. rewrite <- Zmult_compare_compat_r by lia. reflexivity.
  - symmetry. apply Z.compare_lt_iff.
    replace (e2 + 1074) with ((e2 - e1) + (e1 + 1074)) by lia.
    rewrite (Z.pow_add_r 2 (e2 - e1) (e1 + 1074)) by lia.
    assert (2 ^ 1 <= 2 ^ (e2 - e1)) by (apply Z.pow_le_mono_r; lia).
    specialize (Hn2 ltac:(lia)).
    assert (2 ^ 52 * 2 ^ 1 <= Z.pos m2 * 2 ^ (e2 - e1))
      by (apply Z.mul_le_mono_nonneg; lia).
    rewrite Z.mul_assoc. apply Z.mul_lt_mono_pos_r; lia.
  - symmetry. apply Z.compare_gt_iff.
    replace (e1 + 1074) with ((e1 - e2) + (e2 + 1074)) by lia.
    rewrite (Z.pow_add_r 2 (e1 - e2) (e2 + 1074)) by lia.
    assert (2 ^ 1 <= 2 ^ (e1 - e2)) by (apply Z.pow_le_mono_r; lia).
    specialize (Hn1 ltac:(lia)).
    assert (2 ^ 52 * 2 ^ 1 <= Z.pos m1 * 2 ^ (e1 - e2))
      by (apply Z.mul_le_mono_nonneg; lia).
    rewrite Z.mul_assoc. apply Z.mul_lt_mono_pos_r; lia.
Qed.

Lemma SFcompare_scaled (x y : spec_float) :
  valid x = true -> valid y = true ->
  is_finite x = true -> is_finite y = true ->
  SFcompare x y = Some (scaled x ?= scaled y).
Proof.
  destruct x as [sx| | |sx mx ex], y as [sy| | |sy my ey]; try discriminate;
    cbn [valid valid_binary is_finite scaled SFcompare];
    intros Hx Hy _ _.
  - reflexivity.
  - apply bounded_iff in Hy. destruct Hy as (_ & He & _).
    assert (0 < 2 ^ (ey + 1074)) by (apply Z.pow_pos_nonneg; lia).
    destruct sy; cbn [cond_Zopp]; f_equal; symmetry;
      [apply Z.compare_gt_iff|apply Z.compare_lt_iff]; nia.
  - apply bounded_iff in Hx. destruct Hx as (_ & He & _).
    assert (0 < 2 ^ (ex + 1074)) by (apply Z.pow_pos_nonneg; lia).
    destruct sx; cbn [cond_Zopp]; f_equal; symmetry;
      [apply Z.compare_lt_iff|apply Z.compare_gt_iff]; nia.
  - pose proof (scaled_pos_compare mx my ex ey Hx Hy) as Hc.
    apply bounded_iff in Hx, Hy.
    destruct Hx as (_ & Hex & _). destruct Hy as (_ & Hey & _).
    assert (0 < 2 ^ (ex + 1074)) by (apply Z.pow_pos_nonneg; lia).
    assert (0 < 2 ^ (ey + 1074)) by (apply Z.pow_pos_nonneg; lia).
    destruct sx, sy; cbn [cond_Zopp]; f_equal.
    + rewrite Z.compare_opp.
      rewrite (Z.compare_antisym (Z.pos mx * 2 ^ (ex + 1074))), <- Hc.
      destruct (ex ?= ey); reflexivity.
    + symmetry. apply Z.compare_lt_iff. nia.
    + symmetry. apply Z.compare_gt_iff. nia.
    + exact Hc.
Qed.

Lemma SFleb_scaled (x y : spec_float) :
  valid x = true -> valid y = true ->
  is_finite x = true -> is_finite y = true ->
  SFleb x y = (scaled x <=? scaled y).
Proof.
  intros. unfold SFleb, Z.leb. rewrite SFcompare_scaled by assumption.
  destruct (scaled x ?= scaled y); reflexivity.
Qed.

Lemma SFltb_scaled (x y : spec_float) :
  valid x = true -> valid y = true ->
  is_finite x = true -> is_finite y = true ->
  SFltb x y = (scaled x <? scaled y).
Proof.
  intros. unfold SFltb, Z.ltb. rewrite SFcompare_scaled by assumption.
  destruct (scaled x ?= scaled y); reflexivity.
Qed.

(** ** Alignment of mantissas *)

Lemma iter_xO (m d : positive) :
  Zpos (Pos.iter xO m d) = Zpos m * 2 ^ Zpos d.
Proof.
  induction d as [|d IH] using Pos.peano_ind.
  - cbn. lia.
  - rewrite Pos.iter_succ, Pos2Z.inj_xO, IH, Pos2Z.inj_succ, Z.pow_succ_r by lia.
    lia.
Qed.

Lemma shl_align_spec (m : positive) (e e' : Z) :
  snd (shl_align m e e') = Z.min e e' /\
  Zpos (fst (shl_align m e e')) = Zpos m * 2 ^ (e - Z.min e e').
Proof.
  unfold shl_align. destruct (e' - e) as [|d|d] eqn:E; cbn [fst snd].
  - replace (Z.min e e') with e by lia. rewrite Z.sub_diag. split; lia.
  - replace (Z.min e e') with e by lia. rewrite Z.sub_diag. split; lia.
  - replace (Z.min e e') with e' by lia. split; [reflexivity|].
    rewrite iter_xO. f_equal. f_equal. lia.
Qed.

(** ** Rounding an integer mantissa, and rounded sums and differences *)

Lemma binary_round_cases (s : bool) (m : positive) (e : Z) :
  let E := fexp prec emax (Zdigits2 (Zpos m) + e) in
  exists m2,
    round_ok m2 E /\
    binary_round prec emax s m e = round_result s m2 E /\
    (E <= e -> m2 = Zpos m * 2 ^ (e - E)) /\
    (e <= E -> Zpos m / 2 ^ (E - e) <= m2 <= Zpos m / 2 ^ (E - e) + 1).
Proof.
  intros E. unfold binary_round.
  change (Z.pos (digits2_pos m)) with (Zdigits2 (Zpos m)). fold E.
  pose proof (shl_align_spec m e E) as [He Hm].
  destruct (shl_align m e E) as [mz ez]. cbn [fst snd] in *.
  assert (Hp : 0 < 2 ^ (e - ez)) by (apply Z.pow_pos_nonneg; lia).
  assert (Hd : Zdigits2 (Zpos mz) + ez = Zdigits2 (Zpos m) + e).
  { rewrite Hm, Zdigits2_mul_pow2 by lia. lia. }
  assert (Hn : ez <= fexp prec emax (Zdigits2 (Zpos mz) + ez)).
  { rewrite Hd. fold E. lia. }
  pose proof (binary_round_aux_cases s (Zpos mz) ez loc_Exact ltac:(lia) Hn) as Hr.
  pose proof (round_ok_of_aux (Zpos mz) ez loc_Exact ltac:(lia) Hn) as Hok.
  rewrite Hd in Hr, Hok. fold E in Hr, Hok.
  eexists. split; [exact Hok|]. split; [exact Hr|]. split.
  - intros HE. assert (Hez : ez = E) by lia.
    unfold shr_fexp. rewrite Hd. fold E. rewrite Hez, Z.sub_diag.
    cbn [shr fst shr_record_of_loc loc_of_shr_record round_nearest_even].
    rewrite Z.div_1_r. rewrite Hm. replace (Z.min e E) with E by lia.
    reflexivity.
  - intros HE. assert (Hez : ez = e) by lia.
    replace (Z.min e E) with e in Hm by lia.
    rewrite Z.sub_diag, Z.mul_1_r in Hm. rewrite Hm, Hez.
    destruct (round_nearest_even_cases (Z.pos m / 2 ^ (E - e))
                (loc_of_shr_record (fst (shr_fexp prec emax (Z.pos m) e loc_Exact))))
      as [H|H]; rewrite H; lia.
Qed.

Lemma binary_round_scaled (s : bool) (m : positive) (e : Z) :
  -1074 <= e ->
  let V := Zpos m * 2 ^ (e + 1074) in
  let sh := Z.max (Zdigits2 V - 53) 0 in
  exists m2,
    round_ok m2 (sh - 1074) /\
    V / 2 ^ sh <= m2 <= V / 2 ^ sh + 1 /\
    binary_round prec emax s m e = round_result s m2 (sh - 1074).
Proof.
  intros He V sh.
  destruct (binary_round_cases s m e) as (m2 & Hok & Hr & Hex & Hin).
  assert (HV : Zdigits2 V = Zdigits2 (Zpos m) + (e + 1074)).
  { subst V. apply Zdigits2_mul_pow2; lia. }
  assert (HE : fexp prec emax (Zdigits2 (Zpos m) + e) = sh - 1074).
  { rewrite fexp_eq. subst sh. lia. }
  rewrite HE in *.
  exists m2. split; [exact Hok|]. split; [|exact Hr].
  assert (Hsh : 0 <= sh) by (subst sh; lia).
  destruct (Z_le_gt_dec (sh - 1074) e) as [Hle|Hgt].
  - rewrite (Hex Hle).
    assert (HVe : V = Z.pos m * 2 ^ (e - (sh - 1074)) * 2 ^ sh).
    { subst V. rewrite <- Z.mul_assoc, <- Z.pow_add_r by lia.
      f_equal. f_equal. lia. }
    rewrite HVe, Z.div_mul by (apply Z.pow_nonzero; lia). lia.
  - assert (HVe : V / 2 ^ sh = Z.pos m / 2 ^ (sh - 1074 - e)).
    { subst V. replace sh with ((sh - 1074 - e) + (e + 1074)) at 1 by lia.
      rewrite (Z.pow_add_r 2 (sh - 1074 - e)) by lia.
      apply Z.div_mul_cancel_r; apply Z.pow_nonzero; lia. }
    rewrite HVe. apply Hin. lia.
Qed.

Lemma binary_normalize_rounding (z e : Z) :
  -1074 <= e ->
  rounding_of (z * 2 ^ (e + 1074)) (binary_normalize prec emax z e false).
Proof.
  intros He. unfold rounding_of.
  assert (Hp : 0 < 2 ^ (e + 1074)) by (apply Z.pow_pos_nonneg; lia).
  destruct z as [|p|p]; cbn [binary_normalize].
  - reflexivity.
  - destruct (Z.eqb_spec (Z.pos p * 2 ^ (e + 1074)) 0); [lia|].
    rewrite Z.abs_eq by lia.
    destruct (Z.ltb_spec (Z.pos p * 2 ^ (e + 1074)) 0); [lia|].
    apply binary_round_scaled. assumption.
  - destruct (Z.eqb_spec (Z.neg p * 2 ^ (e + 1074)) 0); [lia|].
    replace (Z.abs (Z.neg p * 2 ^ (e + 1074))) with (Z.pos p * 2 ^ (e + 1074))
      by lia.
    destruct (Z.ltb_spec (Z.neg p * 2 ^ (e + 1074)) 0); [|lia].
    apply binary_round_scaled. assumption.
Qed.

Lemma aligned_scaled (s : bool) (m : positive) (e ez : Z) :
  -1074 <= ez -> ez <= e ->
  cond_Zopp s (Zpos (fst (shl_align m e ez))) * 2 ^ (ez + 1074)
    = scaled (S754_finite s m e).
Proof.
  intros H1 H2. pose proof (shl_align_spec m e ez) as [_ Hm].
  rewrite Hm. replace (Z.min e ez) with ez by lia.
  cbn [scaled].
  replace (e + 1074) with ((e - ez) + (ez + 1074)) by lia.
  rewrite (Z.pow_add_r 2 (e - ez)) by lia.
  destruct s; cbn [cond_Zopp]; lia.
Qed.

Lemma SFsub_finite_rounding (sx sy : bool) (mx my : positive) (ex ey : Z) :
  -1074 <= ex -> -1074 <= ey ->
  rounding_of
    (scaled (S754_finite sx mx ex) - scaled (S754_finite sy my ey))
    (SFsub prec emax (S754_finite sx mx ex) (S754_finite sy my ey)).
Proof.
  intros Hx Hy. cbn [SFsub].
  rewrite <- (aligned_scaled sx mx ex (Z.min ex ey)) by lia.
  rewrite <- (aligned_scaled sy my ey (Z.min ex ey)) by lia.
  rewrite <- Z.mul_sub_distr_r.
  apply binary_normalize_rounding. lia.
Qed.

Lemma SFadd_finite_rounding (sx sy : bool) (mx my : positive) (ex ey : Z) :
  -1074 <= ex -> -1074 <= ey ->
  rounding_of
    (scaled (S754_finite sx mx ex) + scaled (S754_finite sy my ey))
    (SFadd prec emax (S754_finite sx mx ex) (S754_finite sy my ey)).
Proof.
  intros Hx Hy. cbn [SFadd].
  rewrite <- (aligned_scaled sx mx ex (Z.min ex ey)) by lia.
  rewrite <- (aligned_scaled sy my ey (Z.min ex ey)) by lia.
  rewrite <- Z.mul_add_distr_r.
  apply binary_normalize_rounding. lia.
Qed.

(** ** What a rounding keeps: validity, sign, and an upper bound *)

Lemma round_result_shape (s : bool) (m2 E : Z) :
  match round_result s m2 E with
  | S754_zero s' => s' = s /\ m2 = 0
  | S754_infinity s' => s' = s /\ m2 <> 0
  | S754_finite s' _ _ => s' = s /\ m2 <> 0
  | S754_nan => False
  end.
Proof.
  unfold round_result.
  destruct (Z.eqb_spec m2 0); [auto|].
  destruct (m2 =? 2 ^ 53).
  - destruct (E + 1 <=? emax - prec); auto.
  - destruct (E <=? emax - prec); auto.
Qed.

Lemma rounding_first_digits (V : Z) :
  0 < V -> 1 <= V / 2 ^ Z.max (Zdigits2 V - 53) 0.
Proof.
  intros HV. pose proof (Zdigits2_bounds V HV) as [Hl Hu].
  pose proof (Zdigits2_pos V HV) as Hd.
  set (sh := Z.max (Zdigits2 V - 53) 0).
  assert (0 < 2 ^ sh) by (apply Z.pow_pos_nonneg; lia).
  apply Z.div_le_lower_bound; [assumption|]. rewrite Z.mul_1_r.
  assert (2 ^ sh <= 2 ^ (Zdigits2 V - 1)) by (apply Z.pow_le_mono_r; lia).
  lia.
Qed.

Lemma rounding_of_valid (W : Z) (r : spec_float) :
  rounding_of W r -> valid r = true.
Proof.
  unfold rounding_of. destruct (W =? 0).
  - intros ->. reflexivity.
  - intros (m2 & Hok & _ & ->). apply round_result_valid. assumption.
Qed.

Lemma rounding_of_pos (W : Z) (r : spec_float) :
  0 < W -> rounding_of W r -> is_pos r = true.
Proof.
  intros HW. unfold rounding_of.
  destruct (Z.eqb_spec W 0); [lia|].
  destruct (Z.ltb_spec W 0); [lia|].
  rewrite Z.abs_eq by lia.
  intros (m2 & Hok & Hm & ->).
  pose proof (rounding_first_digits W HW).
  pose proof (round_result_shape false m2 (Z.max (Zdigits2 W - 53) 0 - 1074)) as Hs.
  destruct (round_result false m2 _); cbn; try tauto; destruct Hs; subst; try reflexivity; lia.
Qed.

Lemma rounding_of_neg (W : Z) (r : spec_float) :
  W < 0 -> rounding_of W r -> nonneg r = false.
Proof.
  intros HW. unfold rounding_of.
  destruct (Z.eqb_spec W 0); [lia|].
  destruct (Z.ltb_spec W 0); [|lia].
  intros (m2 & Hok & Hm & ->).
  pose proof (rounding_first_digits (Z.abs W) ltac:(lia)).
  pose proof (round_result_shape true m2
                (Z.max (Zdigits2 (Z.abs W) - 53) 0 - 1074)) as Hs.
  destruct (round_result true m2 _); cbn; try tauto; destruct Hs; subst; try reflexivity; lia.
Qed.

Lemma rounding_of_below (W : Z) (r : spec_float) (mq : positive) (eq : Z) :
  0 < W < Zpos mq * 2 ^ (eq + 1074) ->
  bounded prec emax mq eq = true ->
  rounding_of W r ->
  is_finite r = true /\ 0 < scaled r <= Zpos mq * 2 ^ (eq + 1074).
Proof.
  intros [HW HQ] Hb. apply bounded_iff in Hb. destruct Hb as (Hmq & Heq & _).
  unfold rounding_of.
  destruct (Z.eqb_spec W 0); [lia|].
  destruct (Z.ltb_spec W 0); [lia|].
  rewrite Z.abs_eq by lia.
  set (Q := Z.pos mq * 2 ^ (eq + 1074)) in *.
  set (sh := Z.max (Zdigits2 W - 53) 0).
  intros (m2 & Hok & Hm & ->).
  pose proof (rounding_first_digits W HW) as H1. fold sh in H1.
  assert (Hsh : 0 <= sh) by (subst sh; lia).
  assert (Hp : 0 < 2 ^ sh) by (apply Z.pow_pos_nonneg; lia).
  (* Q is a multiple of 2^sh *)
  assert (HdQ : Zdigits2 Q = Zdigits2 (Zpos mq) + (eq + 1074)).
  { subst Q. apply Zdigits2_mul_pow2; lia. }
  assert (HdW : Zdigits2 W <= Zdigits2 Q).
  { pose proof (Zdigits2_pos Q ltac:(lia)).
    pose proof (Zdigits2_bounds Q ltac:(lia)) as [_ Hu].
    apply Zdigits2_le; lia. }
  assert (Hdm : Zdigits2 (Zpos mq) <= 53) by (apply Zdigits2_le; lia).
  assert (Hle : sh <= eq + 1074) by (subst sh; lia).
  assert (HQk : Q = (Zpos mq * 2 ^ (eq + 1074 - sh)) * 2 ^ sh).
  { subst Q. rewrite <- Z.mul_assoc, <- Z.pow_add_r by lia.
    f_equal. f_equal. lia. }
  set (k := Zpos mq * 2 ^ (eq + 1074 - sh)) in *.
  assert (Hlt : W / 2 ^ sh < k).
  { apply Z.div_lt_upper_bound; [assumption|]. lia. }
  assert (Hb : m2 * 2 ^ sh <= Q) by nia.
  assert (HQb : Q < 2 ^ 2098).
  { subst Q. change (2 ^ 2098) with (2 ^ 53 * 2 ^ 2045).
    assert (2 ^ (eq + 1074) <= 2 ^ 2045) by (apply Z.pow_le_mono_r; lia).
    assert (0 < 2 ^ (eq + 1074)) by (apply Z.pow_pos_nonneg; lia).
    nia. }
  pose proof (round_result_scaled false m2 (sh - 1074) Hok) as Hs.
  replace (sh - 1074 + 1074) with sh in Hs by lia.
  destruct (Z.ltb_spec (m2 * 2 ^ sh) (2 ^ 2098)); [|lia].
  destruct Hs as [Hf Hs]. split; [exact Hf|]. rewrite Hs. cbn [cond_Zopp].
  nia.
Qed.

(** ** The sign of a result, whatever the operands *)

Lemma binary_round_aux_sign (s : bool) (m e : Z) (l : location) :
  sign_is s (binary_round_aux prec emax s m e l).
Proof.
  unfold binary_round_aux.
  destruct (shr_fexp prec emax m e l) as [r1 e1].
  destruct (shr_fexp prec emax _ e1 loc_Exact) as [r2 e2].
  destruct (shr_m r2); [reflexivity| |exact I].
  destruct (e2 <=? emax - prec); reflexivity.
Qed.

Lemma binary_round_sign (s : bool) (m : positive) (e : Z) :
  sign_is s (binary_round prec emax s m e).
Proof.
  unfold binary_round. destruct (shl_align m e _) as [mz ez].
  apply binary_round_aux_sign.
Qed.

Lemma sign_is_nonneg (r : spec_float) : sign_is false r -> nonneg r = true.
Proof. destruct r; cbn; intros; subst; reflexivity. Qed.

Lemma is_pos_sign (s : bool) (r : spec_float) :
  sign_is s r -> is_pos r = true -> s = false.
Proof. destruct r as [| s' | | s' m e]; cbn; try discriminate; intros <-; destruct s'; auto; discriminate. Qed.

Lemma is_pos_nonneg (r : spec_float) : is_pos r = true -> nonneg r = true.
Proof. destruct r; cbn; auto. Qed.

(** ** Valid data are closed under the operations *)

Lemma binary_round_valid (s : bool) (m : positive) (e : Z) :
  valid (binary_round prec emax s m e) = true.
Proof.
  destruct (binary_round_cases s m e) as (m2 & Hok & -> & _).
  apply round_result_valid. assumption.
Qed.

Lemma binary_normalize_valid (z e : Z) (s : bool) :
  valid (binary_normalize prec emax z e s) = true.
Proof. destruct z; cbn [binary_normalize]; [reflexivity|apply binary_round_valid..]. Qed.

Lemma SFadd_valid (x y : spec_float) :
  valid x = true -> valid y = true -> valid (SFadd prec emax x y) = true.
Proof.
  intros Hx Hy.
  destruct x as [sx|sx| |sx mx ex], y as [sy|sy| |sy my ey]; cbn [SFadd];
    try reflexivity; try assumption.
  - destruct sx, sy; reflexivity.
  - destruct sx, sy; reflexivity.
  - apply binary_normalize_valid.
Qed.

Lemma SFsub_valid (x y : spec_float) :
  valid x = true -> valid y = true -> valid (SFsub prec emax x y) = true.
Proof.
  intros Hx Hy.
  destruct x as [sx|sx| |sx mx ex], y as [sy|sy| |sy my ey]; cbn [SFsub];
    try reflexivity; try assumption.
  - destruct sx, sy; reflexivity.
  - destruct sx, sy; reflexivity.
  - apply binary_normalize_valid.
Qed.

Lemma binary_round_aux_valid (s : bool) (m e : Z) (l : location) :
  0 <= m -> e <= fexp prec emax (Zdigits2 m + e) ->
  valid (binary_round_aux prec emax s m e l) = true.
Proof.
  intros Hm Hn. rewrite binary_round_aux_cases by assumption.
  apply round_result_valid, round_ok_of_aux; assumption.
Qed.

Lemma valid_finite_bounds (s : bool) (m : positive) (e : Z) :
  valid (S754_finite s m e) = true ->
  Zpos m < 2 ^ 53 /\ -1074 <= e <= 971 /\ (-1074 < e -> 2 ^ 52 <= Zpos m).
Proof. intros H. apply bounded_iff. exact H. Qed.

Lemma SFmul_valid (x y : spec_float) :
  valid x = true -> valid y = true -> valid (SFmul prec emax x y) = true.
Proof.
  intros Hx Hy.
  destruct x as [sx|sx| |sx mx ex], y as [sy|sy| |sy my ey]; cbn [SFmul];
    try reflexivity.
  apply valid_finite_bounds in Hx, Hy.
  destruct Hx as (Hmx & Hex & Hnx). destruct Hy as (Hmy & Hey & Hny).
  apply binary_round_aux_valid; [lia|].
  rewrite fexp_eq. rewrite Pos2Z.inj_mul.
  assert (Hcases : ex + ey <= -1074 \/
                   53 <= Zdigits2 (Z.pos mx * Z.pos my)).
  { destruct (Z_le_gt_dec (ex + ey) (-1074)) as [|Hgt]; [left; assumption|right].
    apply Zdigits2_ge; [|lia]. change (53 - 1) with 52.
    assert (-1074 < ex \/ -1074 < ey) as [H|H] by lia.
    - specialize (Hnx H). nia.
    - specialize (Hny H). nia. }
  lia.
Qed.

Lemma div_eucl_div_mod (a b : Z) : Z.div_eucl a b = (a / b, a mod b).
Proof. unfold Z.div, Z.modulo. destruct (Z.div_eucl a b). reflexivity. Qed.

Lemma SFdiv_core_eq (m1 m2 : positive) (e1 e2 : Z) :
  let e' := Z.min (fexp prec emax (Zdigits2 (Zpos m1) + e1
                                   - (Zdigits2 (Zpos m2) + e2))) (e1 - e2) in
  let m' := Zpos m1 * 2 ^ (e1 - e2 - e') in
  SFdiv_core_binary prec emax (Zpos m1) e1 (Zpos m2) e2 =
  (m' / Zpos m2, e', new_location (Zpos m2) (m' mod Zpos m2)).
Proof.
  intros e' m'. unfold SFdiv_core_binary. fold e'.
  assert (Hs : 0 <= e1 - e2 - e') by (subst e'; lia).
  replace (match e1 - e2 - e' with
           | 0 => Z.pos m1
           | Z.pos _ => Z.shiftl (Z.pos m1) (e1 - e2 - e')
           | Z.neg _ => 0
           end) with m'.
  - rewrite div_eucl_div_mod. reflexivity.
  - subst m'. destruct (e1 - e2 - e') as [|p|p] eqn:E.
    + cbn. lia.
    + rewrite Z.shiftl_mul_pow2 by lia. reflexivity.
    + lia.
Qed.

Lemma SFdiv_core_bounds (m1 m2 : positive) (e1 e2 : Z) :
  let e' := Z.min (fexp prec emax (Zdigits2 (Zpos m1) + e1
                                   - (Zdigits2 (Zpos m2) + e2))) (e1 - e2) in
  let q := Zpos m1 * 2 ^ (e1 - e2 - e') / Zpos m2 in
  0 <= q /\ e' <= fexp prec emax (Zdigits2 q + e').
Proof.
  intros e' q.
  set (d1 := Zdigits2 (Zpos m1)) in *. set (d2 := Zdigits2 (Zpos m2)) in *.
  set (s := e1 - e2 - e') in *.
  assert (Hs : 0 <= s) by (subst s e'; lia).
  assert (Hp : 0 < 2 ^ s) by (apply Z.pow_pos_nonneg; lia).
  assert (Hq : 0 <= q) by (apply Z.div_pos; lia).
  split; [assumption|].
  rewrite fexp_eq.
  destruct (Z_le_gt_dec e' (-1074)) as [|Hgt]; [lia|].
  assert (He' : e' <= d1 + e1 - (d2 + e2) - 53).
  { subst e'. rewrite fexp_eq in *. lia. }
  pose proof (Zdigits2_bounds (Zpos m1) ltac:(lia)) as [Hl1 _]. fold d1 in Hl1.
  pose proof (Zdigits2_bounds (Zpos m2) ltac:(lia)) as [_ Hu2]. fold d2 in Hu2.
  pose proof (Zdigits2_pos (Zpos m1) ltac:(lia)). fold d1 in H.
  pose proof (Zdigits2_pos (Zpos m2) ltac:(lia)). fold d2 in H0.
  assert (Hk : 53 <= d1 + s - d2) by (subst s; lia).
  assert (Hdq : d1 + s - d2 <= Zdigits2 q).
  { apply Zdigits2_ge; [|lia]. subst q.
    apply Z.div_le_lower_bound; [lia|].
    assert (Z.pos m2 * 2 ^ (d1 + s - d2 - 1) <= 2 ^ d2 * 2 ^ (d1 + s - d2 - 1))
      by (apply Z.mul_le_mono_nonneg_r; [apply Z.pow_nonneg|]; lia).
    rewrite <- Z.pow_add_r in H1 by lia.
    replace (d2 + (d1 + s - d2 - 1)) with ((d1 - 1) + s) in H1 by lia.
    rewrite Z.pow_add_r in H1 by lia.
    assert (2 ^ (d1 - 1) * 2 ^ s <= Z.pos m1 * 2 ^ s)
      by (apply Z.mul_le_mono_nonneg_r; lia).
    lia. }
  subst s. lia.
Qed.

Lemma SFdiv_valid (x y : spec_float) : valid (SFdiv prec emax x y) = true.
Proof.
  destruct x as [sx|sx| |sx mx ex], y as [sy|sy| |sy my ey]; cbn [SFdiv];
    try reflexivity.
  rewrite SFdiv_core_eq.
  pose proof (SFdiv_core_bounds mx my ex ey) as [Hq Hn].
  apply binary_round_aux_valid; assumption.
Qed.

(** ** Subtraction after a comparison

    [x - y] after [x <= y] failed is strictly positive (or NaN); [q - a]
    after [a <= q] held is a size again and not above [q]. *)

Lemma is_pos_not_le_zero (r : spec_float) :
  is_pos r = true -> SFleb r (S754_zero false) = false.
Proof. destruct r as [| [] | | [] m e]; cbn; auto; discriminate. Qed.

Lemma not_le_zero_nonneg (r : spec_float) :
  SFleb r (S754_zero false) = false -> nonneg r = true.
Proof. destruct r as [| [] | | [] m e]; cbn; auto; discriminate. Qed.

Lemma SFleb_refl_finite (x : spec_float) :
  valid x = true -> is_finite x = true -> SFleb x x = true.
Proof.
  intros Hv Hf. rewrite SFleb_scaled by assumption. apply Z.leb_refl.
Qed.

Lemma SFsub_pos (x y : spec_float) :
  valid x = true -> valid y = true ->
  SFleb x y = false ->
  SFleb (SFsub prec emax x y) (S754_zero false) = false.
Proof.
  intros Hx Hy Hle.
  destruct x as [sx|sx| |sx mx ex], y as [sy|sy| |sy my ey];
    try reflexivity; try discriminate;
    try (destruct sx, sy; try reflexivity; discriminate);
    try (destruct sx; try reflexivity; discriminate);
    try (destruct sy; try reflexivity; discriminate).
  apply is_pos_not_le_zero.
  apply (rounding_of_pos
           (scaled (S754_finite sx mx ex) - scaled (S754_finite sy my ey))).
  - rewrite SFleb_scaled in Hle by (assumption || reflexivity).
    apply Z.leb_gt in Hle. lia.
  - apply valid_finite_bounds in Hx, Hy.
    apply SFsub_finite_rounding; lia.
Qed.

Lemma SFsub_le_self (q a : spec_float) :
  valid q = true -> is_finite q = true -> nonneg q = true ->
  valid a = true -> nonneg a = true ->
  SFleb a q = true ->
  SFleb (SFsub prec emax q a) q = true.
Proof.
  intros Hq Hfq Hnq Ha Hna Hle.
  destruct a as [sa|sa| |sa ma ea]; try discriminate.
  - (* a is a zero *)
    destruct q as [sq|sq| |sq mq eq]; try discriminate.
    + destruct sq, sa; reflexivity.
    + cbn [SFsub]. apply SFleb_refl_finite; assumption.
  - (* a is an infinity *)
    destruct q as [sq|sq| |sq mq eq]; try discriminate;
      destruct sa; discriminate.
  - (* a is finite *)
    destruct sa; [discriminate|].
    destruct q as [sq|sq| |sq mq eq]; try discriminate.
    destruct sq; [discriminate|].
    pose proof Hle as Hle'.
    rewrite SFleb_scaled in Hle' by (assumption || reflexivity).
    apply Z.leb_le in Hle'.
    pose proof (valid_finite_bounds _ _ _ Hq) as (Hmq & Heq & _).
    pose proof (valid_finite_bounds _ _ _ Ha) as (Hma & Hea & _).
    pose proof (SFsub_finite_rounding false false mq ma eq ea
                  ltac:(lia) ltac:(lia)) as Hr.
    remember (SFsub prec emax (S754_finite false mq eq)
                (S754_finite false ma ea)) as r eqn:Er.
    clear Er. cbn [scaled cond_Zopp] in Hr, Hle'.
    assert (0 < Z.pos ma * 2 ^ (ea + 1074)).
    { assert (0 < 2 ^ (ea + 1074)) by (apply Z.pow_pos_nonneg; lia). lia. }
    set (W := Z.pos mq * 2 ^ (eq + 1074) - Z.pos ma * 2 ^ (ea + 1074)) in *.
    assert (W = 0 \/ 0 < W) as [H0|Hpos] by lia.
    + unfold rounding_of in Hr. rewrite H0 in Hr. cbn in Hr. rewrite Hr.
      reflexivity.
    + destruct (rounding_of_below W r mq eq) as [Hf Hs];
        [lia|exact Hq|exact Hr|].
      rewrite SFleb_scaled;
        [|apply (rounding_of_valid W); assumption|assumption..].
      apply Z.leb_le. cbn [scaled cond_Zopp]. lia.
Qed.

Lemma is_pos_le (x y : spec_float) :
  is_pos x = true -> SFleb x y = true -> is_pos y = true.
Proof.
  destruct x as [sx|[]| |[] mx ex], y as [sy|[]| |[] my ey]; cbn; auto;
    discriminate.
Qed.

Lemma not_le_zero_is_pos (x y : spec_float) :
  SFleb x (S754_zero false) = false -> SFleb x y = true -> is_pos x = true.
Proof.
  destruct x as [sx|[]| |[] mx ex]; cbn; auto; try discriminate.
Qed.

Lemma SFmul_sign (x y : spec_float) :
  is_pos (SFmul prec emax x y) = true -> nonneg y = true ->
  is_finite y = true -> is_pos x = true.
Proof.
  destruct x as [sx|sx| |sx mx ex], y as [sy|sy| |sy my ey]; cbn [SFmul];
    try discriminate; cbn [nonneg is_finite is_pos].
  - destruct sx, sy; cbn; auto.
  - intros Hp Hn _. destruct sy; [discriminate|].
    apply (is_pos_sign _ _ (binary_round_aux_sign _ _ _ _)) in Hp.
    destruct sx; [discriminate|reflexivity].
Qed.

Lemma SFdiv_nonneg (x y : spec_float) :
  is_pos x = true -> is_pos y = true -> nonneg (SFdiv prec emax x y) = true.
Proof.
  destruct x as [sx|[]| |[] mx ex], y as [sy|[]| |[] my ey]; cbn [SFdiv];
    try discriminate; try reflexivity.
  intros _ _. destruct (SFdiv_core_binary _ _ _ _ _ _) as [[mz ez] lz].
  apply sign_is_nonneg, binary_round_aux_sign.
Qed.

Lemma SFadd_nonneg (x y : spec_float) :
  nonneg x = true -> nonneg y = true -> nonneg (SFadd prec emax x y) = true.
Proof.
  destruct x as [sx|[]| |[] mx ex], y as [sy|[]| |[] my ey]; cbn [SFadd];
    try discriminate; try reflexivity; intros _ _.
  - destruct sx, sy; reflexivity.
  - cbn [cond_Zopp].
    destruct (shl_align mx ex _) as [ax ?], (shl_align my ey _) as [ay ?].
    cbn [fst binary_normalize Z.add].
    apply sign_is_nonneg, binary_round_sign.
Qed.

Lemma SFsub_size (q a : spec_float) :
  valid q = true -> is_finite q = true -> nonneg q = true ->
  valid a = true -> nonneg a = true ->
  SFleb a q = true ->
  is_finite (SFsub prec emax q a) = true /\
  nonneg (SFsub prec emax q a) = true.
Proof.
  intros Hq Hfq Hnq Ha Hna Hle.
  destruct a as [sa|sa| |sa ma ea]; try discriminate.
  - destruct q as [sq|sq| |sq mq eq]; try discriminate.
    + destruct sq, sa; split; reflexivity.
    + cbn [SFsub]. split; assumption.
  - destruct q as [sq|sq| |sq mq eq]; try discriminate;
      destruct sa; discriminate.
  - destruct sa; [discriminate|].
    destruct q as [sq|sq| |sq mq eq]; try discriminate.
    destruct sq; [discriminate|].
    pose proof Hle as Hle'.
    rewrite SFleb_scaled in Hle' by (assumption || reflexivity).
    apply Z.leb_le in Hle'.
    pose proof (valid_finite_bounds _ _ _ Hq) as (Hmq & Heq & _).
    pose proof (valid_finite_bounds _ _ _ Ha) as (Hma & Hea & _).
    pose proof (SFsub_finite_rounding false false mq ma eq ea
                  ltac:(lia) ltac:(lia)) as Hr.
    remember (SFsub prec emax (S754_finite false mq eq)
                (S754_finite false ma ea)) as r eqn:Er.
    clear Er. cbn [scaled cond_Zopp] in Hr, Hle'.
    assert (0 < Z.pos ma * 2 ^ (ea + 1074)).
    { assert (0 < 2 ^ (ea + 1074)) by (apply Z.pow_pos_nonneg; lia). lia. }
    set (W := Z.pos mq * 2 ^ (eq + 1074) - Z.pos ma * 2 ^ (ea + 1074)) in *.
    assert (W = 0 \/ 0 < W) as [H0|Hpos] by lia.
    + unfold rounding_of in Hr. rewrite H0 in Hr. cbn in Hr. rewrite Hr.
      split; reflexivity.
    + destruct (rounding_of_below W r mq eq) as [Hf Hs];
        [lia|exact Hq|exact Hr|].
      split; [exact Hf|].
      apply is_pos_nonneg, (rounding_of_pos W); assumption.
Qed.

Lemma zero_le_size (q : spec_float) :
  is_finite q = true -> nonneg q = true -> SFleb (S754_zero false) q = true.
Proof. destruct q as [| | |[] m e]; cbn; auto; discriminate. Qed.

(** ** Division of normal numbers

    The quotient of two 53-digit mantissas has 53 or 54 digits, so at most
    one digit is shifted out; the rounded mantissa exceeds the truncated one
    only when the discarded part is at least one half. *)

Lemma loc_of_record_of_loc (m : Z) (l : location) :
  loc_of_shr_record (shr_record_of_loc m l) = l.
Proof. destruct l as [|[]]; reflexivity. Qed.

Lemma new_location_round_up (d r q : Z) :
  0 < d -> 0 <= r < d ->
  round_nearest_even q (new_location d r) = q + 1 -> d <= 2 * r.
Proof.
  intros Hd Hr. unfold new_location, new_location_even, new_location_odd.
  destruct (Z.even d) eqn:Ev.
  - destruct (Z.eqb_spec r 0); cbn [round_nearest_even]; [lia|].
    destruct (Z.compare_spec (2 * r) d); cbn [round_nearest_even]; try lia.
  - destruct (Z.eqb_spec r 0); cbn [round_nearest_even]; [lia|].
    destruct (Z.compare_spec (2 * r + 1) d); cbn [round_nearest_even]; try lia.
Qed.

Lemma shr_1_round_up (q : Z) (l : location) :
  0 < q ->
  round_nearest_even (q / 2)
    (loc_of_shr_record (shr_1 (shr_record_of_loc q l))) = q / 2 + 1 ->
  q = 2 * (q / 2) + 1.
Proof.
  intros Hq.
  destruct q as [|p|p]; try lia.
  destruct p as [p|p|].
  - intros _. rewrite Pos2Z.inj_xI.
    replace ((2 * Z.pos p + 1) / 2) with (Z.pos p); [lia|].
    apply Z.div_unique with (r := 1); lia.
  - destruct l as [|[]]; cbn [shr_record_of_loc shr_1 loc_of_shr_record orb
                               round_nearest_even]; lia.
  - destruct l as [|[]]; cbn; lia.
Qed.

Lemma Zdigits2_normal (m : Z) : 2 ^ 52 <= m < 2 ^ 53 -> Zdigits2 m = 53.
Proof. intros H. apply Zdigits2_unique; [exact H|lia]. Qed.

Lemma SFdiv_normal (mx my : positive) (ex ey : Z) :
  2 ^ 52 <= Zpos mx < 2 ^ 53 -> 2 ^ 52 <= Zpos my < 2 ^ 53 ->
  -1021 <= ex - ey ->
  exists n m1 m2,
    (n = 0 \/ n = 1) /\
    2 ^ 52 <= m1 < 2 ^ 53 /\
    (m2 = m1 \/ m2 = m1 + 1) /\
    m1 * (2 ^ n * Zpos my) <= Zpos mx * 2 ^ 53 < (m1 + 1) * (2 ^ n * Zpos my) /\
    (m2 = m1 + 1 -> (2 * m1 + 1) * (2 ^ n * Zpos my) <= 2 * (Zpos mx * 2 ^ 53)) /\
    SFdiv prec emax (S754_finite false mx ex) (S754_finite false my ey)
      = round_result false m2 (ex - ey - 53 + n).
Proof.
  intros Hx Hy He.
  cbn [SFdiv xorb]. rewrite SFdiv_core_eq.
  pose proof (SFdiv_core_bounds mx my ex ey) as [Hq0 Hpre].
  rewrite (Zdigits2_normal (Zpos mx) Hx), (Zdigits2_normal (Zpos my) Hy) in *.
  replace (Z.min (fexp prec emax (53 + ex - (53 + ey))) (ex - ey))
    with (ex - ey - 53) in * by (rewrite fexp_eq; lia).
  replace (ex - ey - (ex - ey - 53)) with 53 in * by lia.
  set (m' := Zpos mx * 2 ^ 53) in *.
  set (q := m' / Zpos my) in *. set (r := m' mod Zpos my).
  set (e' := ex - ey - 53) in *.
  pose proof (Z.div_mod m' (Zpos my) ltac:(lia)) as Hdm.
  pose proof (Z.mod_pos_bound m' (Zpos my) ltac:(lia)) as Hr.
  fold q in Hdm. fold r in Hdm, Hr.
  assert (Hql : 2 ^ 52 <= q).
  { subst q. apply Z.div_le_lower_bound; [lia|]. subst m'. nia. }
  assert (Hqu : q < 2 ^ 54).
  { subst q. apply Z.div_lt_upper_bound; [lia|]. subst m'. nia. }
  rewrite binary_round_aux_cases by assumption.
  destruct (Z_lt_ge_dec q (2 ^ 53)) as [Hlt|Hge].
  - (* no shift *)
    assert (Hd : Zdigits2 q = 53) by (apply Zdigits2_normal; lia).
    assert (HE : fexp prec emax (Zdigits2 q + e') = e')
      by (rewrite Hd, fexp_eq; subst e'; lia).
    exists 0, q, (round_nearest_even q (new_location (Zpos my) r)).
    split; [auto|]. split; [lia|].
    split; [apply round_nearest_even_cases|].
    split; [change (2 ^ 0) with 1; nia|].
    split.
    + intros Hup. apply new_location_round_up in Hup; [|lia|lia].
      change (2 ^ 0) with 1. nia.
    + unfold shr_fexp. rewrite HE, Z.sub_diag.
      cbn [shr fst]. rewrite loc_of_record_of_loc, Z.div_1_r.
      f_equal; lia.
  - (* one bit is shifted out *)
    assert (Hd : Zdigits2 q = 54) by (apply Zdigits2_unique; lia).
    assert (HE : fexp prec emax (Zdigits2 q + e') = e' + 1)
      by (rewrite Hd, fexp_eq; subst e'; lia).
    pose proof (Z.div_mod q 2 ltac:(lia)) as Hq2.
    pose proof (Z.mod_pos_bound q 2 ltac:(lia)) as Hq2r.
    exists 1, (q / 2),
      (round_nearest_even (q / 2)
         (loc_of_shr_record
            (shr_1 (shr_record_of_loc q (new_location (Zpos my) r))))).
    split; [auto|]. split; [lia|].
    split; [apply round_nearest_even_cases|].
    split; [change (2 ^ 1) with 2; nia|].
    split.
    + intros Hup. apply shr_1_round_up in Hup; [|lia].
      change (2 ^ 1) with 2. nia.
    + unfold shr_fexp. rewrite HE.
      replace (e' + 1 - e') with 1 by lia.
      cbn [shr fst iter_pos]. change (2 ^ 1) with 2.
      f_equal; lia.
Qed.

Lemma floor_of_rounded_quotient (K Y P m1 m2 : Z) :
  0 < Y -> 0 < P -> 0 <= K < 2 ^ 53 -> 2 ^ 52 <= m1 ->
  (m2 = m1 \/ m2 = m1 + 1) ->
  m1 * Y <= K * P < (m1 + 1) * Y ->
  (m2 = m1 + 1 -> (2 * m1 + 1) * Y <= 2 * (K * P)) ->
  m2 / P = K / Y.
Proof.
  intros HY HP HK Hm1 Hm2 [Hlo Hhi] Hup.
  pose proof (Z.div_mod K Y ltac:(lia)) as Hdm.
  pose proof (Z.mod_pos_bound K Y HY) as Hr.
  set (N := K / Y) in *. set (r := K mod Y) in *.
  assert (HN : 0 <= N) by (apply Z.div_pos; lia).
  (* N * P <= m1 *)
  assert (Hlow : N * P <= m1).
  { assert (N * P * Y <= K * P) by nia.
    assert (N * P * Y < (m1 + 1) * Y) by lia.
    assert (N * P < m1 + 1) by (apply (Z.mul_lt_mono_pos_r Y); lia).
    lia. }
  (* m1 < (N + 1) * P *)
  assert (Hm1u : m1 < (N + 1) * P).
  { assert (K * P < (N + 1) * P * Y) by nia.
    apply (Z.mul_lt_mono_pos_r Y); lia. }
  assert (Hupper : m2 < (N + 1) * P).
  { destruct Hm2 as [->| ->]; [assumption|].
    destruct (Z_lt_ge_dec (m1 + 1) ((N + 1) * P)) as [|Hge]; [assumption|].
    exfalso.
    assert (HT : m1 + 1 = (N + 1) * P) by lia.
    specialize (Hup eq_refl).
    assert (H2P : 2 * P <= Y).
    { assert (2 * P * ((N + 1) * Y - K) <= Y) by nia.
      assert (1 <= (N + 1) * Y - K) by nia.
      nia. }
    assert (2 ^ 52 * (2 * P) <= K * P) by nia.
    assert (2 ^ 53 * P <= K * P) by lia.
    assert (2 ^ 53 <= K) by (apply (Z.mul_le_mono_pos_r _ _ P); lia).
    lia. }
  symmetry. apply Z.div_unique with (r := m2 - N * P); lia.
Qed.

Lemma trunc_round_result (m2 E : Z) :
  0 < m2 <= 2 ^ 53 -> -1074 <= E <= 0 ->
  trunc (round_result false m2 E) = Some (m2 / 2 ^ (- E)).
Proof.
  intros Hm HE. unfold round_result.
  destruct (Z.eqb_spec m2 0); [lia|].
  change (emax - prec) with 971.
  destruct (Z.eqb_spec m2 (2 ^ 53)) as [->|Hc].
  - destruct (Z.leb_spec (E + 1) 971); [|lia].
    cbn [trunc cond_Zopp]. f_equal.
    destruct (E + 1) as [|p|p] eqn:E1.
    + replace (- E) with 1 by lia. reflexivity.
    + replace E with 0 in * by lia. injection E1 as <-. reflexivity.
    + replace (- E) with (1 + Z.pos p) by lia.
      rewrite Z.pow_add_r by lia.
      change (2 ^ 53) with (2 ^ 1 * 2 ^ 52).
      rewrite Z.div_mul_cancel_l by lia. reflexivity.
  - destruct (Z.leb_spec E 971); [|lia].
    cbn [trunc cond_Zopp]. f_equal. rewrite Z2Pos.id by lia.
    destruct E as [|p|p]; try lia.
    + cbn. rewrite Z.div_1_r. reflexivity.
    + reflexivity.
Qed.

Lemma rescale_le (a b a' b' c c' m : Z) :
  0 < c -> 0 < c' -> a * c' = a' * c -> b * c' = b' * c ->
  (m * a <= b <-> m * a' <= b').
Proof.
  intros Hc Hc' Ha Hb. split; intros H.
  - apply (Z.mul_le_mono_pos_r _ _ c); [assumption|].
    replace (m * a' * c) with (m * (a' * c)) by ring.
    rewrite <- Ha, <- Hb. nia.
  - apply (Z.mul_le_mono_pos_r _ _ c'); [assumption|].
    replace (m * a * c') with (m * (a * c')) by ring.
    rewrite Ha, Hb. nia.
Qed.

Lemma rescale_lt (a b a' b' c c' m : Z) :
  0 < c -> 0 < c' -> a * c' = a' * c -> b * c' = b' * c ->
  (b < m * a <-> b' < m * a').
Proof.
  intros Hc Hc' Ha Hb. split; intros H.
  - apply (Z.mul_lt_mono_pos_r c); [assumption|].
    replace (m * a' * c) with (m * (a' * c)) by ring.
    rewrite <- Ha, <- Hb. nia.
  - apply (Z.mul_lt_mono_pos_r c'); [assumption|].
    replace (m * a * c') with (m * (a * c')) by ring.
    rewrite Ha, Hb. nia.
Qed.

Lemma SFdiv_floor (K Y : Z) (mx my : positive) (ex ey : Z) :
  0 < K < 2 ^ 53 -> 0 < Y ->
  2 ^ 52 <= Zpos mx < 2 ^ 53 -> 2 ^ 52 <= Zpos my < 2 ^ 53 ->
  -52 <= ex <= 0 -> -52 <= ey <= 12 ->
  Zpos mx * 2 ^ (ex + 52) = K * 2 ^ 52 ->
  Zpos my * 2 ^ (ey + 52) = Y * 2 ^ 52 ->
  trunc (SFdiv prec emax (S754_finite false mx ex) (S754_finite false my ey))
    = Some (K / Y).
Proof.
  intros HK HY Hmx Hmy Hex Hey HKx HYy.
  destruct (SFdiv_normal mx my ex ey Hmx Hmy ltac:(lia))
    as (n & m1 & m2 & Hn & Hm1 & Hm2 & HF1 & HF2 & ->).
  assert (Hn' : 0 <= n <= 1) by lia.
  rewrite trunc_round_result by lia. f_equal.
  set (P := 2 ^ (- (ex - ey - 53 + n))).
  assert (HP : 0 < P) by (apply Z.pow_pos_nonneg; lia).
  set (c := 2 ^ (n + 52)). set (c' := 2 ^ (ey + 52)).
  assert (Hc : 0 < c) by (apply Z.pow_pos_nonneg; lia).
  assert (Hc' : 0 < c') by (apply Z.pow_pos_nonneg; lia).
  assert (I1 : 2 ^ n * Zpos my * c' = Y * c).
  { subst c c'. rewrite <- Z.mul_assoc, HYy.
    rewrite (Z.pow_add_r 2 n 52) by lia. ring. }
  assert (I2 : Zpos mx * 2 ^ 53 * c' = K * P * c).
  { subst c c' P.
    replace (K * 2 ^ (- (ex - ey - 53 + n)) * 2 ^ (n + 52))
      with (K * 2 ^ 52 * (2 ^ n * 2 ^ (- (ex - ey - 53 + n))))
      by (rewrite (Z.pow_add_r 2 n 52) by lia; ring).
    rewrite <- HKx.
    rewrite <- !Z.mul_assoc. f_equal.
    rewrite <- !Z.pow_add_r by lia. f_equal. lia. }
  apply (floor_of_rounded_quotient K Y P m1 m2); try lia.
  - split.
    + apply (rescale_le (2 ^ n * Zpos my) (Zpos mx * 2 ^ 53) Y (K * P) c c' m1);
        try assumption. apply HF1.
    + apply (rescale_lt (2 ^ n * Zpos my) (Zpos mx * 2 ^ 53) Y (K * P) c c'
               (m1 + 1)); try assumption. apply HF1.
  - intros Hup. specialize (HF2 Hup).
    apply (rescale_le (2 ^ n * Zpos my) (2 * (Zpos mx * 2 ^ 53)) Y
             (2 * (K * P)) c c' (2 * m1 + 1)); try assumption.
    lia.
Qed.

(** ** Integers as binary64 numbers *)

Lemma of_Z_small (a : Z) :
  0 < a < 2 ^ 53 ->
  of_Z a = S754_finite false (Z.to_pos (a * 2 ^ (53 - Zdigits2 a)))
                        (Zdigits2 a - 53) /\
  2 ^ 52 <= a * 2 ^ (53 - Zdigits2 a) < 2 ^ 53 /\
  1 <= Zdigits2 a <= 53.
Proof.
  intros Ha. destruct a as [|p|p]; try lia.
  pose proof (Zdigits2_bounds (Zpos p) ltac:(lia)) as [Hl Hu].
  pose proof (Zdigits2_pos (Zpos p) ltac:(lia)) as Hd.
  assert (Hd53 : Zdigits2 (Zpos p) <= 53) by (apply Zdigits2_le; lia).
  set (d := Zdigits2 (Zpos p)) in *.
  assert (Hm : 2 ^ 52 <= Zpos p * 2 ^ (53 - d) < 2 ^ 53).
  { assert (0 < 2 ^ (53 - d)) by (apply Z.pow_pos_nonneg; lia).
    replace (2 ^ 52) with (2 ^ (d - 1) * 2 ^ (53 - d))
      by (rewrite <- Z.pow_add_r by lia; f_equal; lia).
    replace (2 ^ 53) with (2 ^ d * 2 ^ (53 - d))
      by (rewrite <- Z.pow_add_r by lia; f_equal; lia).
    nia. }
  split; [|split; [exact Hm|lia]].
  unfold of_Z. cbn [binary_normalize].
  destruct (binary_round_cases false p 0) as (m2 & Hok & -> & Hex & _).
  fold d in Hex, Hok. fold d. rewrite fexp_eq in *.
  replace (Z.max (d + 0 - 53) (-1074)) with (d - 53) in * by lia.
  rewrite (Hex ltac:(lia)). replace (0 - (d - 53)) with (53 - d) by lia.
  unfold round_result.
  destruct (Z.eqb_spec (Zpos p * 2 ^ (53 - d)) 0); [lia|].
  destruct (Z.eqb_spec (Zpos p * 2 ^ (53 - d)) (2 ^ 53)); [lia|].
  change (emax - prec) with 971.
  destruct (Z.leb_spec (d - 53) 971); [reflexivity|lia].
Qed.

Lemma of_Z_normal (Y : Z) :
  0 < Y < 2 ^ 64 ->
  exists (my : positive) (ey Y' : Z),
    of_Z Y = S754_finite false my ey /\
    2 ^ 52 <= Zpos my < 2 ^ 53 /\ -52 <= ey <= 12 /\
    Zpos my * 2 ^ (ey + 52) = Y' * 2 ^ 52 /\
    (Y < 2 ^ 53 -> Y' = Y) /\ (2 ^ 53 <= Y -> 2 ^ 53 <= Y').
Proof.
  intros HY. destruct (Z_lt_ge_dec Y (2 ^ 53)) as [Hs|Hb].
  - destruct (of_Z_small Y ltac:(lia)) as (Hz & Hm & Hd).
    exists (Z.to_pos (Y * 2 ^ (53 - Zdigits2 Y))), (Zdigits2 Y - 53), Y.
    rewrite Z2Pos.id by lia.
    split; [exact Hz|]. split; [exact Hm|]. split; [lia|].
    split; [|split; [reflexivity|lia]].
    rewrite <- Z.mul_assoc, <- Z.pow_add_r by lia. f_equal. f_equal. lia.
  - destruct Y as [|p|p]; try lia.
    pose proof (Zdigits2_bounds (Zpos p) ltac:(lia)) as [Hl Hu].
    assert (Hd1 : 54 <= Zdigits2 (Zpos p)) by (apply Zdigits2_ge; lia).
    assert (Hd2 : Zdigits2 (Zpos p) <= 64) by (apply Zdigits2_le; lia).
    set (d := Zdigits2 (Zpos p)) in *.
    unfold of_Z. cbn [binary_normalize].
    destruct (binary_round_cases false p 0) as (m2 & Hok & -> & _ & _).
    fold d in Hok. fold d. rewrite fexp_eq in *.
    replace (Z.max (d + 0 - 53) (-1074)) with (d - 53) in * by lia.
    destruct Hok as (Hm2 & _ & Hn). specialize (Hn ltac:(lia)).
    unfold round_result. change (emax - prec) with 971.
    destruct (Z.eqb_spec m2 0); [lia|].
    destruct (Z.eqb_spec m2 (2 ^ 53)) as [Hc|Hc].
    + destruct (Z.leb_spec (d - 53 + 1) 971); [|lia].
      exists (Z.to_pos (2 ^ 52)), (d - 53 + 1), (2 ^ (d - 53 + 1 + 52)).
      split; [reflexivity|].
      rewrite Z2Pos.id by lia.
      split; [lia|]. split; [lia|]. split; [ring|]. split; [lia|].
      intros _. apply Z.pow_le_mono_r; lia.
    + destruct (Z.leb_spec (d - 53) 971); [|lia].
      exists (Z.to_pos m2), (d - 53), (m2 * 2 ^ (d - 53)).
      split; [reflexivity|].
      rewrite Z2Pos.id by lia.
      split; [lia|]. split; [lia|].
      split.
      * rewrite (Z.pow_add_r 2 (d - 53) 52) by lia. ring.
      * split; [lia|]. intros _.
        assert (2 ^ 1 <= 2 ^ (d - 53)) by (apply Z.pow_le_mono_r; lia).
        change (2 ^ 53) with (2 ^ 52 * 2 ^ 1). nia.
Qed.

Lemma of_Z_zero : of_Z 0 = S754_zero false.
Proof. reflexivity. Qed.

Lemma trunc_div_of_Z (K Y : Z) :
  0 <= K < 2 ^ 53 -> 0 < Y < 2 ^ 64 ->
  trunc (SFdiv prec emax (of_Z K) (of_Z Y)) = Some (K / Y).
Proof.
  intros HK HY.
  destruct (of_Z_normal Y HY) as (my & ey & Y' & -> & Hmy & Hey & HYy & Hs & Hb).
  assert (K = 0 \/ 0 < K) as [->|HK0] by lia.
  - reflexivity.
  - destruct (of_Z_small K ltac:(lia)) as (-> & Hmx & Hd).
    assert (HY' : 0 < Y').
    { assert (0 < Z.pos my * 2 ^ (ey + 52)); [|lia].
      apply Z.mul_pos_pos; [lia|apply Z.pow_pos_nonneg; lia]. }
    assert (Hid : Z.pos (Z.to_pos (K * 2 ^ (53 - Zdigits2 K)))
                  = K * 2 ^ (53 - Zdigits2 K)) by (apply Z2Pos.id; lia).
    assert (HKx : K * 2 ^ (53 - Zdigits2 K) * 2 ^ (Zdigits2 K - 53 + 52)
                  = K * 2 ^ 52).
    { rewrite <- Z.mul_assoc, <- Z.pow_add_r by lia. f_equal. f_equal. lia. }
    rewrite (SFdiv_floor K Y'); rewrite ?Hid; try assumption; try lia.
    f_equal. destruct (Z_lt_ge_dec Y (2 ^ 53)) as [Hlt|Hge].
    + rewrite (Hs Hlt). reflexivity.
    + specialize (Hb ltac:(lia)). rewrite !Z.div_small by lia. reflexivity.
Qed.

(** ** Exact products of small integers *)

Lemma shr_1_even (j : Z) :
  0 <= j ->
  shr_1 {| shr_m := 2 * j; shr_r := false; shr_s := false |}
    = {| shr_m := j; shr_r := false; shr_s := false |}.
Proof. destruct j as [|p|p]; try lia; reflexivity. Qed.

Lemma iter_shr_exact (p : positive) (k : Z) :
  0 <= k ->
  iter_pos shr_1 p {| shr_m := k * 2 ^ Zpos p; shr_r := false; shr_s := false |}
    = {| shr_m := k; shr_r := false; shr_s := false |}.
Proof.
  revert k. induction p as [p IH|p IH|]; intros k Hk; cbn [iter_pos].
  - assert (Hpow : 2 ^ Z.pos p~1 = 2 * (2 ^ Z.pos p * 2 ^ Z.pos p)).
    { rewrite <- Z.pow_add_r, <- Z.pow_succ_r by lia. f_equal. lia. }
    assert (0 <= 2 ^ Z.pos p) by (apply Z.pow_nonneg; lia).
    rewrite Hpow.
    replace (k * (2 * (2 ^ Z.pos p * 2 ^ Z.pos p)))
      with (2 * (k * 2 ^ Z.pos p * 2 ^ Z.pos p)) by ring.
    rewrite shr_1_even by nia.
    rewrite IH by nia. apply IH. assumption.
  - assert (Hpow : 2 ^ Z.pos p~0 = 2 ^ Z.pos p * 2 ^ Z.pos p).
    { rewrite <- Z.pow_add_r by lia. f_equal. lia. }
    assert (0 <= 2 ^ Z.pos p) by (apply Z.pow_nonneg; lia).
    rewrite Hpow, Z.mul_assoc.
    rewrite IH by nia. apply IH. assumption.
  - replace (k * 2 ^ 1) with (2 * k) by (change (2 ^ 1) with 2; ring).
    apply shr_1_even. assumption.
Qed.

Lemma shr_exact (k e n : Z) :
  0 <= k -> 0 <= n ->
  shr (shr_record_of_loc (k * 2 ^ n) loc_Exact) e n
    = ({| shr_m := k; shr_r := false; shr_s := false |}, e + n).
Proof.
  intros Hk Hn. destruct n as [|p|p]; try lia; cbn [shr shr_record_of_loc].
  - rewrite Z.mul_1_r, Z.add_0_r. reflexivity.
  - rewrite iter_shr_exact by assumption. reflexivity.
Qed.

Lemma SFmul_of_Z_exact (a b : Z) :
  0 <= a < 2 ^ 64 -> 0 <= b < 2 ^ 64 -> a * b < 2 ^ 53 ->
  SFmul prec emax (of_Z a) (of_Z b) = of_Z (a * b).
Proof.
  intros Ha Hb Hab.
  assert (a = 0 \/ 0 < a) as [->|Ha0] by lia.
  { rewrite Z.mul_0_l, of_Z_zero.
    assert (b = 0 \/ 0 < b) as [->|Hb0] by lia; [reflexivity|].
    destruct (of_Z_normal b ltac:(lia)) as (mb & eb & _ & -> & _). reflexivity. }
  assert (b = 0 \/ 0 < b) as [->|Hb0] by lia.
  { rewrite Z.mul_0_r, of_Z_zero.
    destruct (of_Z_normal a ltac:(lia)) as (ma & ea & _ & -> & _). reflexivity. }
  assert (Ha53 : a < 2 ^ 53) by nia.
  assert (Hb53 : b < 2 ^ 53) by nia.
  assert (Hab0 : 0 < a * b) by nia.
  destruct (of_Z_small a ltac:(lia)) as (-> & Hma & Hda).
  destruct (of_Z_small b ltac:(lia)) as (-> & Hmb & Hdb).
  destruct (of_Z_small (a * b) ltac:(lia)) as (-> & Hmk & Hdk).
  set (da := Zdigits2 a) in *. set (db := Zdigits2 b) in *.
  set (dk := Zdigits2 (a * b)) in *.
  cbn [SFmul xorb]. rewrite Pos2Z.inj_mul, !Z2Pos.id by lia.
  set (m := a * 2 ^ (53 - da) * (b * 2 ^ (53 - db))).
  set (e := da - 53 + (db - 53)).
  (* the digits of the product and of its mantissa *)
  pose proof (Zdigits2_bounds a Ha0) as [Hal Hau]. fold da in Hal, Hau.
  pose proof (Zdigits2_bounds b Hb0) as [Hbl Hbu]. fold db in Hbl, Hbu.
  assert (Hdk1 : da + db - 1 <= dk).
  { apply Zdigits2_ge; [|lia].
    replace (da + db - 1 - 1) with ((da - 1) + (db - 1)) by lia.
    rewrite Z.pow_add_r by lia.
    assert (0 < 2 ^ (da - 1)) by (apply Z.pow_pos_nonneg; lia).
    assert (0 < 2 ^ (db - 1)) by (apply Z.pow_pos_nonneg; lia).
    nia. }
  set (n := dk + 53 - da - db).
  assert (Hmn : m = a * b * 2 ^ (53 - dk) * 2 ^ n).
  { subst m n. rewrite <- (Z.mul_assoc (a * b)), <- Z.pow_add_r by lia.
    replace (53 - dk + (dk + 53 - da - db)) with ((53 - da) + (53 - db)) by lia.
    rewrite Z.pow_add_r by lia. ring. }
  assert (Hdm : Zdigits2 m = 53 + n).
  { rewrite Hmn. rewrite Zdigits2_mul_pow2 by (subst n; lia).
    rewrite (Zdigits2_normal _ Hmk). reflexivity. }
  assert (HE : fexp prec emax (Zdigits2 m + e) = dk - 53).
  { rewrite Hdm, fexp_eq. subst n e. lia. }
  rewrite binary_round_aux_cases; [|lia|rewrite HE; subst e; lia].
  unfold shr_fexp. rewrite HE.
  replace (dk - 53 - e) with n by (subst n e; lia).
  rewrite Hmn at 2. rewrite shr_exact by (subst n; lia).
  cbn [fst loc_of_shr_record round_nearest_even].
  rewrite Hmn, Z.div_mul by (apply Z.pow_nonzero; subst n; lia).
  unfold round_result.
  destruct (Z.eqb_spec (a * b * 2 ^ (53 - dk)) 0); [lia|].
  destruct (Z.eqb_spec (a * b * 2 ^ (53 - dk)) (2 ^ 53)); [lia|].
  change (emax - prec) with 971.
  destruct (Z.leb_spec (dk - 53) 971); [reflexivity|lia].
Qed.

Create HintDb f64 discriminated.
#[global] Hint Resolve SFadd_valid SFsub_valid SFmul_valid SFdiv_valid
  SFadd_nonneg SFdiv_nonneg is_pos_nonneg : f64.

(** ** A price against itself *)

Lemma SFdiv_of_Z_finite (a b : Z) :
  0 < a < 2 ^ 64 -> 0 < b < 2 ^ 64 ->
  exists m e, SFdiv prec emax (of_Z a) (of_Z b) = S754_finite false m e.
Proof.
  intros Ha Hb.
  destruct (of_Z_normal a Ha) as (ma & ea & _ & -> & Hma & Hea & _).
  destruct (of_Z_normal b Hb) as (mb & eb & _ & -> & Hmb & Heb & _).
  destruct (SFdiv_normal ma mb ea eb Hma Hmb ltac:(lia))
    as (n & m1 & m2 & Hn & Hm1 & Hm2 & _ & _ & ->).
  unfold round_result. change (emax - prec) with 971.
  destruct (Z.eqb_spec m2 0); [lia|].
  destruct (m2 =? 2 ^ 53).
  - destruct (Z.leb_spec (ea - eb - 53 + n + 1) 971); [|lia]. eauto.
  - destruct (Z.leb_spec (ea - eb - 53 + n) 971); [|lia]. eauto.
Qed.

Lemma relative_change_of_equal_prices (m : positive) (e : Z) :
  let x := S754_finite false m e in
  mul (div (abs (sub x x)) x) (of_Z 10000) = S754_zero false.
Proof.
  cbv zeta. unfold sub. cbn [SFsub cond_Zopp]. rewrite Z.sub_diag.
  reflexivity.
Qed.

End F64_facts.

(** * The constant-product pool: properties *)

Module Lifinity_props.
Import Lifinity Lifinity_spec.

(** ** uint64 helpers *)

Lemma two64_pos : 0 < two64.
Proof. reflexivity. Qed.

Lemma sub64_range (x y : Z) : 0 <= sub64 x y < two64.
Proof. unfold sub64. apply Z.mod_pos_bound, two64_pos. Qed.

Lemma uint64_of_float_range (oor : float64 -> Z) (x : float64) :
  0 <= uint64_of_float oor x < two64.
Proof.
  unfold uint64_of_float.
  destruct (F64.trunc x) as [n|].
  - destruct ((0 <=? n) && (n <? two64)) eqn:E.
    + apply andb_true_iff in E. destruct E as [E1 E2].
      apply Z.leb_le in E1. apply Z.ltb_lt in E2. lia.
    + apply Z.mod_pos_bound, two64_pos.
  - apply Z.mod_pos_bound, two64_pos.
Qed.

(** ** What [GetQuote] does, in terms of the reserves it computes *)

Lemma GetQuote_unfold (oor : float64 -> Z) (l : LifinityLiquidity)
  (p : QuoteParams.t) :
  GetQuote oor l p =
  let aToB := QuoteParams.AToB p in
  let aIn := afterIn l p in
  let aOut := afterOut oor l p in
  let afterA := if aToB then aIn else aOut in
  let afterB := if aToB then aOut else aIn in
  if (aIn =? 0) || (aOut =? 0) then (Err "afterLiquidity is zero"%string, l)
  else
    let l' := {| A := afterA; B := afterB; _k := _k l |} in
    (Ok {| Quote.InAmount := QuoteParams.InAmount p;
           Quote.OutAmount := sub64 (sub64 (reserveOut l aToB) aOut) 1;
           Quote.PriceImpactBP :=
             uint64_of_float oor
               (F64.mul
                  (F64.div
                     (F64.abs (F64.sub (F64.div (F64.of_Z afterA) (F64.of_Z afterB))
                                       (Price l' aToB)))
                     (Price l' aToB))
                  (F64.of_Z 10000)) |},
     l').
Proof.
  unfold GetQuote, afterOut, afterIn, feeAmount, reserveIn, reserveOut.
  destruct (QuoteParams.AToB p); cbv zeta.
  - reflexivity.
  - rewrite (orb_comm (_ =? 0) (sub64 _ _ =? 0)). reflexivity.
Qed.

Lemma GetQuote_ok_state (oor : float64 -> Z) (l l' : LifinityLiquidity)
  (p : QuoteParams.t) (q : Quote.t) :
  GetQuote oor l p = (Ok q, l') ->
  reserveIn l' (QuoteParams.AToB p) = afterIn l p /\
  reserveOut l' (QuoteParams.AToB p) = afterOut oor l p /\
  _k l' = _k l /\
  afterIn l p <> 0 /\ afterOut oor l p <> 0 /\
  Quote.OutAmount q =
    sub64 (sub64 (reserveOut l (QuoteParams.AToB p)) (afterOut oor l p)) 1.
Proof.
  rewrite GetQuote_unfold. cbv zeta.
  destruct ((afterIn l p =? 0) || (afterOut oor l p =? 0)) eqn:E;
    [discriminate|].
  apply orb_false_iff in E. destruct E as [E1 E2].
  apply Z.eqb_neq in E1. apply Z.eqb_neq in E2.
  intros H. injection H as Hq Hl. subst q l'.
  unfold reserveIn, reserveOut.
  destruct (QuoteParams.AToB p); cbn; repeat split; auto.
Qed.

(** ** The demonstration pool of [main] *)

Lemma main_pool_first_quote (oor : float64 -> Z) :
  GetQuote oor (NewLifinityLiquidity 1000 20000) (params 10 true) =
  (Ok {| Quote.InAmount := 10; Quote.OutAmount := 198;
         Quote.PriceImpactBP := 0 |},
   {| A := 1010; B := 19801; _k := F64.of_Z 20000000 |}).
Proof. vm_compute. reflexivity. Qed.

Lemma price_impact_A_to_B (oor : float64 -> Z) (l l' : LifinityLiquidity)
  (p : QuoteParams.t) (q : Quote.t) :
  QuoteParams.AToB p = true ->
  GetQuote oor l p = (Ok q, l') ->
  Quote.PriceImpactBP q = 0.
Proof.
  intros Hdir H. rewrite GetQuote_unfold in H. cbv zeta in H.
  rewrite Hdir in H.
  pose proof (sub64_range
                (add64 (reserveIn l (QuoteParams.AToB p)) (QuoteParams.InAmount p))
                (feeAmount (QuoteParams.InAmount p))) as Hin.
  fold (afterIn l p) in Hin.
  pose proof (uint64_of_float_range oor
                (F64.div (K l) (F64.of_Z (afterIn l p)))) as Hout.
  fold (afterOut oor l p) in Hout.
  destruct (Z.eqb_spec (afterIn l p) 0) as [|Hin0]; [discriminate|].
  destruct (Z.eqb_spec (afterOut oor l p) 0) as [|Hout0]; [discriminate|].
  cbn [orb] in H. injection H as Hq _. subst q.
  cbn [Quote.PriceImpactBP Price A B].
  destruct (F64_facts.SFdiv_of_Z_finite (afterIn l p) (afterOut oor l p))
    as (m & e & Hx); [unfold two64 in *; lia..|].
  unfold F64.div at 2 3 4. rewrite Hx.
  rewrite F64_facts.relative_change_of_equal_prices. reflexivity.
Qed.

Lemma main_pool_spec_metric (oor : float64 -> Z) :
  spec_priceImpactBP oor (NewLifinityLiquidity 1000 20000)
    (snd (GetQuote oor (NewLifinityLiquidity 1000 20000) (params 10 true)))
    true = 201.
Proof. vm_compute. reflexivity. Qed.

(** C1: every successful quote from A to B reports a price impact of 0
    basis points, because the price named [beforePrice] is read after the
    reserves have been overwritten and so equals the post-trade price.  On
    the pool (1000, 20000) the quote of 10 units A to B reports 0, while the
    metric taken from the reserves before the trade, as the specification
    words it, is 201. *)
Theorem C1_price_impact_reads_updated_reserves :
  (forall (oor : float64 -> Z) (l l' : LifinityLiquidity) (p : QuoteParams.t)
          (q : Quote.t),
     QuoteParams.AToB p = true ->
     GetQuote oor l p = (Ok q, l') ->
     Quote.PriceImpactBP q = 0) /\
  fst (GetQuote oorDefault (NewLifinityLiquidity 1000 20000) (params 10 true))
    = Ok {| Quote.InAmount := 10; Quote.OutAmount := 198;
            Quote.PriceImpactBP := 0 |} /\
  spec_priceImpactBP oorDefault (NewLifinityLiquidity 1000 20000)
    (snd (GetQuote oorDefault (NewLifinityLiquidity 1000 20000) (params 10 true)))
    true = 201.
Proof.
  split; [exact price_impact_A_to_B|].
  split; [rewrite main_pool_first_quote; reflexivity|].
  apply main_pool_spec_metric.
Qed.

Lemma C1_price_impact_witness :
  Quote.PriceImpactBP
    {| Quote.InAmount := 10; Quote.OutAmount := 198;
       Quote.PriceImpactBP := 0 |} = 0.
Proof.
  apply (proj1 C1_price_impact_reads_updated_reserves oorDefault
           (NewLifinityLiquidity 1000 20000)
           {| A := 1010; B := 19801; _k := F64.of_Z 20000000 |}
           (params 10 true)).
  - reflexivity.
  - apply main_pool_first_quote.
Defined.

(** A zero input on the demonstration pool succeeds, for every platform. *)
Lemma zero_input_succeeds (oor : float64 -> Z) (aToB : bool) :
  GetQuote oor (NewLifinityLiquidity 1000 20000) (params 0 aToB) =
  (Ok {| Quote.InAmount := 0; Quote.OutAmount := two64 - 1;
         Quote.PriceImpactBP := if aToB then 0 else 9975 |},
   NewLifinityLiquidity 1000 20000).
Proof. destruct aToB; vm_compute; reflexivity. Qed.

(** C2, counterexample: the pool does not reject a zero input. *)
Lemma C2_pool_accepts_zero_input :
  is_ok (fst (GetQuote oorDefault (NewLifinityLiquidity 1000 20000)
                       (params 0 true))) = true.
Proof. rewrite zero_input_succeeds. reflexivity. Qed.

(** ** Fee deduction *)

Lemma feeAmount_small (a : Z) :
  0 <= a -> a * LifinityFeeRate < two64 -> feeAmount a = a / 200.
Proof.
  intros Ha Hs. unfold feeAmount, div64, mul64.
  rewrite Z.mod_small by (unfold LifinityFeeRate in *; lia).
  unfold LifinityFeeRate.
  replace 10000 with (50 * 200) by reflexivity.
  rewrite (Z.mul_comm a 50).
  rewrite Z.div_mul_cancel_l by lia. reflexivity.
Qed.

Lemma input_less_fee_is_ceiling (a : Z) :
  0 <= a -> a - a / 200 = (a * (10000 - LifinityFeeRate) + 9999) / 10000.
Proof.
  intros Ha. unfold LifinityFeeRate.
  pose proof (Z.div_mod a 200 ltac:(lia)) as Hd.
  pose proof (Z.mod_pos_bound a 200 ltac:(lia)) as Hm.
  set (q := a / 200) in *. set (r := a mod 200) in *.
  apply Z.div_unique with (r := 9999 - 50 * r); lia.
Qed.

Lemma one_unit_reaches_reserve (oor : float64 -> Z) :
  A (snd (GetQuote oor (NewLifinityLiquidity 1000 20000) (params 1 true)))
    = 1001.
Proof. vm_compute. reflexivity. Qed.

(** C4, counterexample: one unit of input reaches the reserve whole, while
    the truncated [amount * (1 - fee/10000)] is zero. *)
Lemma C4_one_unit_is_not_truncated_away :
  A (snd (GetQuote oorDefault (NewLifinityLiquidity 1000 20000) (params 1 true)))
    = 1001 /\
  1000 + spec_effectiveInput 1 LifinityFeeRate = 1000.
Proof. split; [apply one_unit_reaches_reserve|reflexivity]. Qed.

(** C4, amended: on success the input-side reserve grows, modulo 2^64, by the
    input less the fee, where the fee is [amount * 50] (reduced to 64 bits)
    divided by 10000 and truncated; while [amount * 50] fits 64 bits this is
    the input scaled by [(10000 - 50) / 10000] and rounded up, not down. *)
Theorem C4_effective_input_is_amount_less_truncated_fee
  (oor : float64 -> Z) (l l' : LifinityLiquidity) (p : QuoteParams.t)
  (q : Quote.t) :
  is_uint64 (QuoteParams.InAmount p) ->
  GetQuote oor l p = (Ok q, l') ->
  let a := QuoteParams.InAmount p in
  reserveIn l' (QuoteParams.AToB p) =
    (reserveIn l (QuoteParams.AToB p) + (a - feeAmount a)) mod two64 /\
  feeAmount a = (a * LifinityFeeRate) mod two64 / 10000 /\
  (a * LifinityFeeRate < two64 ->
   a - feeAmount a = (a * (10000 - LifinityFeeRate) + 9999) / 10000).
Proof.
  intros [Ha0 Ha1] H a. apply GetQuote_ok_state in H.
  destruct H as (Hin & _). rewrite Hin.
  split; [|split].
  - unfold afterIn, sub64, add64. fold a.
    rewrite Zminus_mod_idemp_l. f_equal. lia.
  - reflexivity.
  - intros Hs. rewrite feeAmount_small by assumption.
    apply input_less_fee_is_ceiling. assumption.
Qed.

Lemma C4_effective_input_witness :
  A (snd (GetQuote oorDefault (NewLifinityLiquidity 1000 20000) (params 10 true)))
    = (1000 + (10 - feeAmount 10)) mod two64 /\
  feeAmount 10 = (10 * LifinityFeeRate) mod two64 / 10000 /\
  (10 * LifinityFeeRate < two64 ->
   10 - feeAmount 10 = (10 * (10000 - LifinityFeeRate) + 9999) / 10000).
Proof.
  apply (C4_effective_input_is_amount_less_truncated_fee oorDefault
           (NewLifinityLiquidity 1000 20000) _ (params 10 true)
           {| Quote.InAmount := 10; Quote.OutAmount := 198;
              Quote.PriceImpactBP := 0 |}).
  - split; [discriminate | reflexivity].
  - vm_compute. reflexivity.
Defined.

(** ** Underflow of the output amount *)

Lemma empty_reserve_quote (oor : float64 -> Z) :
  afterOut oor (NewLifinityLiquidity 1000 0) (params 10 true) = 0 /\
  GetQuote oor (NewLifinityLiquidity 1000 0) (params 10 true) =
    (Err "afterLiquidity is zero"%string, NewLifinityLiquidity 1000 0).
Proof. split; vm_compute; reflexivity. Qed.

(** C10, counterexample: on the pool (1000, 0) the recomputed opposite
    reserve, 0, is not below the current one, yet the call fails. *)
Lemma C10_empty_reserve_fails :
  (reserveOut (NewLifinityLiquidity 1000 0) true
   <=? afterOut oorDefault (NewLifinityLiquidity 1000 0) (params 10 true))
  = true /\
  GetQuote oorDefault (NewLifinityLiquidity 1000 0) (params 10 true) =
    (Err "afterLiquidity is zero"%string, NewLifinityLiquidity 1000 0).
Proof.
  destruct (empty_reserve_quote oorDefault) as [Hout Hq].
  split; [rewrite Hout; reflexivity|exact Hq].
Qed.

(** C10, amended: whenever the recomputed opposite-side reserve is not below
    the current one and both updated reserves are non-zero, the call succeeds,
    writes the updated reserves, and returns the wrapped output amount
    [(reserveOut - afterOut - 1) mod 2^64], which is
    [2^64 - 1 - (afterOut - reserveOut)]. *)
Theorem C10_output_amount_wraps
  (oor : float64 -> Z) (l : LifinityLiquidity) (p : QuoteParams.t) :
  let aToB := QuoteParams.AToB p in
  is_uint64 (reserveOut l aToB) ->
  reserveOut l aToB <= afterOut oor l p ->
  afterIn l p <> 0 ->
  afterOut oor l p <> 0 ->
  exists q l',
    GetQuote oor l p = (Ok q, l') /\
    Quote.OutAmount q = (reserveOut l aToB - afterOut oor l p - 1) mod two64 /\
    Quote.OutAmount q = two64 - 1 - (afterOut oor l p - reserveOut l aToB) /\
    reserveIn l' aToB = afterIn l p /\
    reserveOut l' aToB = afterOut oor l p.
Proof.
  intros aToB [Hr0 Hr1] Hge Hin Hout.
  pose proof (uint64_of_float_range oor
                (F64.div (K l) (F64.of_Z (afterIn l p)))) as Hrange.
  fold (afterOut oor l p) in Hrange.
  destruct (GetQuote oor l p) as [r l'] eqn:E.
  pose proof E as E'. rewrite GetQuote_unfold in E'. cbv zeta in E'.
  apply Z.eqb_neq in Hin. apply Z.eqb_neq in Hout.
  rewrite Hin, Hout in E'. cbn [orb] in E'.
  injection E' as Er El.
  eexists. exists l'. rewrite <- Er.
  split; [reflexivity|].
  assert (Hw : sub64 (sub64 (reserveOut l aToB) (afterOut oor l p)) 1
               = two64 - 1 - (afterOut oor l p - reserveOut l aToB)).
  { unfold sub64. rewrite Zminus_mod_idemp_l.
    replace (reserveOut l aToB - afterOut oor l p - 1)
      with ((two64 - 1 - (afterOut oor l p - reserveOut l aToB)) + (-1) * two64)
      by ring.
    rewrite Z.mod_add by discriminate.
    apply Z.mod_small. lia. }
  cbn [Quote.OutAmount]. fold aToB.
  split; [|split; [exact Hw|]].
  - unfold sub64. rewrite Zminus_mod_idemp_l. reflexivity.
  - rewrite <- El. unfold reserveIn, reserveOut. fold aToB.
    destruct aToB; cbn; split; reflexivity.
Qed.

Lemma C10_output_amount_wraps_witness :
  exists q l',
    GetQuote oorDefault (NewLifinityLiquidity 1000 20000) (params 0 true)
      = (Ok q, l') /\
    Quote.OutAmount q = (20000 - 20000 - 1) mod two64 /\
    Quote.OutAmount q = two64 - 1 - (20000 - 20000) /\
    reserveIn l' true = 1000 /\
    reserveOut l' true = 20000.
Proof.
  apply (C10_output_amount_wraps oorDefault (NewLifinityLiquidity 1000 20000)
           (params 0 true)).
  - split; [discriminate | reflexivity].
  - vm_compute. discriminate.
  - vm_compute. discriminate.
  - vm_compute. discriminate.
Defined.

(** ** The constant product *)

Lemma afterIn_range (l : LifinityLiquidity) (p : QuoteParams.t) :
  0 <= afterIn l p < two64.
Proof. apply sub64_range. Qed.

Lemma K_of_constructed (a b : Z) :
  is_uint64 a -> is_uint64 b -> a * b < 2 ^ 53 ->
  _k (NewLifinityLiquidity a b) = F64.of_Z (a * b).
Proof.
  intros Ha Hb Hab. cbn [NewLifinityLiquidity _k].
  apply F64_facts.SFmul_of_Z_exact; assumption.
Qed.

Lemma afterOut_exact (oor : float64 -> Z) (l : LifinityLiquidity)
  (p : QuoteParams.t) (k : Z) :
  0 <= k < 2 ^ 53 -> _k l = F64.of_Z k -> afterIn l p <> 0 ->
  afterOut oor l p = k / afterIn l p.
Proof.
  intros Hk HK Hin. pose proof (afterIn_range l p) as Hr.
  unfold afterOut, K, uint64_of_float, F64.div. rewrite HK.
  rewrite F64_facts.trunc_div_of_Z by (unfold two64 in Hr; lia).
  assert (0 <= k / afterIn l p) by (apply Z.div_pos; lia).
  assert (k / afterIn l p <= k) by (apply Z.div_le_upper_bound; nia).
  destruct (Z.leb_spec 0 (k / afterIn l p)); [|lia].
  destruct (Z.ltb_spec (k / afterIn l p) two64); [reflexivity|].
  unfold two64 in *. lia.
Qed.

Lemma rounded_quotient_quote (oor : float64 -> Z) :
  GetQuote oor (NewLifinityLiquidity (2 ^ 32) (2 ^ 32 + 2)) (params 1 true)
  = (Ok {| Quote.InAmount := 1; Quote.OutAmount := 0;
           Quote.PriceImpactBP := 0 |},
     {| A := 2 ^ 32 + 1; B := 2 ^ 32 + 1;
        _k := F64.of_Z (2 ^ 64 + 2 ^ 33) |}).
Proof. vm_compute. reflexivity. Qed.

Lemma large_trade_quote (oor : float64 -> Z) :
  GetQuote oor (NewLifinityLiquidity 1000 20000) (params 15000000 true)
  = (Ok {| Quote.InAmount := 15000000; Quote.OutAmount := 19998;
           Quote.PriceImpactBP := 0 |},
     {| A := 14926000; B := 1; _k := F64.of_Z 20000000 |}).
Proof. vm_compute. reflexivity. Qed.

(** C5, counterexample: on the pool (2^32, 2^32 + 2), whose product
    2^64 + 2^33 is a binary64 number, one unit A to B gives the reserves
    (2^32 + 1, 2^32 + 1): the quotient is rounded up to the next integer and
    the product of the reserves exceeds [k] by 1.  On the pool (1000, 20000)
    the product after a quote of 10 is 990 below [k], after a quote of
    15,000,000 it is 5,074,000 below. *)
Lemma C5_product_can_exceed_k :
  (GetQuote oorDefault (NewLifinityLiquidity (2 ^ 32) (2 ^ 32 + 2)) (params 1 true)
   = (Ok {| Quote.InAmount := 1; Quote.OutAmount := 0;
            Quote.PriceImpactBP := 0 |},
      {| A := 2 ^ 32 + 1; B := 2 ^ 32 + 1;
         _k := F64.of_Z (2 ^ 64 + 2 ^ 33) |}) /\
   F64.trunc (_k (NewLifinityLiquidity (2 ^ 32) (2 ^ 32 + 2)))
   = Some (2 ^ 64 + 2 ^ 33) /\
   (2 ^ 32 + 1) * (2 ^ 32 + 1) = 2 ^ 64 + 2 ^ 33 + 1) /\
  (F64.trunc (_k (NewLifinityLiquidity 1000 20000)) = Some 20000000 /\
   snd (GetQuote oorDefault (NewLifinityLiquidity 1000 20000) (params 10 true))
   = {| A := 1010; B := 19801; _k := F64.of_Z 20000000 |} /\
   20000000 - 1010 * 19801 = 990 /\
   GetQuote oorDefault (NewLifinityLiquidity 1000 20000) (params 15000000 true)
   = (Ok {| Quote.InAmount := 15000000; Quote.OutAmount := 19998;
            Quote.PriceImpactBP := 0 |},
      {| A := 14926000; B := 1; _k := F64.of_Z 20000000 |}) /\
   20000000 - 14926000 * 1 = 5074000).
Proof.
  split; [split; [apply rounded_quotient_quote|split; vm_compute; reflexivity]|].
  split; [vm_compute; reflexivity|].
  split; [rewrite main_pool_first_quote; reflexivity|].
  split; [reflexivity|].
  split; [apply large_trade_quote|reflexivity].
Qed.

(** C5, amended: take a state whose [_k] was fixed by [NewLifinityLiquidity]
    on reserves with a product below 2^53, so that [k] is that product
    exactly.  After every successful quote the product of the updated
    reserves is at most [k], and it falls short of [k] by less than the
    updated input-side reserve (the remainder of the integer division),
    a bound that grows with the trade.  [_k] itself is unchanged. *)
Theorem C5_product_at_most_k
  (oor : float64 -> Z) (a b : Z) (l l' : LifinityLiquidity)
  (p : QuoteParams.t) (q : Quote.t) :
  is_uint64 a -> is_uint64 b -> a * b < 2 ^ 53 ->
  _k l = _k (NewLifinityLiquidity a b) ->
  GetQuote oor l p = (Ok q, l') ->
  let rIn := reserveIn l' (QuoteParams.AToB p) in
  let rOut := reserveOut l' (QuoteParams.AToB p) in
  _k l' = F64.of_Z (a * b) /\
  F64.trunc (_k l') = Some (a * b) /\
  0 < rIn /\
  rOut = a * b / rIn /\
  rIn * rOut <= a * b /\
  a * b - rIn * rOut < rIn.
Proof.
  intros Ha Hb Hab Hk H rIn rOut.
  rewrite K_of_constructed in Hk by assumption.
  apply GetQuote_ok_state in H.
  destruct H as (Hin & Hout & Hk' & Hin0 & Hout0 & _).
  pose proof (afterIn_range l p) as Hr.
  assert (Hab0 : 0 <= a * b) by (unfold is_uint64 in *; nia).
  rewrite (afterOut_exact oor l p (a * b)) in Hout by (assumption || lia).
  subst rIn rOut. rewrite Hin, Hout, Hk', Hk.
  assert (Hpos : 0 < afterIn l p) by lia.
  pose proof (Z.div_mod (a * b) (afterIn l p) ltac:(lia)) as Hdm.
  pose proof (Z.mod_pos_bound (a * b) (afterIn l p) Hpos) as Hm.
  split; [reflexivity|]. split.
  - assert (a * b = 0 \/ 0 < a * b) as [->|Hp] by lia; [reflexivity|].
    destruct (F64_facts.of_Z_small (a * b) ltac:(lia)) as (-> & Hm53 & Hd).
    cbn [F64.trunc cond_Zopp]. f_equal.
    rewrite Z2Pos.id by lia.
    destruct (Zdigits2 (a * b) - 53) as [|e|e] eqn:E; try lia.
    + replace (53 - Zdigits2 (a * b)) with 0 by lia. cbn. lia.
    + replace (53 - Zdigits2 (a * b)) with (Z.pos e) by lia.
      apply Z.div_mul. apply Z.pow_nonzero; lia.
  - repeat split; lia.
Qed.

Lemma C5_product_at_most_k_witness :
  _k {| A := 1010; B := 19801; _k := F64.of_Z 20000000 |}
    = F64.of_Z (1000 * 20000) /\
  F64.trunc (F64.of_Z 20000000) = Some (1000 * 20000) /\
  0 < 1010 /\
  19801 = 1000 * 20000 / 1010 /\
  1010 * 19801 <= 1000 * 20000 /\
  1000 * 20000 - 1010 * 19801 < 1010.
Proof.
  apply (C5_product_at_most_k oorDefault 1000 20000
           (NewLifinityLiquidity 1000 20000)
           {| A := 1010; B := 19801; _k := F64.of_Z 20000000 |}
           (params 10 true)
           {| Quote.InAmount := 10; Quote.OutAmount := 198;
              Quote.PriceImpactBP := 0 |}).
  - split; [discriminate|reflexivity].
  - split; [discriminate|reflexivity].
  - reflexivity.
  - reflexivity.
  - apply main_pool_first_quote.
Defined.

End Lifinity_props.

(** * The ladder walk: properties *)

Module Phoenix_props.
Import Phoenix Phoenix_spec.

Definition invalidInput : string := "input amount must be greater than zero".
Definition insufficientLiquidity : string :=
  "not enough liquidity for the requested amount".
Definition exhaustedLadder : string := "updated ladder has no more asks or bids".

(** ** Input validation *)

(** C2, amended: the ladder engine rejects, in both directions, every input
    amount that compares [<= 0] (zero of either sign, negative values, minus
    infinity) with the invalid-input error and leaves the ladder as it was;
    the same call on the ladder it leaves gives the same error and the same
    ladder again.  (The pool engine has no such check: its unsigned input
    admits no negative amount, and a zero amount is not rejected.) *)
Theorem C2_ladder_rejects_nonpositive_input
  (h : Hoenix) (ladder : UiLadder) (inAmount : float64) (aToB : bool) :
  F64.leb inAmount F64.zero = true ->
  GetQuote h (params inAmount aToB) ladder = (Err invalidInput, ladder) /\
  GetQuote h (params inAmount aToB)
           (snd (GetQuote h (params inAmount aToB) ladder))
    = (Err invalidInput, ladder).
Proof.
  intros Hle.
  assert (H1 : GetQuote h (params inAmount aToB) ladder
               = (Err invalidInput, ladder)).
  { unfold GetQuote, getExpectedOutAmount. cbn [QuoteParams.InAmount params].
    rewrite Hle. reflexivity. }
  split; [exact H1|]. rewrite H1. exact H1.
Qed.

Lemma C2_ladder_rejects_nonpositive_input_witness :
  GetQuote mainHoenix (params (F64.of_Z (-3)) true) mainLadder
    = (Err invalidInput, mainLadder) /\
  GetQuote mainHoenix (params (F64.of_Z (-3)) true)
           (snd (GetQuote mainHoenix (params (F64.of_Z (-3)) true) mainLadder))
    = (Err invalidInput, mainLadder).
Proof.
  apply (C2_ladder_rejects_nonpositive_input mainHoenix mainLadder
           (F64.of_Z (-3)) true).
  reflexivity.
Defined.

(** ** Insufficient liquidity *)

Lemma GetQuote_walk (h : Hoenix) (p : QuoteParams.t) (ladder : UiLadder) :
  F64.leb (QuoteParams.InAmount p) F64.zero = false ->
  F64.leb (adjustedAmount h p) F64.zero = false ->
  GetQuote h p ladder =
  if F64.gtb (snd (walk h p ladder)) F64.zero then
    (Err insufficientLiquidity, ladder)
  else
    let ladder' :=
      withWalked ladder (QuoteParams.AToB p)
        (updateLevels (walkedLevels ladder (QuoteParams.AToB p))
                      (updateAmount h p ladder)) in
    if isEmpty (Asks ladder') || isEmpty (Bids ladder') then
      (Err exhaustedLadder, ladder')
    else
      (Ok {| Quote.InAmount := QuoteParams.InAmount p;
             Quote.OutAmount := fst (walk h p ladder) |},
       ladder').
Proof.
  intros Hin Hadj.
  unfold GetQuote, getExpectedOutAmount, updateAmount, walk.
  unfold adjustedAmount in *. rewrite Hin.
  destruct (QuoteParams.AToB p); cbn [negb].
  - unfold getBaseUnitsOutFromQuoteUnitsIn. rewrite Hadj.
    unfold calculateBaseAmountFromQuoteBudget.
    destruct (walkAsks _ _ _) as [amount budget]. cbn [fst snd].
    destruct (F64.gtb budget F64.zero); reflexivity.
  - unfold getQuoteUnitsOutFromBaseUnitsIn. rewrite Hadj.
    unfold calculateQuoteAmountFromBaseBudget.
    destruct (walkBids _ _ _) as [amount budget]. cbn [fst snd].
    destruct (F64.gtb budget F64.zero); reflexivity.
Qed.

(** C3, counterexample: a request beyond the book of [main] fails and the
    ladder, its first ask level included, is what it was. *)
Lemma C3_failed_walk_depletes_nothing :
  GetQuote mainHoenix (params (F64.of_Z 1000) true) mainLadder
    = (Err insufficientLiquidity, mainLadder) /\
  F64.gtb (snd (walk mainHoenix (params (F64.of_Z 1000) true) mainLadder))
          F64.zero = true /\
  map Quantity (Asks mainLadder) = [F64.of_Z 10; F64.of_Z 5; F64.of_Z 2].
Proof. vm_compute. repeat split; reflexivity. Qed.

(** C3, amended: whenever the budget left by the walk is strictly positive,
    the engine reports the insufficient-liquidity error and the ladder is
    left exactly as it was: the walk reads the levels and writes none. *)
Theorem C3_insufficient_liquidity_leaves_ladder
  (h : Hoenix) (p : QuoteParams.t) (ladder : UiLadder) :
  F64.leb (QuoteParams.InAmount p) F64.zero = false ->
  F64.leb (adjustedAmount h p) F64.zero = false ->
  F64.gtb (snd (walk h p ladder)) F64.zero = true ->
  GetQuote h p ladder = (Err insufficientLiquidity, ladder).
Proof.
  intros Hin Hadj Hleft. rewrite GetQuote_walk by assumption.
  rewrite Hleft. reflexivity.
Qed.

Lemma C3_insufficient_liquidity_witness :
  GetQuote mainHoenix (params (F64.of_Z 1000) false) mainLadder
    = (Err insufficientLiquidity, mainLadder).
Proof.
  apply (C3_insufficient_liquidity_leaves_ladder mainHoenix
           (params (F64.of_Z 1000) false) mainLadder); vm_compute; reflexivity.
Defined.

(** ** The exhausted-ladder check *)

Lemma updateLevels_length (levels : list UiLadderLevel) (amount : float64) :
  List.length (updateLevels levels amount) = List.length levels.
Proof.
  revert amount. induction levels as [|l rest IH]; intros amount; cbn.
  - reflexivity.
  - destruct (F64.geb (Quantity l) amount); cbn; [reflexivity|].
    f_equal. apply IH.
Qed.

Lemma updateLevels_isEmpty (levels : list UiLadderLevel) (amount : float64) :
  isEmpty (updateLevels levels amount) = isEmpty levels.
Proof.
  destruct levels as [|l rest]; cbn; [reflexivity|].
  destruct (F64.geb (Quantity l) amount); reflexivity.
Qed.

Lemma populated_sides_are_never_flagged
  (h : Hoenix) (p : QuoteParams.t) (ladder : UiLadder) :
  F64.leb (QuoteParams.InAmount p) F64.zero = false ->
  F64.leb (adjustedAmount h p) F64.zero = false ->
  F64.gtb (snd (walk h p ladder)) F64.zero = false ->
  isEmpty (Asks ladder) = false -> isEmpty (Bids ladder) = false ->
  is_ok (fst (GetQuote h p ladder)) = true.
Proof.
  intros Hin Hadj Hleft Ha Hb.
  rewrite GetQuote_walk by assumption. rewrite Hleft. cbv zeta.
  unfold withWalked, walkedLevels.
  destruct (QuoteParams.AToB p); cbn [Asks Bids];
    rewrite updateLevels_isEmpty, Ha, Hb; reflexivity.
Qed.

(** C7: the check after the update looks at the number of levels of each
    side, which the update never changes: whenever both sides hold a level
    on entry and the walk succeeds, the quote is returned, whatever sizes
    the update leaves.  With a zero fee, a request for the whole ask side of
    [main]'s book (notional 470) succeeds and leaves every ask level at size
    zero, and no exhausted-ladder error is returned. *)
Theorem C7_depleted_side_is_not_flagged :
  (forall (h : Hoenix) (p : QuoteParams.t) (ladder : UiLadder),
     F64.leb (QuoteParams.InAmount p) F64.zero = false ->
     F64.leb (adjustedAmount h p) F64.zero = false ->
     F64.gtb (snd (walk h p ladder)) F64.zero = false ->
     isEmpty (Asks ladder) = false -> isEmpty (Bids ladder) = false ->
     is_ok (fst (GetQuote h p ladder)) = true) /\
  fst (GetQuote (hoenix F64.zero) (params (F64.of_Z 470) true) mainLadder)
    = Ok {| Quote.InAmount := F64.of_Z 470; Quote.OutAmount := F64.of_Z 17 |} /\
  noLiquidity
    (Asks (snd (GetQuote (hoenix F64.zero) (params (F64.of_Z 470) true)
                         mainLadder))) = true /\
  List.length
    (Asks (snd (GetQuote (hoenix F64.zero) (params (F64.of_Z 470) true)
                         mainLadder))) = 3%nat.
Proof.
  split; [exact populated_sides_are_never_flagged|].
  repeat split; vm_compute; reflexivity.
Qed.

Lemma C7_depleted_side_witness :
  is_ok (fst (GetQuote (hoenix F64.zero) (params (F64.of_Z 470) true)
                       mainLadder)) = true.
Proof.
  apply (proj1 C7_depleted_side_is_not_flagged (hoenix F64.zero)
           (params (F64.of_Z 470) true) mainLadder); vm_compute; reflexivity.
Defined.

(** C9: when the side opposite to the walked one has no levels and the walk
    fills the request, the walked side is written with the update, the quote
    is dropped and the exhausted-ladder error is returned; on [main]'s asks
    with no bids a request of 150 fails this way and leaves a ladder that
    differs from the one passed in. *)
Theorem C9_error_after_update :
  (forall (h : Hoenix) (p : QuoteParams.t) (ladder : UiLadder),
     F64.leb (QuoteParams.InAmount p) F64.zero = false ->
     F64.leb (adjustedAmount h p) F64.zero = false ->
     F64.gtb (snd (walk h p ladder)) F64.zero = false ->
     oppositeLevels ladder (QuoteParams.AToB p) = [] ->
     GetQuote h p ladder =
     (Err exhaustedLadder,
      withWalked ladder (QuoteParams.AToB p)
        (updateLevels (walkedLevels ladder (QuoteParams.AToB p))
                      (updateAmount h p ladder)))) /\
  GetQuote mainHoenix (params (F64.of_Z 150) true)
           {| Asks := Asks mainLadder; Bids := [] |} =
  (Err exhaustedLadder,
   {| Asks := {| Price := F64.of_Z 25;
                 Quantity := S754_finite false 4506975639085166 (-50) |}
                :: tl (Asks mainLadder);
      Bids := [] |}) /\
  map Quantity (Asks mainLadder) = [F64.of_Z 10; F64.of_Z 5; F64.of_Z 2].
Proof.
  split.
  - intros h p ladder Hin Hadj Hleft Hopp.
    rewrite GetQuote_walk by assumption. rewrite Hleft. cbv zeta.
    unfold withWalked, oppositeLevels in *.
    destruct (QuoteParams.AToB p); cbn [Asks Bids]; rewrite Hopp; cbn [isEmpty].
    + rewrite orb_true_r. reflexivity.
    + reflexivity.
  - split; vm_compute; reflexivity.
Qed.

Lemma C9_error_after_update_witness :
  GetQuote mainHoenix (params (F64.of_Z 7) false)
           {| Asks := []; Bids := Bids mainLadder |} =
  (Err exhaustedLadder,
   {| Asks := [];
      Bids := updateLevels (Bids mainLadder) (F64.of_Z 7) |}).
Proof.
  apply (proj1 C9_error_after_update mainHoenix (params (F64.of_Z 7) false)
           {| Asks := []; Bids := Bids mainLadder |}); vm_compute; reflexivity.
Defined.

(** ** The greedy walk, level by level *)

Lemma applyTakerFee_valid (amount takerFeeBps : float64) :
  F64.valid (applyTakerFee amount takerFeeBps) = true.
Proof. apply F64_facts.SFdiv_valid. Qed.

Lemma walkAsks_fill (l : UiLadderLevel) (rest : list UiLadderLevel)
  (out budget : float64) :
  F64.geb (F64.mul (Price l) (Quantity l)) budget = true ->
  walkAsks (l :: rest) out budget =
  (F64.add out (F64.div budget (Price l)), F64.zero).
Proof. intros H. cbn [walkAsks]. rewrite H. reflexivity. Qed.

Lemma walkAsks_consume (l : UiLadderLevel) (rest : list UiLadderLevel)
  (out budget : float64) :
  levelValid l = true -> F64.valid budget = true ->
  F64.geb (F64.mul (Price l) (Quantity l)) budget = false ->
  walkAsks (l :: rest) out budget =
  walkAsks rest (F64.add out (Quantity l))
           (F64.sub budget (F64.mul (Price l) (Quantity l))) /\
  F64.valid (F64.sub budget (F64.mul (Price l) (Quantity l))) = true.
Proof.
  intros Hl Hb H. apply andb_true_iff in Hl. destruct Hl as [Hp Hq].
  assert (Hpq : F64.valid (F64.mul (Price l) (Quantity l)) = true)
    by (apply F64_facts.SFmul_valid; assumption).
  split; [|apply F64_facts.SFsub_valid; assumption].
  cbn [walkAsks]. rewrite H.
  unfold F64.leb, F64.sub, F64.zero.
  rewrite F64_facts.SFsub_pos by assumption. reflexivity.
Qed.

Lemma walkBids_fill (l : UiLadderLevel) (rest : list UiLadderLevel)
  (out budget : float64) :
  F64.geb (Quantity l) budget = true ->
  walkBids (l :: rest) out budget =
  (F64.add out (F64.mul budget (Price l)), F64.zero).
Proof. intros H. cbn [walkBids]. rewrite H. reflexivity. Qed.

Lemma walkBids_consume (l : UiLadderLevel) (rest : list UiLadderLevel)
  (out budget : float64) :
  levelValid l = true -> F64.valid budget = true ->
  F64.geb (Quantity l) budget = false ->
  walkBids (l :: rest) out budget =
  walkBids rest (F64.add out (F64.mul (Quantity l) (Price l)))
           (F64.sub budget (Quantity l)) /\
  F64.valid (F64.sub budget (Quantity l)) = true.
Proof.
  intros Hl Hb H. apply andb_true_iff in Hl. destruct Hl as [Hp Hq].
  split; [|apply F64_facts.SFsub_valid; assumption].
  cbn [walkBids]. rewrite H.
  unfold F64.leb, F64.sub, F64.zero.
  rewrite F64_facts.SFsub_pos by assumption. reflexivity.
Qed.

Lemma main_ladder_first_quote :
  GetQuote mainHoenix (params (F64.of_Z 150) true) mainLadder =
  (Ok {| Quote.InAmount := F64.of_Z 150;
         Quote.OutAmount := S754_finite false 6752023429341074 (-50) |},
   {| Asks := {| Price := F64.of_Z 25;
                 Quantity := S754_finite false 4506975639085166 (-50) |}
                :: tl (Asks mainLadder);
      Bids := Bids mainLadder |}).
Proof. vm_compute. reflexivity. Qed.

Lemma walkAsks_greedy (asks : list UiLadderLevel) (out budget : float64) :
  forallb levelValid asks = true -> F64.valid budget = true ->
  walkAsks asks out budget = greedyAsks asks out budget.
Proof.
  revert out budget.
  induction asks as [|l rest IH]; intros out budget Hs Hb; [reflexivity|].
  cbn [forallb] in Hs. apply andb_true_iff in Hs. destruct Hs as [Hl Hrest].
  cbn [greedyAsks].
  destruct (F64.geb (F64.mul (Price l) (Quantity l)) budget) eqn:G.
  - apply walkAsks_fill. exact G.
  - destruct (walkAsks_consume l rest out budget Hl Hb G) as [-> Hv].
    apply IH; assumption.
Qed.

Lemma walkBids_greedy (bids : list UiLadderLevel) (out budget : float64) :
  forallb levelValid bids = true -> F64.valid budget = true ->
  walkBids bids out budget = greedyBids bids out budget.
Proof.
  revert out budget.
  induction bids as [|l rest IH]; intros out budget Hs Hb; [reflexivity|].
  cbn [forallb] in Hs. apply andb_true_iff in Hs. destruct Hs as [Hl Hrest].
  cbn [greedyBids].
  destruct (F64.geb (Quantity l) budget) eqn:G.
  - apply walkBids_fill. exact G.
  - destruct (walkBids_consume l rest out budget Hl Hb G) as [-> Hv].
    apply IH; assumption.
Qed.

Lemma calculateBase_greedy (asks : list UiLadderLevel) (budget : float64) :
  forallb levelValid asks = true -> F64.valid budget = true ->
  calculateBaseAmountFromQuoteBudget asks budget
  = walkResult (greedyAsks asks F64.zero budget).
Proof.
  intros Hs Hb. unfold calculateBaseAmountFromQuoteBudget, walkResult.
  rewrite walkAsks_greedy by assumption.
  destruct (greedyAsks asks F64.zero budget) as [o b]. cbn [fst snd].
  destruct (F64.gtb b F64.zero); reflexivity.
Qed.

Lemma calculateQuote_greedy (bids : list UiLadderLevel) (budget : float64) :
  forallb levelValid bids = true -> F64.valid budget = true ->
  calculateQuoteAmountFromBaseBudget bids budget
  = walkResult (greedyBids bids F64.zero budget).
Proof.
  intros Hs Hb. unfold calculateQuoteAmountFromBaseBudget, walkResult.
  rewrite walkBids_greedy by assumption.
  destruct (greedyBids bids F64.zero budget) as [o b]. cbn [fst snd].
  destruct (F64.gtb b F64.zero); reflexivity.
Qed.

Lemma walk_greedy (h : Hoenix) (p : QuoteParams.t) (ladder : UiLadder) :
  forallb levelValid (walkedLevels ladder (QuoteParams.AToB p)) = true ->
  walk h p ladder = greedy h p ladder.
Proof.
  intros Hs. unfold walk, greedy, walkedLevels in *.
  destruct (QuoteParams.AToB p);
    [apply walkAsks_greedy|apply walkBids_greedy];
    try assumption; apply applyTakerFee_valid.
Qed.

Lemma GetQuote_greedy (h : Hoenix) (p : QuoteParams.t) (ladder : UiLadder) :
  forallb levelValid (walkedLevels ladder (QuoteParams.AToB p)) = true ->
  F64.leb (QuoteParams.InAmount p) F64.zero = false ->
  F64.leb (adjustedAmount h p) F64.zero = false ->
  GetQuote h p ladder =
  if F64.gtb (snd (greedy h p ladder)) F64.zero then
    (Err insufficientLiquidity, ladder)
  else
    let ladder' :=
      withWalked ladder (QuoteParams.AToB p)
        (updateLevels (walkedLevels ladder (QuoteParams.AToB p))
           (if QuoteParams.AToB p then fst (greedy h p ladder)
            else QuoteParams.InAmount p)) in
    if isEmpty (Asks ladder') || isEmpty (Bids ladder') then
      (Err exhaustedLadder, ladder')
    else
      (Ok {| Quote.InAmount := QuoteParams.InAmount p;
             Quote.OutAmount := fst (greedy h p ladder) |},
       ladder').
Proof.
  intros Hs Hin Hadj.
  rewrite GetQuote_walk by assumption.
  unfold updateAmount. rewrite (walk_greedy h p ladder Hs). reflexivity.
Qed.

Lemma main_ladder_bid_quote :
  GetQuote mainHoenix (params (F64.of_Z 12) false) mainLadder =
  (Ok {| Quote.InAmount := F64.of_Z 12;
         Quote.OutAmount := S754_finite false 8089240569448857 (-45) |},
   {| Asks := Asks mainLadder;
      Bids := [{| Price := F64.of_Z 20; Quantity := F64.zero |};
               level 15 3; level 10 2] |}).
Proof. vm_compute. reflexivity. Qed.

(** C6: the walk is greedy in level order, in both directions.  For valid
    level data and a valid budget, [calculateBaseAmountFromQuoteBudget] and
    [calculateQuoteAmountFromBaseBudget] return what the greedy walk of the
    specification gives: its output, and the walk's error exactly when
    budget is left.  A quote whose input checks pass is decided by that
    walk: it fails when budget is left, and otherwise returns the greedy
    output (after the update of the walked side and the check of the level
    counts).  Level by level: on the ask side a level whose price times
    size reaches the remaining budget adds budget / price to the output,
    zeroes the budget and ends the walk; any other level adds its whole
    size, takes its notional off the budget, and the walk goes on with the
    next level; the bid side does the same with the size compared to the
    budget, budget times price (or size times price) added, and the size
    taken off the budget.  The walk of a quote starts from a valid budget
    and every budget it passes on is valid.  On the book of [main] with a
    fee of 5 bp, 150 units A to B take part of the level priced 25 only;
    12 units B to A consume the bid priced 20 and part of the bid priced
    15. *)
Theorem C6_walk_is_greedy :
  (forall asks budget,
     forallb levelValid asks = true -> F64.valid budget = true ->
     calculateBaseAmountFromQuoteBudget asks budget
     = walkResult (greedyAsks asks F64.zero budget)) /\
  (forall bids budget,
     forallb levelValid bids = true -> F64.valid budget = true ->
     calculateQuoteAmountFromBaseBudget bids budget
     = walkResult (greedyBids bids F64.zero budget)) /\
  (forall h p ladder,
     forallb levelValid (walkedLevels ladder (QuoteParams.AToB p)) = true ->
     F64.leb (QuoteParams.InAmount p) F64.zero = false ->
     F64.leb (adjustedAmount h p) F64.zero = false ->
     GetQuote h p ladder =
     if F64.gtb (snd (greedy h p ladder)) F64.zero then
       (Err insufficientLiquidity, ladder)
     else
       let ladder' :=
         withWalked ladder (QuoteParams.AToB p)
           (updateLevels (walkedLevels ladder (QuoteParams.AToB p))
              (if QuoteParams.AToB p then fst (greedy h p ladder)
               else QuoteParams.InAmount p)) in
       if isEmpty (Asks ladder') || isEmpty (Bids ladder') then
         (Err exhaustedLadder, ladder')
       else
         (Ok {| Quote.InAmount := QuoteParams.InAmount p;
                Quote.OutAmount := fst (greedy h p ladder) |},
          ladder')) /\
  (forall l rest out budget,
     F64.geb (F64.mul (Price l) (Quantity l)) budget = true ->
     walkAsks (l :: rest) out budget =
     (F64.add out (F64.div budget (Price l)), F64.zero)) /\
  (forall l rest out budget,
     levelValid l = true -> F64.valid budget = true ->
     F64.geb (F64.mul (Price l) (Quantity l)) budget = false ->
     walkAsks (l :: rest) out budget =
     walkAsks rest (F64.add out (Quantity l))
              (F64.sub budget (F64.mul (Price l) (Quantity l))) /\
     F64.valid (F64.sub budget (F64.mul (Price l) (Quantity l))) = true) /\
  (forall l rest out budget,
     F64.geb (Quantity l) budget = true ->
     walkBids (l :: rest) out budget =
     (F64.add out (F64.mul budget (Price l)), F64.zero)) /\
  (forall l rest out budget,
     levelValid l = true -> F64.valid budget = true ->
     F64.geb (Quantity l) budget = false ->
     walkBids (l :: rest) out budget =
     walkBids rest (F64.add out (F64.mul (Quantity l) (Price l)))
              (F64.sub budget (Quantity l)) /\
     F64.valid (F64.sub budget (Quantity l)) = true) /\
  (forall h p, F64.valid (adjustedAmount h p) = true) /\
  (exists out q',
     GetQuote mainHoenix (params (F64.of_Z 150) true) mainLadder =
     (Ok {| Quote.InAmount := F64.of_Z 150; Quote.OutAmount := out |},
      {| Asks := {| Price := F64.of_Z 25; Quantity := q' |}
                   :: tl (Asks mainLadder);
         Bids := Bids mainLadder |}) /\
     F64.gtb q' F64.zero = true /\
     F64.gtb (F64.of_Z 10) q' = true) /\
  (exists out,
     GetQuote mainHoenix (params (F64.of_Z 12) false) mainLadder =
     (Ok {| Quote.InAmount := F64.of_Z 12; Quote.OutAmount := out |},
      {| Asks := Asks mainLadder;
         Bids := [{| Price := F64.of_Z 20; Quantity := F64.zero |};
                  level 15 3; level 10 2] |}) /\
     out = F64.add (F64.mul (F64.of_Z 10) (F64.of_Z 20))
             (F64.mul (F64.sub (adjustedAmount mainHoenix
                                  (params (F64.of_Z 12) false))
                               (F64.of_Z 10))
                      (F64.of_Z 15)) /\
     F64.gtb out (F64.of_Z 229) = true /\
     F64.gtb (F64.of_Z 230) out = true).
Proof.
  split; [exact calculateBase_greedy|].
  split; [exact calculateQuote_greedy|].
  split; [exact GetQuote_greedy|].
  split; [exact walkAsks_fill|].
  split; [exact walkAsks_consume|].
  split; [exact walkBids_fill|].
  split; [exact walkBids_consume|].
  split; [intros h p; apply applyTakerFee_valid|].
  split.
  - eexists. eexists. split; [exact main_ladder_first_quote|].
    split; vm_compute; reflexivity.
  - eexists. split; [exact main_ladder_bid_quote|].
    repeat split; vm_compute; reflexivity.
Qed.

Lemma C6_walk_is_greedy_witness :
  calculateQuoteAmountFromBaseBudget (Bids mainLadder) (F64.of_Z 12)
  = walkResult (greedyBids (Bids mainLadder) F64.zero (F64.of_Z 12)).
Proof.
  apply (proj1 (proj2 C6_walk_is_greedy) (Bids mainLadder) (F64.of_Z 12));
    vm_compute; reflexivity.
Defined.

(** ** Sizes never grow *)

Lemma sizeOk_fields (l : UiLadderLevel) :
  sizeOk l = true ->
  F64.valid (Quantity l) = true /\ F64.is_finite (Quantity l) = true /\
  F64.nonneg (Quantity l) = true.
Proof.
  unfold sizeOk. rewrite !andb_true_iff. tauto.
Qed.

Lemma notLarger_refl (l : UiLadderLevel) : sizeOk l = true -> notLarger l l.
Proof.
  intros H. pose proof (sizeOk_fields l H) as (Hv & Hf & _).
  repeat split; [|exact H].
  apply F64_facts.SFleb_refl_finite; assumption.
Qed.

Lemma notLarger_refl_all (levels : list UiLadderLevel) :
  forallb sizeOk levels = true -> Forall2 notLarger levels levels.
Proof.
  induction levels as [|l rest IH]; cbn [forallb]; intros H; constructor.
  - apply andb_true_iff in H. apply notLarger_refl, H.
  - apply andb_true_iff in H. apply IH, H.
Qed.

Lemma updateLevels_notLarger (levels : list UiLadderLevel) (amount : float64) :
  forallb sizeOk levels = true ->
  F64.valid amount = true -> F64.nonneg amount = true ->
  Forall2 notLarger levels (updateLevels levels amount).
Proof.
  revert amount.
  induction levels as [|l rest IH]; intros amount Hs Hv Hn; cbn [updateLevels].
  - constructor.
  - cbn [forallb] in Hs. apply andb_true_iff in Hs. destruct Hs as [Hl Hrest].
    pose proof (sizeOk_fields l Hl) as (Hqv & Hqf & Hqn).
    destruct (F64.geb (Quantity l) amount) eqn:G; unfold F64.geb in G.
    + constructor; [|apply notLarger_refl_all; assumption].
      destruct (F64_facts.SFsub_size (Quantity l) amount) as [Hf' Hn'];
        try assumption.
      unfold notLarger, sizeOk. cbn [Price Quantity]. unfold F64.sub, F64.leb.
      rewrite F64_facts.SFsub_le_self by assumption.
      rewrite F64_facts.SFsub_valid by assumption.
      rewrite Hf', Hn'. repeat split.
    + constructor.
      * unfold notLarger, sizeOk. cbn [Price Quantity]. unfold F64.leb.
        rewrite F64_facts.zero_le_size by assumption. repeat split.
      * apply IH; [assumption| |].
        -- apply F64_facts.SFsub_valid; assumption.
        -- apply F64_facts.not_le_zero_nonneg, F64_facts.SFsub_pos; assumption.
Qed.

Lemma walkAsks_amount (asks : list UiLadderLevel) (out budget : float64) :
  forallb sizeOk asks = true ->
  F64.valid out = true -> F64.nonneg out = true ->
  F64.leb budget F64.zero = false ->
  F64.valid (fst (walkAsks asks out budget)) = true /\
  F64.nonneg (fst (walkAsks asks out budget)) = true.
Proof.
  revert out budget.
  induction asks as [|l rest IH]; intros out budget Hs Hv Hn Hb;
    cbn [walkAsks].
  - split; assumption.
  - cbn [forallb] in Hs. apply andb_true_iff in Hs. destruct Hs as [Hl Hrest].
    pose proof (sizeOk_fields l Hl) as (Hqv & Hqf & Hqn).
    destruct (F64.geb (F64.mul (Price l) (Quantity l)) budget) eqn:G;
      cbn [fst].
    + unfold F64.geb in G.
      assert (Hbp : F64.is_pos budget = true)
        by (eapply F64_facts.not_le_zero_is_pos; eassumption).
      assert (Hpq : F64.is_pos (F64.mul (Price l) (Quantity l)) = true)
        by (eapply F64_facts.is_pos_le; eassumption).
      assert (Hp : F64.is_pos (Price l) = true)
        by (eapply F64_facts.SFmul_sign; eassumption).
      split; unfold F64.add, F64.div; auto with f64.
    + assert (Hv' : F64.valid (F64.add out (Quantity l)) = true)
        by (unfold F64.add; auto with f64).
      assert (Hn' : F64.nonneg (F64.add out (Quantity l)) = true)
        by (unfold F64.add; auto with f64).
      destruct (F64.leb (F64.sub budget (F64.mul (Price l) (Quantity l)))
                        F64.zero) eqn:L; cbn [fst].
      * split; assumption.
      * apply IH; assumption.
Qed.


Lemma exactTotal_le (before after : list UiLadderLevel) :
  forallb sizeOk before = true ->
  Forall2 notLarger before after ->
  exactTotal after <= exactTotal before.
Proof.
  intros Hs H. induction H as [|b a bs as' (_ & Hle & Ha) Hrest IH];
    cbn [exactTotal map fold_right]; [lia|].
  cbn [forallb] in Hs. apply andb_true_iff in Hs. destruct Hs as [Hb Hbs].
  specialize (IH Hbs). unfold exactTotal in IH.
  pose proof (sizeOk_fields b Hb) as (Hbv & Hbf & _).
  pose proof (sizeOk_fields a Ha) as (Hav & Haf & _).
  unfold F64.leb in Hle. rewrite F64_facts.SFleb_scaled in Hle by assumption.
  apply Z.leb_le in Hle. lia.
Qed.


(** The update takes its amount off the levels, up to rounding. *)







End Phoenix_props.

(** * The pool: sequences of quotes, the first quote, the price *)

Module Pool_props.
Import Lifinity Lifinity_spec Lifinity_props.

Lemma GetQuote_err_state (oor : float64 -> Z) (l l' : LifinityLiquidity)
  (p : QuoteParams.t) (msg : string) :
  GetQuote oor l p = (Err msg, l') -> msg = poolError /\ l' = l.
Proof.
  rewrite GetQuote_unfold. cbv zeta.
  destruct ((afterIn l p =? 0) || (afterOut oor l p =? 0)); intros H.
  - injection H as <- <-. split; reflexivity.
  - discriminate.
Qed.

(** X1: on a pool whose constant is the exact product [a * b] of its
    constructor arguments (below 2^53), a quote fails exactly when an updated
    reserve would be zero: when the updated input reserve is zero or exceeds
    [a * b], the call returns the pool error and leaves the pool as it was;
    when the updated input reserve lies in [1, a * b], the call succeeds. *)
Theorem X1_pool_fails_exactly_when_a_reserve_would_be_zero
  (oor : float64 -> Z) (a b : Z) (l : LifinityLiquidity) (p : QuoteParams.t) :
  is_uint64 a -> is_uint64 b -> a * b < 2 ^ 53 ->
  _k l = _k (NewLifinityLiquidity a b) ->
  (afterIn l p = 0 \/ a * b < afterIn l p ->
   GetQuote oor l p = (Err poolError, l)) /\
  (0 < afterIn l p <= a * b -> is_ok (fst (GetQuote oor l p)) = true).
Proof.
  intros Ha Hb Hab Hk. rewrite K_of_constructed in Hk by assumption.
  assert (Hab0 : 0 <= a * b) by (unfold is_uint64 in *; nia).
  pose proof (afterIn_range l p) as Hr.
  rewrite GetQuote_unfold. cbv zeta. split.
  - intros [H0|Hgt].
    + rewrite H0. reflexivity.
    + rewrite (afterOut_exact oor l p (a * b)) by (assumption || lia).
      rewrite Z.div_small by lia. rewrite orb_true_r. reflexivity.
  - intros [Hpos Hle].
    rewrite (afterOut_exact oor l p (a * b)) by (assumption || lia).
    assert (1 <= a * b / afterIn l p)
      by (apply Z.div_le_lower_bound; lia).
    destruct (Z.eqb_spec (afterIn l p) 0); [lia|].
    destruct (Z.eqb_spec (a * b / afterIn l p) 0); [lia|].
    reflexivity.
Qed.

Lemma X1_pool_fails_witness :
  (afterIn (NewLifinityLiquidity 1000 20000) (params 10 true) = 0 \/
   1000 * 20000 < afterIn (NewLifinityLiquidity 1000 20000) (params 10 true) ->
   GetQuote oorDefault (NewLifinityLiquidity 1000 20000) (params 10 true)
     = (Err poolError, NewLifinityLiquidity 1000 20000)) /\
  (0 < afterIn (NewLifinityLiquidity 1000 20000) (params 10 true)
     <= 1000 * 20000 ->
   is_ok (fst (GetQuote oorDefault (NewLifinityLiquidity 1000 20000)
                 (params 10 true))) = true).
Proof.
  apply (X1_pool_fails_exactly_when_a_reserve_would_be_zero oorDefault 1000 20000
           (NewLifinityLiquidity 1000 20000) (params 10 true)).
  - split; [discriminate|reflexivity].
  - split; [discriminate|reflexivity].
  - reflexivity.
  - reflexivity.
Defined.

(** ** Sequences of quotes *)

Lemma GetQuote_keeps_invariant (oor : float64 -> Z) (k : Z)
  (l : LifinityLiquidity) (p : QuoteParams.t) :
  0 <= k < 2 ^ 53 ->
  _k l = F64.of_Z k ->
  is_uint64 (A l) -> is_uint64 (B l) -> A l * B l <= k ->
  let l' := snd (GetQuote oor l p) in
  _k l' = F64.of_Z k /\ is_uint64 (A l') /\ is_uint64 (B l') /\
  A l' * B l' <= k /\
  (0 < A l -> 0 < B l -> 0 < A l' /\ 0 < B l').
Proof.
  intros Hk HK HA HB Hprod l'.
  destruct (GetQuote oor l p) as [[q|msg] l0] eqn:E; subst l'; cbn [snd].
  - apply GetQuote_ok_state in E.
    destruct E as (Hin & Hout & Hk' & Hin0 & Hout0 & _).
    pose proof (afterIn_range l p) as Hr.
    pose proof (uint64_of_float_range oor
                  (F64.div (K l) (F64.of_Z (afterIn l p)))) as Hro.
    fold (afterOut oor l p) in Hro.
    pose proof (afterOut_exact oor l p k Hk HK Hin0) as Hex.
    assert (Hmul : afterIn l p * afterOut oor l p <= k).
    { rewrite Hex. apply Z.mul_div_le. lia. }
    unfold reserveIn, reserveOut, is_uint64 in *.
    destruct (QuoteParams.AToB p); rewrite Hin, Hout, Hk'.
    all: repeat split; try assumption; try lia.
  - apply GetQuote_err_state in E. destruct E as [_ ->].
    repeat split; try assumption; unfold is_uint64 in *; lia.
Qed.

Lemma runQuotes_invariant (oor : float64 -> Z) (k : Z)
  (ps : list QuoteParams.t) (l : LifinityLiquidity) :
  0 <= k < 2 ^ 53 ->
  _k l = F64.of_Z k ->
  is_uint64 (A l) -> is_uint64 (B l) -> A l * B l <= k ->
  let l' := runQuotes oor l ps in
  _k l' = F64.of_Z k /\ is_uint64 (A l') /\ is_uint64 (B l') /\
  A l' * B l' <= k /\
  (0 < A l -> 0 < B l -> 0 < A l' /\ 0 < B l').
Proof.
  intros Hk. revert l.
  induction ps as [|p ps IH]; intros l HK HA HB Hprod; cbn [runQuotes fold_left].
  - split; [assumption|]. split; [assumption|]. split; [assumption|].
    split; [assumption|]. intros; split; assumption.
  - destruct (GetQuote_keeps_invariant oor k l p Hk HK HA HB Hprod)
      as (HK' & HA' & HB' & Hprod' & Hpos').
    destruct (IH _ HK' HA' HB' Hprod') as (H1 & H2 & H3 & H4 & H5).
    fold (runQuotes oor (snd (GetQuote oor l p)) ps).
    split; [assumption|]. split; [assumption|]. split; [assumption|].
    split; [assumption|]. intros HA0 HB0.
    destruct (Hpos' HA0 HB0) as [HA1 HB1]. exact (H5 HA1 HB1).
Qed.

(** X2: after any sequence of quotes on a pool constructed from [a] and [b]
    with [a * b < 2^53], in any directions and whatever each call returns,
    the constant is the one fixed at construction, both reserves are unsigned
    64-bit values whose product is at most [a * b], and, when the pool was
    constructed with both reserves positive, neither reserve is zero. *)
Theorem X2_no_sequence_of_quotes_raises_the_product
  (oor : float64 -> Z) (a b : Z) (ps : list QuoteParams.t) :
  is_uint64 a -> is_uint64 b -> a * b < 2 ^ 53 ->
  let l := runQuotes oor (NewLifinityLiquidity a b) ps in
  _k l = _k (NewLifinityLiquidity a b) /\
  is_uint64 (A l) /\ is_uint64 (B l) /\
  A l * B l <= a * b /\
  (0 < a -> 0 < b -> 0 < A l /\ 0 < B l).
Proof.
  intros Ha Hb Hab l.
  rewrite K_of_constructed by assumption.
  apply runQuotes_invariant; cbn [NewLifinityLiquidity A B _k];
    try assumption; try lia.
  - unfold is_uint64 in *. nia.
  - change (F64.mul (F64.of_Z a) (F64.of_Z b))
      with (_k (NewLifinityLiquidity a b)).
    apply K_of_constructed; assumption.
Qed.

Lemma X2_sequence_of_quotes_witness :
  _k (runQuotes oorDefault (NewLifinityLiquidity 1000 20000)
        [params 10 true; params 500 false])
    = _k (NewLifinityLiquidity 1000 20000) /\
  is_uint64 (A (runQuotes oorDefault (NewLifinityLiquidity 1000 20000)
                  [params 10 true; params 500 false])) /\
  is_uint64 (B (runQuotes oorDefault (NewLifinityLiquidity 1000 20000)
                  [params 10 true; params 500 false])) /\
  A (runQuotes oorDefault (NewLifinityLiquidity 1000 20000)
       [params 10 true; params 500 false]) *
  B (runQuotes oorDefault (NewLifinityLiquidity 1000 20000)
       [params 10 true; params 500 false]) <= 1000 * 20000 /\
  (0 < 1000 -> 0 < 20000 ->
   0 < A (runQuotes oorDefault (NewLifinityLiquidity 1000 20000)
            [params 10 true; params 500 false]) /\
   0 < B (runQuotes oorDefault (NewLifinityLiquidity 1000 20000)
            [params 10 true; params 500 false])).
Proof.
  apply (X2_no_sequence_of_quotes_raises_the_product oorDefault 1000 20000
           [params 10 true; params 500 false]).
  - split; [discriminate|reflexivity].
  - split; [discriminate|reflexivity].
  - reflexivity.
Defined.

(** ** The first quote on a fresh pool *)

Lemma inputLessFee_pos (x : Z) : 1 <= x -> 1 <= inputLessFee x <= x.
Proof.
  intros Hx. unfold inputLessFee.
  pose proof (Z.div_mod x 200 ltac:(lia)).
  pose proof (Z.mod_pos_bound x 200 ltac:(lia)). lia.
Qed.

Lemma inputLessFee_mono (x y : Z) :
  0 <= x <= y -> inputLessFee x <= inputLessFee y.
Proof.
  intros H. unfold inputLessFee.
  pose proof (Z.div_mod x 200 ltac:(lia)).
  pose proof (Z.mod_pos_bound x 200 ltac:(lia)).
  pose proof (Z.div_mod y 200 ltac:(lia)).
  pose proof (Z.mod_pos_bound y 200 ltac:(lia)).
  pose proof (Z.div_le_mono x y 200 ltac:(lia) ltac:(lia)).
  lia.
Qed.

Lemma afterIn_exact (l : LifinityLiquidity) (x : Z) (aToB : bool) :
  0 <= reserveIn l aToB -> 0 <= x < 2 ^ 53 ->
  reserveIn l aToB + inputLessFee x < two64 ->
  afterIn l (params x aToB) = reserveIn l aToB + inputLessFee x.
Proof.
  intros Hr Hx Hlt.
  unfold afterIn, params. cbn [QuoteParams.AToB QuoteParams.InAmount].
  rewrite feeAmount_small by (unfold LifinityFeeRate, two64; lia).
  unfold sub64, add64. rewrite Zminus_mod_idemp_l.
  unfold inputLessFee in *.
  assert (0 <= x / 200 <= x).
  { split; [apply Z.div_pos; lia|].
    apply Z.div_le_upper_bound; lia. }
  replace (reserveIn l aToB + (x - x / 200))
    with (reserveIn l aToB + x - x / 200) by ring.
  apply Z.mod_small. lia.
Qed.

Lemma quote_on_exact_pool (oor : float64 -> Z) (k x : Z)
  (l : LifinityLiquidity) (aToB : bool) :
  0 <= k < 2 ^ 53 -> _k l = F64.of_Z k ->
  0 <= reserveIn l aToB -> 0 <= x < 2 ^ 53 ->
  let a' := reserveIn l aToB + inputLessFee x in
  1 <= a' <= k ->
  exists q l',
    GetQuote oor l (params x aToB) = (Ok q, l') /\
    Quote.InAmount q = x /\
    Quote.OutAmount q = sub64 (sub64 (reserveOut l aToB) (k / a')) 1 /\
    reserveIn l' aToB = a' /\ reserveOut l' aToB = k / a' /\
    _k l' = _k l.
Proof.
  intros Hk HK Hr Hx a' Ha'.
  assert (Hin : afterIn l (params x aToB) = a').
  { apply afterIn_exact; try assumption. fold a'. unfold two64. lia. }
  assert (Hout : afterOut oor l (params x aToB) = k / a').
  { pose proof (afterOut_exact oor l (params x aToB) k) as Hex.
    rewrite Hin in Hex. apply Hex; [assumption|assumption|lia]. }
  assert (HN : 1 <= k / a') by (apply Z.div_le_lower_bound; lia).
  rewrite GetQuote_unfold. cbv zeta. rewrite Hin, Hout.
  destruct (Z.eqb_spec a' 0); [lia|].
  destruct (Z.eqb_spec (k / a') 0); [lia|].
  cbn [orb]. eexists. eexists. split; [reflexivity|].
  cbn [Quote.InAmount Quote.OutAmount params QuoteParams.InAmount
       QuoteParams.AToB].
  split; [reflexivity|]. split; [reflexivity|].
  unfold reserveIn, reserveOut. destruct aToB; cbn [A B _k];
    repeat split; reflexivity.
Qed.

Lemma reserves_fresh (a b : Z) (aToB : bool) :
  reserveIn (NewLifinityLiquidity a b) aToB = (if aToB then a else b) /\
  reserveOut (NewLifinityLiquidity a b) aToB = (if aToB then b else a).
Proof. destruct aToB; split; reflexivity. Qed.

Lemma reserves_opposite (l : LifinityLiquidity) (aToB : bool) :
  reserveIn l (negb aToB) = reserveOut l aToB /\
  reserveOut l (negb aToB) = reserveIn l aToB.
Proof. destruct aToB; split; reflexivity. Qed.

Lemma first_quote (oor : float64 -> Z) (a b x : Z) (aToB : bool) :
  1 <= a -> 1 <= b -> a * b < 2 ^ 53 -> 1 <= x < 2 ^ 53 ->
  let rIn := if aToB then a else b in
  let rOut := if aToB then b else a in
  let a' := rIn + inputLessFee x in
  a' <= a * b ->
  exists q l',
    GetQuote oor (NewLifinityLiquidity a b) (params x aToB) = (Ok q, l') /\
    Quote.InAmount q = x /\
    Quote.OutAmount q = rOut - a * b / a' - 1 /\
    0 <= Quote.OutAmount q < rOut /\
    Quote.OutAmount q * a' < inputLessFee x * rOut
      <= (Quote.OutAmount q + 1) * a' /\
    reserveIn l' aToB = a' /\ reserveOut l' aToB = a * b / a'.
Proof.
  intros Ha Hb Hab Hx rIn rOut a' Hle.
  pose proof (inputLessFee_pos x ltac:(lia)) as He.
  assert (Hua : is_uint64 a) by (unfold is_uint64, two64; nia).
  assert (Hub : is_uint64 b) by (unfold is_uint64, two64; nia).
  assert (HrIn : 1 <= rIn) by (subst rIn; destruct aToB; lia).
  assert (HrOut : 1 <= rOut) by (subst rOut; destruct aToB; lia).
  assert (Hprod : a * b = rIn * rOut) by (subst rIn rOut; destruct aToB; ring).
  destruct (reserves_fresh a b aToB) as [Hri Hro].
  fold rIn in Hri. fold rOut in Hro.
  assert (Hab0 : 0 <= a * b) by nia.
  destruct (quote_on_exact_pool oor (a * b) x (NewLifinityLiquidity a b) aToB)
    as (q & l' & E & Hqi & Hqo & Hl1 & Hl2 & _).
  { lia. }
  { apply K_of_constructed; assumption. }
  { rewrite Hri. lia. }
  { lia. }
  { rewrite Hri. subst a'. lia. }
  rewrite Hri in Hl1, Hl2, Hqo. rewrite Hro in Hqo. fold a' in Hl1, Hl2, Hqo.
  pose proof (Z.div_mod (a * b) a' ltac:(lia)) as Hdm.
  pose proof (Z.mod_pos_bound (a * b) a' ltac:(lia)) as Hm.
  set (N := a * b / a') in *. set (r := (a * b) mod a') in *.
  assert (HN1 : 1 <= N) by (apply Z.div_le_lower_bound; lia).
  assert (HN2 : N < rOut).
  { assert (N * a' < rOut * a') by nia.
    apply (Z.mul_lt_mono_pos_r a'); lia. }
  assert (Hwrap : sub64 (sub64 rOut N) 1 = rOut - N - 1).
  { unfold sub64. rewrite Zminus_mod_idemp_l. apply Z.mod_small.
    unfold two64. assert (rOut < 2 ^ 53) by nia. lia. }
  rewrite Hwrap in Hqo.
  exists q, l'. split; [exact E|]. split; [exact Hqi|]. split; [exact Hqo|].
  rewrite Hqo. split; [lia|]. split; [subst a'; nia|].
  split; assumption.
Qed.

(** X3: the first quote on a pool constructed with positive reserves
    ([a * b < 2^53]) for an input [1 <= x < 2^53] whose updated input
    reserve [rIn + (x - x / 200)] does not exceed [a * b] succeeds without
    wrap-around: the output is [rOut - a * b / a' - 1], it lies in
    [0, rOut), and it is the largest integer strictly below the exact
    constant-product output [e * rOut / a'], where [e] is the input less the
    fee and [a'] the updated input reserve. *)
Theorem X3_first_quote_is_the_constant_product_output_less_one
  (oor : float64 -> Z) (a b x : Z) (aToB : bool) :
  1 <= a -> 1 <= b -> a * b < 2 ^ 53 -> 1 <= x < 2 ^ 53 ->
  let rIn := if aToB then a else b in
  let rOut := if aToB then b else a in
  let a' := rIn + inputLessFee x in
  a' <= a * b ->
  exists q l',
    GetQuote oor (NewLifinityLiquidity a b) (params x aToB) = (Ok q, l') /\
    Quote.InAmount q = x /\
    Quote.OutAmount q = rOut - a * b / a' - 1 /\
    0 <= Quote.OutAmount q < rOut /\
    Quote.OutAmount q * a' < inputLessFee x * rOut
      <= (Quote.OutAmount q + 1) * a' /\
    reserveIn l' aToB = a' /\ reserveOut l' aToB = a * b / a'.
Proof. exact (first_quote oor a b x aToB). Qed.

Lemma X3_first_quote_witness :
  exists q l',
    GetQuote oorDefault (NewLifinityLiquidity 1000 20000) (params 10 true)
      = (Ok q, l') /\
    Quote.InAmount q = 10 /\
    Quote.OutAmount q = 20000 - 1000 * 20000 / (1000 + inputLessFee 10) - 1 /\
    0 <= Quote.OutAmount q < 20000 /\
    Quote.OutAmount q * (1000 + inputLessFee 10) < inputLessFee 10 * 20000
      <= (Quote.OutAmount q + 1) * (1000 + inputLessFee 10) /\
    reserveIn l' true = 1000 + inputLessFee 10 /\
    reserveOut l' true = 1000 * 20000 / (1000 + inputLessFee 10).
Proof.
  apply (X3_first_quote_is_the_constant_product_output_less_one
           oorDefault 1000 20000 10 true); vm_compute; intuition discriminate.
Defined.

(** X4: on a freshly constructed pool the output amount is monotone in the
    input amount: when the quote for [y] succeeds, the quote for every
    [1 <= x <= y] succeeds and returns no more. *)
Theorem X4_output_grows_with_input
  (oor : float64 -> Z) (a b x y : Z) (aToB : bool)
  (qy : Quote.t) (ly : LifinityLiquidity) :
  1 <= a -> 1 <= b -> a * b < 2 ^ 53 -> 1 <= x <= y -> y < 2 ^ 53 ->
  GetQuote oor (NewLifinityLiquidity a b) (params y aToB) = (Ok qy, ly) ->
  exists qx lx,
    GetQuote oor (NewLifinityLiquidity a b) (params x aToB) = (Ok qx, lx) /\
    Quote.OutAmount qx <= Quote.OutAmount qy.
Proof.
  intros Ha Hb Hab Hxy Hy H.
  set (rIn := if aToB then a else b).
  assert (Hua : is_uint64 a) by (unfold is_uint64, two64; nia).
  assert (Hub : is_uint64 b) by (unfold is_uint64, two64; nia).
  assert (HrIn : 1 <= rIn < 2 ^ 53) by (subst rIn; destruct aToB; nia).
  pose proof (inputLessFee_pos x ltac:(lia)) as Hex.
  pose proof (inputLessFee_pos y ltac:(lia)) as Hey.
  pose proof (inputLessFee_mono x y ltac:(lia)) as Hmono.
  assert (Hiny : afterIn (NewLifinityLiquidity a b) (params y aToB)
                 = rIn + inputLessFee y).
  { rewrite afterIn_exact;
      rewrite ?(proj1 (reserves_fresh a b aToB)); fold rIn;
      try reflexivity; unfold two64; lia. }
  pose proof (GetQuote_ok_state _ _ _ _ _ H) as (_ & _ & _ & _ & Hout0 & _).
  rewrite (afterOut_exact oor _ _ (a * b)) in Hout0;
    [| lia | apply K_of_constructed; assumption | rewrite Hiny; lia].
  rewrite Hiny in Hout0.
  assert (Hley : rIn + inputLessFee y <= a * b).
  { destruct (Z_le_gt_dec (rIn + inputLessFee y) (a * b)) as [Hl|Hg];
      [exact Hl|].
    exfalso. apply Hout0. apply Z.div_small. lia. }
  destruct (first_quote oor a b y aToB Ha Hb Hab ltac:(lia) Hley)
    as (qy' & ly' & Ey & _ & Hoy & _).
  destruct (first_quote oor a b x aToB Ha Hb Hab ltac:(lia) ltac:(fold rIn; lia))
    as (qx & lx & Ex & _ & Hox & _).
  rewrite H in Ey. injection Ey as <- <-.
  exists qx, lx. split; [exact Ex|].
  rewrite Hox, Hoy. fold rIn.
  assert (a * b / (rIn + inputLessFee y) <= a * b / (rIn + inputLessFee x)).
  { apply Z.div_le_compat_l; lia. }
  lia.
Qed.

Lemma X4_output_grows_witness :
  exists qx lx,
    GetQuote oorDefault (NewLifinityLiquidity 1000 20000) (params 10 true)
      = (Ok qx, lx) /\
    Quote.OutAmount qx <= 1818.
Proof.
  apply (X4_output_grows_with_input oorDefault 1000 20000 10 100 true
           {| Quote.InAmount := 100; Quote.OutAmount := 1818;
              Quote.PriceImpactBP := 0 |}
           {| A := 1100; B := 18181; _k := F64.of_Z 20000000 |}).
  - lia.
  - lia.
  - reflexivity.
  - lia.
  - reflexivity.
  - vm_compute. reflexivity.
Defined.

(** X5: a round trip loses: when the first quote on a freshly constructed
    pool returns a positive output, quoting that output back in the
    opposite direction on the updated pool succeeds, does not wrap around,
    and returns strictly less than the original input. *)
Theorem X5_round_trip_returns_less_than_it_took
  (oor : float64 -> Z) (a b x : Z) (aToB : bool)
  (q1 : Quote.t) (l1 : LifinityLiquidity) :
  1 <= a -> 1 <= b -> a * b < 2 ^ 53 -> 1 <= x < 2 ^ 53 ->
  GetQuote oor (NewLifinityLiquidity a b) (params x aToB) = (Ok q1, l1) ->
  1 <= Quote.OutAmount q1 ->
  exists q2 l2,
    GetQuote oor l1 (params (Quote.OutAmount q1) (negb aToB)) = (Ok q2, l2) /\
    0 <= Quote.OutAmount q2 < x.
Proof.
  intros Ha Hb Hab Hx H Hq1.
  set (rIn := if aToB then a else b).
  set (rOut := if aToB then b else a).
  assert (Hua : is_uint64 a) by (unfold is_uint64, two64; nia).
  assert (Hub : is_uint64 b) by (unfold is_uint64, two64; nia).
  assert (HrIn : 1 <= rIn < 2 ^ 53) by (subst rIn; destruct aToB; nia).
  assert (HrOut : 1 <= rOut < 2 ^ 53) by (subst rOut; destruct aToB; nia).
  assert (Hprod : a * b = rIn * rOut) by (subst rIn rOut; destruct aToB; ring).
  pose proof (inputLessFee_pos x ltac:(lia)) as He.
  assert (Hin : afterIn (NewLifinityLiquidity a b) (params x aToB)
                = rIn + inputLessFee x).
  { rewrite afterIn_exact;
      rewrite ?(proj1 (reserves_fresh a b aToB)); fold rIn;
      try reflexivity; unfold two64; lia. }
  pose proof (GetQuote_ok_state _ _ _ _ _ H) as (_ & _ & Hk1 & _ & Hout0 & Hq).
  rewrite (afterOut_exact oor _ _ (a * b)) in Hout0, Hq;
    [| lia | apply K_of_constructed; assumption | rewrite Hin; lia
     | lia | apply K_of_constructed; assumption | rewrite Hin; lia].
  rewrite Hin in Hout0, Hq.
  cbn [params QuoteParams.AToB] in Hq.
  rewrite (proj2 (reserves_fresh a b aToB)) in Hq. fold rOut in Hq.
  assert (Hle : rIn + inputLessFee x <= a * b).
  { destruct (Z_le_gt_dec (rIn + inputLessFee x) (a * b)) as [Hl|Hg];
      [exact Hl|].
    exfalso. apply Hout0. apply Z.div_small. lia. }
  destruct (first_quote oor a b x aToB Ha Hb Hab Hx Hle)
    as (q1' & l1' & E1 & _ & Ho1 & Hr1 & _ & Hl1a & Hl1b).
  rewrite H in E1. injection E1 as <- <-.
  fold rIn rOut in Ho1, Hr1, Hl1a, Hl1b.
  set (a' := rIn + inputLessFee x) in *.
  pose proof (Z.div_mod (a * b) a' ltac:(lia)) as Hdm.
  pose proof (Z.mod_pos_bound (a * b) a' ltac:(lia)) as Hm.
  set (N := a * b / a') in *. set (r := (a * b) mod a') in *.
  assert (HN1 : 1 <= N) by (apply Z.div_le_lower_bound; lia).
  set (y := Quote.OutAmount q1) in *.
  pose proof (inputLessFee_pos y ltac:(lia)) as He2.
  destruct (reserves_opposite l1 aToB) as [Hop1 Hop2].
  rewrite Hl1b in Hop1. rewrite Hl1a in Hop2.
  assert (Hab0 : 0 <= a * b) by nia.
  destruct (quote_on_exact_pool oor (a * b) y l1 (negb aToB))
    as (q2 & l2 & E2 & _ & Ho2 & _).
  { lia. }
  { rewrite Hk1. apply K_of_constructed; assumption. }
  { rewrite Hop1. lia. }
  { lia. }
  { rewrite Hop1. split; [lia|]. nia. }
  rewrite Hop1, Hop2 in Ho2.
  set (b2 := N + inputLessFee y) in *.
  assert (Hb2 : 1 <= b2 < rOut) by (subst b2; lia).
  assert (Hlow : rIn <= a * b / b2).
  { apply Z.div_le_lower_bound; [lia|]. rewrite Hprod. nia. }
  assert (Hhigh : a * b / b2 < a').
  { apply Z.div_lt_upper_bound; [lia|]. subst b2. nia. }
  assert (Hwrap : sub64 (sub64 a' (a * b / b2)) 1 = a' - a * b / b2 - 1).
  { unfold sub64. rewrite Zminus_mod_idemp_l. apply Z.mod_small.
    unfold two64. subst a'. lia. }
  rewrite Hwrap in Ho2.
  exists q2, l2. split; [exact E2|]. rewrite Ho2. subst a'. lia.
Qed.

Lemma X5_round_trip_witness :
  exists q2 l2,
    GetQuote oorDefault {| A := 1100; B := 18181; _k := F64.of_Z 20000000 |}
      (params 1818 (negb true)) = (Ok q2, l2) /\
    0 <= Quote.OutAmount q2 < 100.
Proof.
  apply (X5_round_trip_returns_less_than_it_took oorDefault 1000 20000 100 true
           {| Quote.InAmount := 100; Quote.OutAmount := 1818;
              Quote.PriceImpactBP := 0 |}
           {| A := 1100; B := 18181; _k := F64.of_Z 20000000 |}).
  - lia.
  - lia.
  - reflexivity.
  - lia.
  - vm_compute. reflexivity.
  - cbn. lia.
Defined.

(** ** The price *)

(** X6: [Price] is the quotient of the two reserves converted to binary64,
    the input side of the direction over the output side; it never fails:
    it is a positive finite number when both reserves are positive, plus
    infinity when only the output side is empty, plus zero when only the
    input side is empty, and NaN when both are. *)
Theorem X6_price_of_an_empty_reserve_is_not_an_error
  (l : LifinityLiquidity) (aToB : bool) :
  is_uint64 (A l) -> is_uint64 (B l) ->
  let n := reserveIn l aToB in
  let d := reserveOut l aToB in
  Price l aToB = F64.div (F64.of_Z n) (F64.of_Z d) /\
  (0 < n -> 0 < d -> exists m e, Price l aToB = S754_finite false m e) /\
  (0 < n -> d = 0 -> Price l aToB = S754_infinity false) /\
  (n = 0 -> 0 < d -> Price l aToB = S754_zero false) /\
  (n = 0 -> d = 0 -> Price l aToB = S754_nan).
Proof.
  intros HA HB n d.
  assert (E : Price l aToB = F64.div (F64.of_Z n) (F64.of_Z d)).
  { subst n d. unfold Price, reserveIn, reserveOut.
    destruct aToB; reflexivity. }
  assert (Hn : 0 <= n < 2 ^ 64)
    by (subst n; unfold reserveIn, is_uint64, two64 in *; destruct aToB; lia).
  assert (Hd : 0 <= d < 2 ^ 64)
    by (subst d; unfold reserveOut, is_uint64, two64 in *; destruct aToB; lia).
  rewrite E. clearbody n d. clear E. split; [reflexivity|].
  repeat split.
  - intros Hn0 Hd0. apply F64_facts.SFdiv_of_Z_finite; lia.
  - intros Hn0 ->.
    destruct (F64_facts.of_Z_normal n ltac:(lia)) as (m & e & _ & -> & _).
    reflexivity.
  - intros -> Hd0.
    destruct (F64_facts.of_Z_normal d ltac:(lia)) as (m & e & _ & -> & _).
    reflexivity.
  - intros -> ->. reflexivity.
Qed.

Lemma X6_price_witness :
  Price (NewLifinityLiquidity 0 20000) true
    = F64.div (F64.of_Z 0) (F64.of_Z 20000) /\
  (0 < 0 -> 0 < 20000 ->
   exists m e, Price (NewLifinityLiquidity 0 20000) true
               = S754_finite false m e) /\
  (0 < 0 -> 20000 = 0 ->
   Price (NewLifinityLiquidity 0 20000) true = S754_infinity false) /\
  (0 = 0 -> 0 < 20000 ->
   Price (NewLifinityLiquidity 0 20000) true = S754_zero false) /\
  (0 = 0 -> 20000 = 0 ->
   Price (NewLifinityLiquidity 0 20000) true = S754_nan).
Proof.
  apply (X6_price_of_an_empty_reserve_is_not_an_error
           (NewLifinityLiquidity 0 20000) true).
  - split; [discriminate|reflexivity].
  - split; [discriminate|reflexivity].
Defined.

End Pool_props.

(** * Division by one, and by a divisor that is at least one *)

Module F64_division.
Import F64 F64_facts Phoenix_spec.

Lemma valid_canonical (s : bool) (m : positive) (e : Z) :
  valid (S754_finite s m e) = true ->
  fexp prec emax (Zdigits2 (Zpos m) + e) = e /\ e <= 971.
Proof.
  unfold valid, valid_binary, bounded, canonical_mantissa.
  intros H. apply andb_true_iff in H. destruct H as [H1 H2].
  apply Z.eqb_eq in H1. apply Z.leb_le in H2.
  split; [exact H1|exact H2].
Qed.

Lemma SFdiv_one (x : spec_float) :
  valid x = true -> SFdiv prec emax x one = x.
Proof.
  intros Hv. destruct x as [s|s| |s m e]; cbn [SFdiv one];
    try (destruct s; reflexivity); try reflexivity.
  rewrite xorb_false_r.
  pose proof (valid_canonical s m e Hv) as [Hc He].
  pose proof (valid_finite_bounds s m e Hv) as (Hm & Hb & Hn).
  rewrite SFdiv_core_eq.
  pose proof (SFdiv_core_bounds m (2 ^ 52) e (-52)) as [Hq Hle].
  cbv zeta in Hq, Hle |- *.
  change (Zdigits2 (Z.pos (2 ^ 52))) with 53 in *.
  pose proof (Zdigits2_pos (Zpos m) ltac:(lia)) as Hd0.
  assert (Hd : Zdigits2 (Zpos m) <= 53) by (apply Zdigits2_le; lia).
  set (d := Zdigits2 (Zpos m)) in *.
  rewrite fexp_eq in Hc.
  set (e' := Z.min (fexp prec emax (d + e - (53 + -52))) (e - -52)) in *.
  assert (He' : e' = Z.max (d + e - 54) (-1074))
    by (subst e'; rewrite fexp_eq; lia).
  set (k := e - e').
  assert (Hk : 0 <= k) by (subst k; lia).
  replace (e - -52 - e') with (52 + k) in * by (subst k; lia).
  assert (Hpow : Z.pos m * 2 ^ (52 + k) = (Z.pos m * 2 ^ k) * 2 ^ 52).
  { rewrite Z.pow_add_r by lia. ring. }
  change (Z.pos (2 ^ 52)) with (2 ^ 52) in *.
  rewrite Hpow in *.
  rewrite Z.div_mul in * by lia. rewrite Z.mod_mul by lia.
  change (new_location (2 ^ 52) 0) with loc_Exact.
  rewrite binary_round_aux_cases by assumption.
  assert (Hdig : Zdigits2 (Z.pos m * 2 ^ k) = d + k)
    by (apply Zdigits2_mul_pow2; lia).
  rewrite Hdig in *.
  replace (d + k + e') with (d + e) in * by (subst k; lia).
  rewrite fexp_eq.
  replace (Z.max (d + e - 53) (-1074)) with e by lia.
  fold k. rewrite Z.div_mul by (apply Z.pow_nonzero; lia).
  unfold shr_fexp. rewrite Hdig.
  replace (d + k + e') with (d + e) by (subst k; lia).
  rewrite fexp_eq.
  replace (Z.max (d + e - 53) (-1074) - e') with k by (subst k; lia).
  rewrite shr_exact by lia. cbn [fst loc_of_shr_record shr_r shr_s].
  cbn [round_nearest_even].
  unfold round_result.
  destruct (Z.eqb_spec (Z.pos m) 0); [lia|].
  destruct (Z.eqb_spec (Z.pos m) (2 ^ 53)); [lia|].
  change (emax - prec) with 971.
  destruct (Z.leb_spec e 971); [|lia].
  reflexivity.
Qed.

(** ** A divisor that is at least one *)

Lemma new_location_zero (d : Z) : new_location d 0 = loc_Exact.
Proof.
  unfold new_location, new_location_even, new_location_odd.
  destruct (Z.even d); reflexivity.
Qed.

Lemma SFdiv_le_self (mx my : positive) (ex ey : Z) :
  valid (S754_finite false mx ex) = true ->
  valid (S754_finite false my ey) = true ->
  2 ^ 1074 <= Zpos my * 2 ^ (ey + 1074) ->
  SFleb (SFdiv prec emax (S754_finite false mx ex) (S754_finite false my ey))
        (S754_finite false mx ex) = true.
Proof.
  intros Hvx Hvy Hy1.
  pose proof (valid_canonical _ _ _ Hvx) as [Hcx Hex].
  pose proof (valid_finite_bounds _ _ _ Hvx) as (Hmx & Hbx & _).
  pose proof (valid_finite_bounds _ _ _ Hvy) as (Hmy & Hby & _).
  rewrite fexp_eq in Hcx.
  pose proof (Zdigits2_pos (Zpos mx) ltac:(lia)) as Hdx0.
  assert (Hdx : Zdigits2 (Zpos mx) <= 53) by (apply Zdigits2_le; lia).
  pose proof (Zdigits2_bounds (Zpos my) ltac:(lia)) as [_ Hdyu].
  set (dx := Zdigits2 (Zpos mx)) in *. set (dy := Zdigits2 (Zpos my)) in *.
  (* the divisor is at least one *)
  assert (Hey : -52 <= ey).
  { destruct (Z_lt_ge_dec ey (-52)) as [Hlt|]; [|lia]. exfalso.
    assert (2 ^ (ey + 1074) <= 2 ^ 1021) by (apply Z.pow_le_mono_r; lia).
    assert (0 < 2 ^ (ey + 1074)) by (apply Z.pow_pos_nonneg; lia).
    assert (Z.pos my * 2 ^ (ey + 1074) < 2 ^ 53 * 2 ^ 1021) by nia.
    change (2 ^ 53 * 2 ^ 1021) with (2 ^ 1074) in *. lia. }
  assert (HY : 2 ^ 52 <= Zpos my * 2 ^ (ey + 52)).
  { replace (ey + 1074) with ((ey + 52) + 1022) in Hy1 by lia.
    rewrite Z.pow_add_r in Hy1 by lia.
    change (2 ^ 1074) with (2 ^ 52 * 2 ^ 1022) in Hy1.
    rewrite Z.mul_assoc in Hy1.
    apply Z.mul_le_mono_pos_r in Hy1; [exact Hy1|reflexivity]. }
  assert (Hdy : 1 <= dy + ey).
  { destruct (Z_lt_ge_dec (dy + ey) 1) as [Hlt|]; [|lia]. exfalso.
    assert (0 <= dy) by (subst dy; apply Zdigits2_nonneg).
    assert (Z.pos my * 2 ^ (ey + 52) < 2 ^ dy * 2 ^ (ey + 52)).
    { apply Z.mul_lt_mono_pos_r; [apply Z.pow_pos_nonneg; lia|lia]. }
    rewrite <- Z.pow_add_r in H0 by lia.
    assert (2 ^ (dy + (ey + 52)) <= 2 ^ 52) by (apply Z.pow_le_mono_r; lia).
    lia. }
  cbn [SFdiv xorb]. rewrite SFdiv_core_eq.
  pose proof (SFdiv_core_bounds mx my ex ey) as [Hq Hle].
  cbv zeta in Hq, Hle |- *. fold dx dy in Hq, Hle |- *.
  set (e' := Z.min (fexp prec emax (dx + ex - (dy + ey))) (ex - ey)) in *.
  assert (He'x : e' <= ex) by (subst e'; rewrite fexp_eq; lia).
  assert (He'y : e' <= ex - ey) by (subst e'; lia).
  set (t := ex - ey - e') in *.
  assert (Ht : 0 <= t) by (subst t; lia).
  set (m' := Z.pos mx * 2 ^ t) in *.
  pose proof (Z.div_mod m' (Zpos my) ltac:(lia)) as Hdm.
  pose proof (Z.mod_pos_bound m' (Zpos my) ltac:(lia)) as Hr.
  set (mz := m' / Z.pos my) in *. set (r := m' mod Z.pos my) in *.
  set (X := Zpos mx * 2 ^ (ex - e')).
  assert (HX0 : 0 < X) by (subst X; apply Z.mul_pos_pos; [lia|apply Z.pow_pos_nonneg; lia]).
  assert (HXm : X * 2 ^ 52 = m' * 2 ^ (ey + 52)).
  { subst X m'. rewrite <- !Z.mul_assoc, <- !Z.pow_add_r by lia.
    f_equal. f_equal. subst t. lia. }
  set (P := 2 ^ (ey + 52)) in *.
  assert (HP : 0 < P) by (subst P; apply Z.pow_pos_nonneg; lia).
  assert (Hmain : mz * (Zpos my * P) + r * P = X * 2 ^ 52).
  { rewrite HXm, Hdm. ring. }
  assert (HmzX : mz <= X) by nia.
  assert (Hexact : mz = X -> r = 0) by (intros ->; nia).
  (* the exponent of the quotient is at most the one of the dividend *)
  assert (HdX : Zdigits2 X = dx + (ex - e'))
    by (subst X; apply Zdigits2_mul_pow2; lia).
  assert (Hdmz : Zdigits2 mz <= dx + (ex - e')).
  { rewrite <- HdX. pose proof (Zdigits2_bounds X HX0) as [_ Hu].
    apply Zdigits2_le; [apply Zdigits2_nonneg|lia]. }
  rewrite binary_round_aux_cases by assumption.
  pose proof (round_ok_of_aux mz e' (new_location (Zpos my) r) Hq Hle) as Hok.
  set (E := fexp prec emax (Zdigits2 mz + e')) in *.
  assert (HE : E <= ex) by (subst E; rewrite fexp_eq; lia).
  set (n := E - e') in *.
  assert (Hn : 0 <= n) by (subst n; lia).
  assert (Hpn : 0 < 2 ^ n) by (apply Z.pow_pos_nonneg; lia).
  set (G := Zpos mx * 2 ^ (ex - E)).
  assert (HXG : X = G * 2 ^ n).
  { subst X G. rewrite <- Z.mul_assoc, <- Z.pow_add_r by lia.
    f_equal. f_equal. subst n. lia. }
  assert (HqG : mz / 2 ^ n <= G).
  { rewrite <- (Z.div_mul G (2 ^ n)) by lia. rewrite <- HXG.
    apply Z.div_le_mono; lia. }
  set (loc := loc_of_shr_record
                (fst (shr_fexp prec emax mz e' (new_location (Z.pos my) r)))) in *.
  assert (Hm2 : round_nearest_even (mz / 2 ^ n) loc <= G).
  { destruct (Z_lt_ge_dec (mz / 2 ^ n) G) as [Hlt|Hge].
    - destruct (round_nearest_even_cases (mz / 2 ^ n) loc) as [->| ->]; lia.
    - assert (HqEq : mz / 2 ^ n = G) by lia.
      pose proof (Z.mul_div_le mz (2 ^ n) Hpn) as Hfl.
      assert (Hmz : mz = G * 2 ^ n) by nia.
      assert (Hr0 : r = 0) by (apply Hexact; lia).
      assert (Hloc : loc = loc_Exact).
      { subst loc. rewrite Hr0, new_location_zero.
        unfold shr_fexp. fold E. fold n. rewrite Hmz.
        rewrite shr_exact by (subst G; lia). reflexivity. }
      rewrite Hloc, HqEq. cbn. lia. }
  set (m2 := round_nearest_even (mz / 2 ^ n) loc) in *.
  assert (Hsx : Zpos mx * 2 ^ (ex + 1074) = G * 2 ^ (E + 1074)).
  { subst G. rewrite <- Z.mul_assoc, <- Z.pow_add_r by (unfold round_ok in Hok; lia).
    f_equal. f_equal. lia. }
  assert (HpE : 0 < 2 ^ (E + 1074))
    by (apply Z.pow_pos_nonneg; unfold round_ok in Hok; lia).
  assert (Hbound : Zpos mx * 2 ^ (ex + 1074) < 2 ^ 2098).
  { change (2 ^ 2098) with (2 ^ 53 * 2 ^ 2045).
    assert (2 ^ (ex + 1074) <= 2 ^ 2045) by (apply Z.pow_le_mono_r; lia).
    assert (0 < 2 ^ (ex + 1074)) by (apply Z.pow_pos_nonneg; lia).
    nia. }
  assert (Hle2 : m2 * 2 ^ (E + 1074) <= Zpos mx * 2 ^ (ex + 1074)).
  { rewrite Hsx. apply Z.mul_le_mono_nonneg_r; lia. }
  pose proof (round_result_scaled false m2 E Hok) as Hs.
  destruct (Z.ltb_spec (m2 * 2 ^ (E + 1074)) (2 ^ 2098)); [|lia].
  destruct Hs as [Hf Hs].
  rewrite SFleb_scaled;
    [|apply round_result_valid; exact Hok|exact Hvx|exact Hf|reflexivity].
  rewrite Hs. cbn [scaled cond_Zopp]. apply Z.leb_le. exact Hle2.
Qed.

Lemma rounding_of_ge_pow2 (k W : Z) (r : spec_float) :
  0 <= k -> 2 ^ k <= W -> rounding_of W r ->
  r = S754_infinity false \/ (is_finite r = true /\ 2 ^ k <= scaled r).
Proof.
  intros Hk HW. unfold rounding_of.
  assert (Hpk : 0 < 2 ^ k) by (apply Z.pow_pos_nonneg; lia).
  destruct (Z.eqb_spec W 0); [lia|].
  destruct (Z.ltb_spec W 0); [lia|].
  rewrite Z.abs_eq by lia.
  set (d := Zdigits2 W). set (sh := Z.max (d - 53) 0).
  intros (m2 & Hok & Hm & ->).
  assert (Hd : k + 1 <= d).
  { subst d. apply Zdigits2_ge; [|lia]. replace (k + 1 - 1) with k by lia. lia. }
  pose proof (Zdigits2_bounds W ltac:(lia)) as [Hl _]. fold d in Hl.
  assert (Hsh : 0 <= sh <= d - 1) by (subst sh; lia).
  assert (Hp : 0 < 2 ^ sh) by (apply Z.pow_pos_nonneg; lia).
  assert (Hsplit : 2 ^ (d - 1) = 2 ^ (d - 1 - sh) * 2 ^ sh).
  { rewrite <- Z.pow_add_r by lia. f_equal. lia. }
  assert (Hfl : 2 ^ (d - 1 - sh) <= W / 2 ^ sh).
  { apply Z.div_le_lower_bound; [assumption|]. lia. }
  assert (Hkd : 2 ^ k <= 2 ^ (d - 1)) by (apply Z.pow_le_mono_r; lia).
  assert (Hge : 2 ^ k <= m2 * 2 ^ sh) by nia.
  pose proof (round_result_scaled false m2 (sh - 1074) Hok) as Hs.
  replace (sh - 1074 + 1074) with sh in Hs by lia.
  destruct (Z.ltb_spec (m2 * 2 ^ sh) (2 ^ 2098)).
  - right. destruct Hs as [Hf Hs]. split; [exact Hf|].
    rewrite Hs. cbn [cond_Zopp]. exact Hge.
  - left. exact Hs.
Qed.

(** The quotient of a fee that is not below zero: zero, a positive number,
    or plus infinity. *)
Lemma SFdiv_fee_shape (fee : spec_float) (my : positive) (ey : Z) :
  valid fee = true -> SFleb (S754_zero false) fee = true ->
  let z := SFdiv prec emax fee (S754_finite false my ey) in
  (exists s, z = S754_zero s) \/ z = S754_infinity false \/
  (exists m e, z = S754_finite false m e /\ valid z = true).
Proof.
  intros Hv Hle z.
  assert (Hvz : valid z = true) by apply SFdiv_valid.
  destruct fee as [s|[]| |[] m e]; try discriminate.
  - left. exists (xorb s false). reflexivity.
  - right. left. reflexivity.
  - subst z. cbn [SFdiv xorb] in *. rewrite SFdiv_core_eq in *.
    pose proof (SFdiv_core_bounds m my e ey) as [Hq Hb].
    cbv zeta in *.
    rewrite binary_round_aux_cases in * by assumption.
    match goal with
    | |- context [round_result false ?a ?b] =>
        pose proof (round_result_shape false a b) as Hs;
        destruct (round_result false a b) as [s'|s'| |s' m' e'] eqn:R
    end.
    + left. exists s'. reflexivity.
    + right. left. destruct Hs as [-> _]. reflexivity.
    + contradiction.
    + right. right. destruct Hs as [-> _]. exists m', e'.
      split; [reflexivity|exact Hvz].
Qed.

(** [1 + z] for such a quotient: at least one, or plus infinity. *)
Lemma one_plus_shape (z : spec_float) :
  (exists s, z = S754_zero s) \/ z = S754_infinity false \/
  (exists m e, z = S754_finite false m e /\ valid z = true) ->
  let y := SFadd prec emax one z in
  y = S754_infinity false \/
  exists my ey, y = S754_finite false my ey /\ valid y = true /\
                2 ^ 1074 <= Zpos my * 2 ^ (ey + 1074).
Proof.
  intros [[s ->]|[->|(m & e & -> & Hv)]] y; subst y.
  - right. exists (2 ^ 52)%positive, (-52). repeat split. destruct s; reflexivity.
  - left. reflexivity.
  - pose proof (valid_finite_bounds _ _ _ Hv) as (_ & He & _).
    pose proof (SFadd_finite_rounding false false (2 ^ 52) m (-52) e
                  ltac:(lia) ltac:(lia)) as Hr.
    fold one in Hr.
    set (y := SFadd prec emax one (S754_finite false m e)) in *.
    assert (HW : 2 ^ 1074 <= scaled one + scaled (S754_finite false m e)).
    { change (scaled one) with (2 ^ 1074). cbn [scaled cond_Zopp].
      assert (0 < 2 ^ (e + 1074)) by (apply Z.pow_pos_nonneg; lia). nia. }
    pose proof (rounding_of_valid _ _ Hr) as Hvy.
    assert (Hpos : is_pos y = true).
    { eapply rounding_of_pos; [|exact Hr].
      assert (0 < 2 ^ 1074) by reflexivity. lia. }
    destruct (rounding_of_ge_pow2 1074 _ _ ltac:(lia) HW Hr) as [E|[Hf Hs]].
    + left. exact E.
    + right. destruct y as [s|s| |s my ey]; try discriminate.
      destruct s; [discriminate|].
      exists my, ey. split; [reflexivity|]. split; [exact Hvy|exact Hs].
Qed.

End F64_division.

(** * The ladder: outcomes of a call, sequences of calls, edge inputs *)

Module Ladder_props.
Import Phoenix Phoenix_spec Phoenix_props.

Lemma withWalked_same (ladder : UiLadder) (aToB : bool) :
  withWalked ladder aToB (walkedLevels ladder aToB) = ladder.
Proof. destruct ladder, aToB; reflexivity. Qed.

(** The ladder a call leaves, whatever it returns. *)
Lemma GetQuote_cases (h : Hoenix) (p : QuoteParams.t) (ladder : UiLadder) :
  let aToB := QuoteParams.AToB p in
  let updated :=
    withWalked ladder aToB
      (updateLevels (walkedLevels ladder aToB) (updateAmount h p ladder)) in
  GetQuote h p ladder = (Err invalidInput, ladder) /\
    F64.leb (QuoteParams.InAmount p) F64.zero = true
  \/
  GetQuote h p ladder
    = (Err (if aToB then quoteUnitsError else baseUnitsError), ladder) /\
    F64.leb (QuoteParams.InAmount p) F64.zero = false /\
    F64.leb (adjustedAmount h p) F64.zero = true
  \/
  F64.leb (QuoteParams.InAmount p) F64.zero = false /\
  F64.leb (adjustedAmount h p) F64.zero = false /\
  (GetQuote h p ladder = (Err insufficientLiquidity, ladder) /\
     F64.gtb (snd (walk h p ladder)) F64.zero = true
   \/
   F64.gtb (snd (walk h p ladder)) F64.zero = false /\
   (GetQuote h p ladder = (Err exhaustedLadder, updated) /\
      isEmpty (Asks ladder) || isEmpty (Bids ladder) = true
    \/
    GetQuote h p ladder
      = (Ok {| Quote.InAmount := QuoteParams.InAmount p;
               Quote.OutAmount := fst (walk h p ladder) |}, updated) /\
      isEmpty (Asks ladder) = false /\ isEmpty (Bids ladder) = false)).
Proof.
  intros aToB updated.
  destruct (F64.leb (QuoteParams.InAmount p) F64.zero) eqn:Hin.
  { left. split; [|reflexivity].
    unfold GetQuote, getExpectedOutAmount. rewrite Hin. reflexivity. }
  right.
  destruct (F64.leb (adjustedAmount h p) F64.zero) eqn:Hadj.
  { left. split; [|split; reflexivity].
    unfold GetQuote, getExpectedOutAmount. rewrite Hin.
    unfold adjustedAmount in Hadj. subst aToB.
    destruct (QuoteParams.AToB p); cbn [negb];
      unfold getBaseUnitsOutFromQuoteUnitsIn, getQuoteUnitsOutFromBaseUnitsIn;
      rewrite Hadj; reflexivity. }
  right. split; [reflexivity|]. split; [reflexivity|].
  rewrite GetQuote_walk by assumption.
  destruct (F64.gtb (snd (walk h p ladder)) F64.zero) eqn:Hleft.
  { left. split; reflexivity. }
  right. split; [reflexivity|]. cbv zeta. fold aToB. fold updated.
  assert (Ea : isEmpty (Asks updated) = isEmpty (Asks ladder)).
  { subst updated. unfold withWalked, walkedLevels.
    destruct aToB; cbn [Asks]; [apply updateLevels_isEmpty|reflexivity]. }
  assert (Eb : isEmpty (Bids updated) = isEmpty (Bids ladder)).
  { subst updated. unfold withWalked, walkedLevels.
    destruct aToB; cbn [Bids]; [reflexivity|apply updateLevels_isEmpty]. }
  rewrite Ea, Eb.
  destruct (isEmpty (Asks ladder)) eqn:Ha; cbn [orb].
  { left. split; reflexivity. }
  destruct (isEmpty (Bids ladder)) eqn:Hb.
  { left. split; reflexivity. }
  right. repeat split.
Qed.

(** X7: every error of the ladder's [GetQuote] carries one of five messages;
    the message of the walk itself never surfaces (it is replaced); the
    quote-units error occurs only in direction A to B and the base-units
    error only in direction B to A; and every error other than the
    exhausted-ladder one leaves the ladder as it was. *)
Theorem X7_only_the_exhausted_ladder_error_follows_an_update
  (h : Hoenix) (p : QuoteParams.t) (ladder : UiLadder) (msg : string) :
  fst (GetQuote h p ladder) = Err msg ->
  In msg [invalidInput; quoteUnitsError; baseUnitsError;
          insufficientLiquidity; exhaustedLadder] /\
  msg <> walkError /\
  (msg = quoteUnitsError -> QuoteParams.AToB p = true) /\
  (msg = baseUnitsError -> QuoteParams.AToB p = false) /\
  (msg <> exhaustedLadder -> snd (GetQuote h p ladder) = ladder).
Proof.
  intros H.
  destruct (GetQuote_cases h p ladder)
    as [[E _]|[[E _]|(_ & _ & [[E _]|(_ & [[E _]|[E _]])])]];
    rewrite E in H |- *; cbn [fst snd] in *; try discriminate;
    injection H as <-.
  - repeat split; cbn; auto; try discriminate.
  - destruct (QuoteParams.AToB p); repeat split; cbn; auto; try discriminate.
  - repeat split; cbn; auto; try discriminate.
  - repeat split; cbn; auto 6; try discriminate.
    intros Hc. contradiction Hc. reflexivity.
Qed.

Lemma X7_errors_witness :
  In insufficientLiquidity
     [invalidInput; quoteUnitsError; baseUnitsError;
      insufficientLiquidity; exhaustedLadder] /\
  insufficientLiquidity <> walkError /\
  (insufficientLiquidity = quoteUnitsError ->
   QuoteParams.AToB (params (F64.of_Z 1000) true) = true) /\
  (insufficientLiquidity = baseUnitsError ->
   QuoteParams.AToB (params (F64.of_Z 1000) true) = false) /\
  (insufficientLiquidity <> exhaustedLadder ->
   snd (GetQuote mainHoenix (params (F64.of_Z 1000) true) mainLadder)
     = mainLadder).
Proof.
  apply (X7_only_the_exhausted_ladder_error_follows_an_update
           mainHoenix (params (F64.of_Z 1000) true) mainLadder
           insufficientLiquidity).
  vm_compute. reflexivity.
Defined.

(** X8: the ladder's [GetQuote] returns a quote if and only if the input
    amount does not compare [<= 0], the fee-adjusted amount does not compare
    [<= 0], the budget the walk leaves does not compare [> 0], and both
    sides of the ladder hold at least one level. *)
Theorem X8_a_quote_is_returned_exactly_when_every_check_passes
  (h : Hoenix) (p : QuoteParams.t) (ladder : UiLadder) :
  is_ok (fst (GetQuote h p ladder)) = true <->
  F64.leb (QuoteParams.InAmount p) F64.zero = false /\
  F64.leb (adjustedAmount h p) F64.zero = false /\
  F64.gtb (snd (walk h p ladder)) F64.zero = false /\
  isEmpty (Asks ladder) = false /\ isEmpty (Bids ladder) = false.
Proof.
  destruct (GetQuote_cases h p ladder)
    as [[E C]|[[E (C1 & C2)]|(C1 & C2 & [[E C3]|(C3 & [[E C4]|[E (C4 & C5)]])])]];
    rewrite E; cbn [fst is_ok]; split; intros H; try discriminate.
  - destruct H as (H & _). congruence.
  - destruct H as (_ & H & _). congruence.
  - destruct H as (_ & _ & H & _). congruence.
  - destruct H as (_ & _ & _ & Ha & Hb). rewrite Ha, Hb in C4. discriminate.
  - repeat split; assumption.
  - reflexivity.
Qed.

(** ** What no call changes *)

Lemma updateLevels_prices (levels : list UiLadderLevel) (amount : float64) :
  map Price (updateLevels levels amount) = map Price levels.
Proof.
  revert amount. induction levels as [|l rest IH]; intros amount;
    cbn [updateLevels map]; [reflexivity|].
  destruct (F64.geb (Quantity l) amount); cbn [map Price]; [reflexivity|].
  f_equal. apply IH.
Qed.

Lemma GetQuote_ladder (h : Hoenix) (p : QuoteParams.t) (ladder : UiLadder) :
  snd (GetQuote h p ladder) = ladder \/
  F64.leb (QuoteParams.InAmount p) F64.zero = false /\
  F64.leb (adjustedAmount h p) F64.zero = false /\
  snd (GetQuote h p ladder) =
    withWalked ladder (QuoteParams.AToB p)
      (updateLevels (walkedLevels ladder (QuoteParams.AToB p))
                    (updateAmount h p ladder)).
Proof.
  destruct (GetQuote_cases h p ladder)
    as [[E _]|[[E _]|(C1 & C2 & [[E _]|(_ & [[E _]|[E _]])])]];
    rewrite E; cbn [snd]; auto.
Qed.

(** X9: whatever a call returns, the ladder it leaves has the same prices
    in the same order and the same number of levels on both sides, and the
    side opposite to the walked one is unchanged. *)
Theorem X9_no_call_changes_a_price_a_level_count_or_the_other_side
  (h : Hoenix) (p : QuoteParams.t) (ladder : UiLadder) :
  let ladder' := snd (GetQuote h p ladder) in
  map Price (Asks ladder') = map Price (Asks ladder) /\
  map Price (Bids ladder') = map Price (Bids ladder) /\
  List.length (Asks ladder') = List.length (Asks ladder) /\
  List.length (Bids ladder') = List.length (Bids ladder) /\
  oppositeLevels ladder' (QuoteParams.AToB p)
    = oppositeLevels ladder (QuoteParams.AToB p).
Proof.
  intros ladder'. subst ladder'.
  destruct (GetQuote_ladder h p ladder) as [->|(_ & _ & ->)].
  - repeat split.
  - unfold withWalked, walkedLevels, oppositeLevels.
    destruct (QuoteParams.AToB p); cbn [Asks Bids];
      rewrite ?updateLevels_prices, ?updateLevels_length; repeat split.
Qed.

(** ** A walked side without levels *)

(** X10: a quote against a walked side without levels fails for every
    input amount and fee, NaN included, and leaves the ladder as it was. *)
Theorem X10_an_empty_walked_side_always_fails_and_changes_nothing
  (h : Hoenix) (p : QuoteParams.t) (ladder : UiLadder) :
  walkedLevels ladder (QuoteParams.AToB p) = [] ->
  exists msg, GetQuote h p ladder = (Err msg, ladder).
Proof.
  intros Hw.
  destruct (GetQuote_cases h p ladder)
    as [[E _]|[[E _]|(C1 & C2 & [[E _]|(_ & [[E _]|[E (Ha & Hb)]])])]].
  - eexists; exact E.
  - eexists; exact E.
  - eexists; exact E.
  - rewrite Hw in E. cbn [updateLevels] in E. rewrite <- Hw in E.
    rewrite withWalked_same in E. eexists; exact E.
  - exfalso. unfold walkedLevels in Hw.
    destruct (QuoteParams.AToB p); rewrite Hw in *; discriminate.
Qed.

Lemma X10_empty_walked_side_witness :
  exists msg,
    GetQuote mainHoenix (params (F64.of_Z 150) true)
             {| Asks := []; Bids := Bids mainLadder |}
    = (Err msg, {| Asks := []; Bids := Bids mainLadder |}).
Proof.
  apply (X10_an_empty_walked_side_always_fails_and_changes_nothing
           mainHoenix (params (F64.of_Z 150) true)
           {| Asks := []; Bids := Bids mainLadder |}).
  reflexivity.
Defined.

(** ** An input that is not a number *)

Lemma walkAsks_nan (asks : list UiLadderLevel) (out : float64) :
  walkAsks asks out S754_nan
  = (fold_left F64.add (map Quantity asks) out, S754_nan).
Proof.
  revert out. induction asks as [|l rest IH]; intros out;
    cbn [walkAsks map fold_left]; [reflexivity|].
  assert (G : F64.geb (F64.mul (Price l) (Quantity l)) S754_nan = false).
  { unfold F64.geb, SFleb, SFcompare. reflexivity. }
  rewrite G.
  assert (S : F64.sub S754_nan (F64.mul (Price l) (Quantity l)) = S754_nan)
    by reflexivity.
  rewrite S. cbn [F64.leb]. unfold F64.leb at 1. cbn. apply IH.
Qed.

Lemma walkBids_nan (bids : list UiLadderLevel) (out : float64) :
  walkBids bids out S754_nan
  = (fold_left F64.add
       (map (fun l => F64.mul (Quantity l) (Price l)) bids) out, S754_nan).
Proof.
  revert out. induction bids as [|l rest IH]; intros out;
    cbn [walkBids map fold_left]; [reflexivity|].
  assert (G : F64.geb (Quantity l) S754_nan = false).
  { unfold F64.geb, SFleb, SFcompare. reflexivity. }
  rewrite G.
  assert (S : F64.sub S754_nan (Quantity l) = S754_nan) by reflexivity.
  rewrite S. unfold F64.leb at 1. cbn. apply IH.
Qed.

Lemma updateLevels_nan (levels : list UiLadderLevel) :
  updateLevels levels S754_nan = map emptied levels.
Proof.
  induction levels as [|l rest IH]; cbn [updateLevels map]; [reflexivity|].
  assert (G : F64.geb (Quantity l) S754_nan = false).
  { unfold F64.geb, SFleb, SFcompare. reflexivity. }
  rewrite G.
  assert (S : F64.sub S754_nan (Quantity l) = S754_nan) by reflexivity.
  rewrite S, IH. reflexivity.
Qed.

(** X11: a NaN input amount passes every check: on a ladder with a level on
    both sides the call succeeds for every fee; in direction A to B it
    returns the float sum of all ask sizes and takes that amount off the
    asks; in direction B to A it returns the float sum of the notionals of
    all bids and writes every bid size to zero. *)
Theorem X11_an_input_that_is_not_a_number_takes_the_whole_side
  (h : Hoenix) (ladder : UiLadder) (aToB : bool) :
  isEmpty (Asks ladder) = false -> isEmpty (Bids ladder) = false ->
  GetQuote h (params S754_nan aToB) ladder =
  (Ok {| Quote.InAmount := S754_nan;
         Quote.OutAmount := if aToB then totalSize (Asks ladder)
                            else totalNotional (Bids ladder) |},
   if aToB then
     {| Asks := updateLevels (Asks ladder) (totalSize (Asks ladder));
        Bids := Bids ladder |}
   else {| Asks := Asks ladder; Bids := map emptied (Bids ladder) |}).
Proof.
  intros Ha Hb.
  destruct (GetQuote_cases h (params S754_nan aToB) ladder)
    as [[_ C]|[(_ & _ & C)|(_ & _ & [[_ C]|(_ & [[_ C]|[E _]])])]].
  - discriminate.
  - discriminate.
  - exfalso. revert C. unfold walk, adjustedAmount, applyTakerFee.
    cbn [params QuoteParams.AToB QuoteParams.InAmount].
    change (F64.div S754_nan ?x) with S754_nan.
    destruct aToB; rewrite ?walkAsks_nan, ?walkBids_nan; discriminate.
  - rewrite Ha, Hb in C. discriminate.
  - rewrite E. unfold updateAmount, walk, adjustedAmount, applyTakerFee.
    cbn [params QuoteParams.AToB QuoteParams.InAmount].
    change (F64.div S754_nan ?x) with S754_nan.
    unfold totalSize, totalNotional, withWalked, walkedLevels.
    destruct aToB; rewrite ?walkAsks_nan, ?walkBids_nan; cbn [fst];
      rewrite ?updateLevels_nan; reflexivity.
Qed.

Lemma X11_not_a_number_witness :
  GetQuote mainHoenix (params S754_nan true) mainLadder =
  (Ok {| Quote.InAmount := S754_nan;
         Quote.OutAmount := totalSize (Asks mainLadder) |},
   {| Asks := updateLevels (Asks mainLadder) (totalSize (Asks mainLadder));
      Bids := Bids mainLadder |}).
Proof.
  apply (X11_an_input_that_is_not_a_number_takes_the_whole_side
           mainHoenix mainLadder true); reflexivity.
Defined.

(** ** Levels behind the one that fills the request *)

Lemma walkAsks_tail (l1 l2 : list UiLadderLevel) (out budget : float64) :
  F64.leb budget F64.zero = false ->
  F64.leb (snd (walkAsks l1 out budget)) F64.zero = true ->
  walkAsks (l1 ++ l2) out budget = walkAsks l1 out budget.
Proof.
  revert out budget.
  induction l1 as [|l rest IH]; intros out budget Hb Hend.
  - cbn [walkAsks snd] in Hend. congruence.
  - cbn [app walkAsks] in *.
    destruct (F64.geb (F64.mul (Price l) (Quantity l)) budget);
      [reflexivity|].
    destruct (F64.leb (F64.sub budget (F64.mul (Price l) (Quantity l)))
                      F64.zero) eqn:L; [reflexivity|].
    apply IH; assumption.
Qed.

Lemma walkBids_tail (l1 l2 : list UiLadderLevel) (out budget : float64) :
  F64.leb budget F64.zero = false ->
  F64.leb (snd (walkBids l1 out budget)) F64.zero = true ->
  walkBids (l1 ++ l2) out budget = walkBids l1 out budget.
Proof.
  revert out budget.
  induction l1 as [|l rest IH]; intros out budget Hb Hend.
  - cbn [walkBids snd] in Hend. congruence.
  - cbn [app walkBids] in *.
    destruct (F64.geb (Quantity l) budget); [reflexivity|].
    destruct (F64.leb (F64.sub budget (Quantity l)) F64.zero) eqn:L;
      [reflexivity|].
    apply IH; assumption.
Qed.

Lemma GetQuote_ok_full (h : Hoenix) (p : QuoteParams.t)
  (ladder ladder' : UiLadder) (q : Quote.t) :
  GetQuote h p ladder = (Ok q, ladder') ->
  q = {| Quote.InAmount := QuoteParams.InAmount p;
         Quote.OutAmount := fst (walk h p ladder) |} /\
  F64.leb (QuoteParams.InAmount p) F64.zero = false /\
  F64.leb (adjustedAmount h p) F64.zero = false /\
  F64.gtb (snd (walk h p ladder)) F64.zero = false /\
  isEmpty (Asks ladder) = false /\ isEmpty (Bids ladder) = false.
Proof.
  intros H.
  destruct (GetQuote_cases h p ladder)
    as [[E _]|[[E _]|(C1 & C2 & [[E _]|(C3 & [[E _]|[E (C4 & C5)]])])]];
    rewrite E in H; try discriminate.
  injection H as <- _. repeat split; assumption.
Qed.

(** X12: levels behind the one that fills the request are not read: when a
    quote succeeds with a budget left that compares [<= 0], the same
    request on the ladder with further levels appended to the walked side
    walks to the same result and returns the same quote. *)
Theorem X12_levels_behind_the_fill_do_not_change_the_quote
  (h : Hoenix) (p : QuoteParams.t) (ladder : UiLadder)
  (deeper : list UiLadderLevel) (q : Quote.t) (ladder' : UiLadder) :
  let aToB := QuoteParams.AToB p in
  let extended :=
    withWalked ladder aToB (walkedLevels ladder aToB ++ deeper) in
  F64.leb (snd (walk h p ladder)) F64.zero = true ->
  GetQuote h p ladder = (Ok q, ladder') ->
  walk h p extended = walk h p ladder /\
  fst (GetQuote h p extended) = Ok q.
Proof.
  intros aToB extended Hend H.
  apply GetQuote_ok_full in H.
  destruct H as (-> & Hin & Hadj & Hleft & Ha & Hb).
  assert (Hw : walk h p extended = walk h p ladder).
  { subst extended. unfold walk, withWalked, walkedLevels in *.
    fold aToB in Hend |- *.
    destruct aToB; cbn [Asks Bids];
      [apply walkAsks_tail|apply walkBids_tail]; assumption. }
  split; [exact Hw|].
  destruct (GetQuote_cases h p extended)
    as [[_ C]|[(_ & _ & C)|(_ & _ & [[_ C]|(_ & [[_ C]|[E _]])])]];
    try congruence.
  - subst extended. exfalso.
    unfold withWalked, walkedLevels in C. fold aToB in C.
    destruct aToB; cbn [Asks Bids] in C.
    + rewrite Hb, orb_false_r in C. destruct (Asks ladder); discriminate.
    + rewrite Ha in C. cbn [orb] in C. destruct (Bids ladder); discriminate.
  - rewrite E. cbn [fst]. rewrite Hw. reflexivity.
Qed.

Lemma X12_levels_behind_witness :
  walk mainHoenix (params (F64.of_Z 150) true)
       (withWalked mainLadder true
          (walkedLevels mainLadder true ++ [level 40 7]))
    = walk mainHoenix (params (F64.of_Z 150) true) mainLadder /\
  fst (GetQuote mainHoenix (params (F64.of_Z 150) true)
         (withWalked mainLadder true
            (walkedLevels mainLadder true ++ [level 40 7])))
    = Ok {| Quote.InAmount := F64.of_Z 150;
            Quote.OutAmount := S754_finite false 6752023429341074 (-50) |}.
Proof.
  apply (X12_levels_behind_the_fill_do_not_change_the_quote
           mainHoenix (params (F64.of_Z 150) true) mainLadder [level 40 7]
           {| Quote.InAmount := F64.of_Z 150;
              Quote.OutAmount := S754_finite false 6752023429341074 (-50) |}
           (snd (GetQuote mainHoenix (params (F64.of_Z 150) true) mainLadder))).
  - vm_compute. reflexivity.
  - vm_compute. reflexivity.
Defined.

(** ** Sizes over a sequence of calls *)

Lemma notLarger_trans (a b c : UiLadderLevel) :
  sizeOk a = true -> notLarger a b -> notLarger b c -> notLarger a c.
Proof.
  intros Ha (Hp1 & Hl1 & Hb) (Hp2 & Hl2 & Hc).
  pose proof (sizeOk_fields a Ha) as (Hav & Haf & _).
  pose proof (sizeOk_fields b Hb) as (Hbv & Hbf & _).
  pose proof (sizeOk_fields c Hc) as (Hcv & Hcf & _).
  split; [congruence|]. split; [|exact Hc].
  unfold F64.leb in *.
  rewrite F64_facts.SFleb_scaled in * by assumption.
  apply Z.leb_le in Hl1. apply Z.leb_le in Hl2. apply Z.leb_le. lia.
Qed.

Lemma notLarger_trans_all (xs ys zs : list UiLadderLevel) :
  forallb sizeOk xs = true ->
  Forall2 notLarger xs ys -> Forall2 notLarger ys zs ->
  Forall2 notLarger xs zs.
Proof.
  intros Hs H. revert zs Hs.
  induction H as [|x y xs ys Hxy Hrest IH]; intros zs Hs Hyz.
  - inversion Hyz. constructor.
  - inversion Hyz as [|y' z ys' zs' Hyz1 Hyz2]; subst.
    cbn [forallb] in Hs. apply andb_true_iff in Hs. destruct Hs as [Hx Hxs].
    constructor; [eapply notLarger_trans; eassumption|].
    apply IH; assumption.
Qed.

Lemma notLarger_sizeOk (xs ys : list UiLadderLevel) :
  Forall2 notLarger xs ys -> forallb sizeOk ys = true.
Proof.
  induction 1 as [|x y xs ys (_ & _ & Hy) _ IH]; cbn [forallb];
    [reflexivity|].
  rewrite Hy, IH. reflexivity.
Qed.

Lemma GetQuote_notLarger (h : Hoenix) (p : QuoteParams.t) (ladder : UiLadder) :
  forallb sizeOk (Asks ladder) = true ->
  forallb sizeOk (Bids ladder) = true ->
  F64.valid (QuoteParams.InAmount p) = true ->
  Forall2 notLarger (Asks ladder) (Asks (snd (GetQuote h p ladder))) /\
  Forall2 notLarger (Bids ladder) (Bids (snd (GetQuote h p ladder))).
Proof.
  intros Ha Hb Hv.
  destruct (GetQuote_ladder h p ladder) as [->|(Hin & Hadj & ->)].
  - split; apply notLarger_refl_all; assumption.
  - assert (Hamount : F64.valid (updateAmount h p ladder) = true /\
                      F64.nonneg (updateAmount h p ladder) = true).
    { unfold updateAmount, walk.
      destruct (QuoteParams.AToB p).
      - apply walkAsks_amount; [assumption|reflexivity|reflexivity|assumption].
      - split; [assumption|].
        apply F64_facts.not_le_zero_nonneg. exact Hin. }
    destruct Hamount as [Hav Han].
    unfold withWalked, walkedLevels.
    destruct (QuoteParams.AToB p); cbn [Asks Bids]; split;
      try (apply notLarger_refl_all; assumption);
      apply updateLevels_notLarger; assumption.
Qed.

Lemma runLadderQuotes_notLarger (h : Hoenix) (ps : list QuoteParams.t)
  (ladder : UiLadder) :
  forallb sizeOk (Asks ladder) = true ->
  forallb sizeOk (Bids ladder) = true ->
  Forall (fun p => F64.valid (QuoteParams.InAmount p) = true) ps ->
  Forall2 notLarger (Asks ladder) (Asks (runLadderQuotes h ladder ps)) /\
  Forall2 notLarger (Bids ladder) (Bids (runLadderQuotes h ladder ps)).
Proof.
  revert ladder.
  induction ps as [|p ps IH]; intros ladder Ha Hb Hps;
    cbn [runLadderQuotes fold_left].
  - split; apply notLarger_refl_all; assumption.
  - inversion Hps as [|p' ps' Hp Hrest]; subst.
    destruct (GetQuote_notLarger h p ladder Ha Hb Hp) as [Sa Sb].
    fold (runLadderQuotes h (snd (GetQuote h p ladder)) ps).
    destruct (IH (snd (GetQuote h p ladder))
                 (notLarger_sizeOk _ _ Sa) (notLarger_sizeOk _ _ Sb) Hrest)
      as [Ra Rb].
    split; eapply notLarger_trans_all; eassumption.
Qed.

(** X13: over any sequence of calls with valid input amounts, in any
    directions and whatever each call returns, on a ladder whose sizes are
    valid, finite and non-negative: every level of both sides keeps its
    price and ends with a size that is not larger than at the start and is
    again valid, finite and non-negative; the exact total size of neither
    side grows. *)
Theorem X13_no_sequence_of_calls_grows_a_size
  (h : Hoenix) (ps : list QuoteParams.t) (ladder : UiLadder) :
  forallb sizeOk (Asks ladder) = true ->
  forallb sizeOk (Bids ladder) = true ->
  Forall (fun p => F64.valid (QuoteParams.InAmount p) = true) ps ->
  Forall2 notLarger (Asks ladder) (Asks (runLadderQuotes h ladder ps)) /\
  Forall2 notLarger (Bids ladder) (Bids (runLadderQuotes h ladder ps)) /\
  exactTotal (Asks (runLadderQuotes h ladder ps)) <= exactTotal (Asks ladder) /\
  exactTotal (Bids (runLadderQuotes h ladder ps)) <= exactTotal (Bids ladder).
Proof.
  intros Ha Hb Hps.
  destruct (runLadderQuotes_notLarger h ps ladder Ha Hb Hps) as [Ra Rb].
  split; [exact Ra|]. split; [exact Rb|].
  split; apply exactTotal_le; assumption.
Qed.

Lemma X13_sequence_witness :
  Forall2 notLarger (Asks mainLadder)
    (Asks (runLadderQuotes mainHoenix mainLadder
             [params (F64.of_Z 150) true; params (F64.of_Z 50) true;
              params (F64.of_Z 3) false])) /\
  Forall2 notLarger (Bids mainLadder)
    (Bids (runLadderQuotes mainHoenix mainLadder
             [params (F64.of_Z 150) true; params (F64.of_Z 50) true;
              params (F64.of_Z 3) false])) /\
  exactTotal (Asks (runLadderQuotes mainHoenix mainLadder
             [params (F64.of_Z 150) true; params (F64.of_Z 50) true;
              params (F64.of_Z 3) false])) <= exactTotal (Asks mainLadder) /\
  exactTotal (Bids (runLadderQuotes mainHoenix mainLadder
             [params (F64.of_Z 150) true; params (F64.of_Z 50) true;
              params (F64.of_Z 3) false])) <= exactTotal (Bids mainLadder).
Proof.
  apply (X13_no_sequence_of_calls_grows_a_size mainHoenix
           [params (F64.of_Z 150) true; params (F64.of_Z 50) true;
            params (F64.of_Z 3) false] mainLadder).
  - reflexivity.
  - reflexivity.
  - repeat constructor.
Defined.

(** ** The amount a quote returns *)

Lemma SFmul_nonneg (x y : float64) :
  F64.nonneg x = true -> F64.nonneg y = true ->
  F64.nonneg (F64.mul x y) = true.
Proof.
  unfold F64.mul.
  destruct x as [sx|sx| |sx mx ex], y as [sy|sy| |sy my ey]; cbn [SFmul];
    try reflexivity; cbn [F64.nonneg]; intros Hx Hy;
    try (destruct sx; try discriminate; destruct sy; try discriminate;
         reflexivity).
  destruct sx; [discriminate|]. destruct sy; [discriminate|].
  apply F64_facts.sign_is_nonneg, F64_facts.binary_round_aux_sign.
Qed.

Lemma priceOk_fields (l : UiLadderLevel) :
  priceOk l = true ->
  F64.valid (Price l) = true /\ F64.nonneg (Price l) = true.
Proof. unfold priceOk. rewrite andb_true_iff. tauto. Qed.

Lemma walkBids_amount (bids : list UiLadderLevel) (out budget : float64) :
  forallb sizeOk bids = true -> forallb priceOk bids = true ->
  F64.valid out = true -> F64.nonneg out = true ->
  F64.valid budget = true -> F64.leb budget F64.zero = false ->
  F64.valid (fst (walkBids bids out budget)) = true /\
  F64.nonneg (fst (walkBids bids out budget)) = true.
Proof.
  revert out budget.
  induction bids as [|l rest IH]; intros out budget Hs Hp Hv Hn Hbv Hb;
    cbn [walkBids].
  - split; assumption.
  - cbn [forallb] in Hs, Hp.
    apply andb_true_iff in Hs. destruct Hs as [Hl Hrest].
    apply andb_true_iff in Hp. destruct Hp as [Hpl Hprest].
    pose proof (sizeOk_fields l Hl) as (Hqv & Hqf & Hqn).
    pose proof (priceOk_fields l Hpl) as (Hpv & Hpn).
    pose proof (F64_facts.not_le_zero_nonneg _ Hb) as Hbn.
    destruct (F64.geb (Quantity l) budget) eqn:G; cbn [fst].
    + split.
      * apply F64_facts.SFadd_valid; [assumption|].
        apply F64_facts.SFmul_valid; assumption.
      * apply F64_facts.SFadd_nonneg; [assumption|].
        apply SFmul_nonneg; assumption.
    + assert (Hv' : F64.valid (F64.add out (F64.mul (Quantity l) (Price l)))
                    = true).
      { apply F64_facts.SFadd_valid; [assumption|].
        apply F64_facts.SFmul_valid; assumption. }
      assert (Hn' : F64.nonneg (F64.add out (F64.mul (Quantity l) (Price l)))
                    = true).
      { apply F64_facts.SFadd_nonneg; [assumption|].
        apply SFmul_nonneg; assumption. }
      assert (L : F64.leb (F64.sub budget (Quantity l)) F64.zero = false).
      { apply F64_facts.SFsub_pos; assumption. }
      rewrite L. apply IH; try assumption.
      apply F64_facts.SFsub_valid; assumption.
Qed.

(** X14: the amount of a returned quote is a valid binary64 value that does
    not compare below zero, when the sizes of the walked side are valid,
    finite and non-negative and, in direction B to A, the bid prices are
    valid and not negative. *)
Theorem X14_a_returned_amount_is_never_below_zero
  (h : Hoenix) (p : QuoteParams.t) (ladder ladder' : UiLadder) (q : Quote.t) :
  forallb sizeOk (walkedLevels ladder (QuoteParams.AToB p)) = true ->
  (QuoteParams.AToB p = false -> forallb priceOk (Bids ladder) = true) ->
  GetQuote h p ladder = (Ok q, ladder') ->
  F64.valid (Quote.OutAmount q) = true /\
  F64.nonneg (Quote.OutAmount q) = true /\
  SFltb (Quote.OutAmount q) F64.zero = false.
Proof.
  intros Hs Hp H.
  apply GetQuote_ok_full in H. destruct H as (-> & _ & Hadj & _).
  cbn [Quote.OutAmount].
  assert (Hvn : F64.valid (fst (walk h p ladder)) = true /\
                F64.nonneg (fst (walk h p ladder)) = true).
  { unfold walk, walkedLevels in *.
    destruct (QuoteParams.AToB p).
    - apply walkAsks_amount; [assumption|reflexivity|reflexivity|assumption].
    - apply walkBids_amount; try assumption; try reflexivity.
      + apply Hp; reflexivity.
      + apply applyTakerFee_valid. }
  destruct Hvn as [Hv Hn]. split; [exact Hv|]. split; [exact Hn|].
  destruct (fst (walk h p ladder)) as [s|s| |s m e]; cbn in Hn |- *;
    try reflexivity; destruct s; try discriminate; reflexivity.
Qed.

Lemma X14_returned_amount_witness :
  F64.valid (S754_finite false 6752023429341074 (-50)) = true /\
  F64.nonneg (S754_finite false 6752023429341074 (-50)) = true /\
  SFltb (S754_finite false 6752023429341074 (-50)) F64.zero = false.
Proof.
  apply (X14_a_returned_amount_is_never_below_zero
           mainHoenix (params (F64.of_Z 150) true) mainLadder
           (snd (GetQuote mainHoenix (params (F64.of_Z 150) true) mainLadder))
           {| Quote.InAmount := F64.of_Z 150;
              Quote.OutAmount := S754_finite false 6752023429341074 (-50) |}).
  - reflexivity.
  - discriminate.
  - vm_compute. reflexivity.
Defined.

(** ** A zero fee *)

(** X15: with a taker fee of zero (of either sign) [applyTakerFee] returns
    every valid amount unchanged, subnormal numbers, infinities and NaN
    included: the divisor [1 + 0 / 10000] is 1 and division by 1 is exact. *)
Theorem X15_a_zero_fee_takes_nothing (amount : float64) (s : bool) :
  F64.valid amount = true ->
  applyTakerFee amount (S754_zero s) = amount.
Proof.
  intros Hv. unfold applyTakerFee.
  assert (E : F64.add (F64.of_Z 1) (F64.div (S754_zero s) (F64.of_Z FeeScale))
              = one) by (destruct s; vm_compute; reflexivity).
  rewrite E. apply F64_division.SFdiv_one. exact Hv.
Qed.

Lemma X15_zero_fee_witness :
  applyTakerFee (F64.of_Z 150) (S754_zero false) = F64.of_Z 150.
Proof.
  apply (X15_a_zero_fee_takes_nothing (F64.of_Z 150) false).
  vm_compute. reflexivity.
Defined.

(** ** A fee that is not below zero *)

(** X16: a fee that is not below zero never raises the amount: for every
    valid, finite, positive amount and every valid fee with [0 <= fee]
    (plus infinity included), the fee-adjusted amount compares [<=] the
    amount and is not below zero. *)
Theorem X16_a_fee_not_below_zero_never_raises_the_amount
  (amount fee : float64) :
  F64.valid amount = true -> F64.is_finite amount = true ->
  F64.is_pos amount = true ->
  F64.valid fee = true -> F64.leb F64.zero fee = true ->
  F64.leb (applyTakerFee amount fee) amount = true /\
  F64.nonneg (applyTakerFee amount fee) = true.
Proof.
  intros Hva Hfa Hpa Hvf Hf.
  unfold applyTakerFee, F64.leb, F64.div, F64.add.
  assert (E10 : exists m e, F64.of_Z FeeScale = S754_finite false m e)
    by (eexists; eexists; vm_compute; reflexivity).
  destruct E10 as (m10 & e10 & ->).
  change (F64.of_Z 1) with one.
  pose proof (F64_division.SFdiv_fee_shape fee m10 e10 Hvf Hf) as Hz.
  pose proof (F64_division.one_plus_shape _ Hz) as Hy. cbv zeta in Hy.
  destruct amount as [s|s| |s mx ex]; try discriminate.
  destruct s; [discriminate|].
  destruct Hy as [->|(my & ey & -> & Hvy & Hy1)].
  - split; reflexivity.
  - split.
    + apply F64_division.SFdiv_le_self; assumption.
    + apply F64_facts.SFdiv_nonneg; reflexivity.
Qed.

Lemma X16_fee_witness :
  F64.leb (applyTakerFee (F64.of_Z 150) (F64.of_Z 5)) (F64.of_Z 150) = true /\
  F64.nonneg (applyTakerFee (F64.of_Z 150) (F64.of_Z 5)) = true.
Proof.
  apply (X16_a_fee_not_below_zero_never_raises_the_amount
           (F64.of_Z 150) (F64.of_Z 5)); vm_compute; reflexivity.
Defined.

End Ladder_props.
